(** * Hitori solver: board, union-find and the search pipeline

    A shallow embedding of [hitori/union_find.py] and [hitori/board.py]
    together with the properties stated for them.

    Python exceptions are results of an error type; the dictionary of the
    union-find structure is a [gmap], mutated in place in the source and
    threaded explicitly here; loops that the source writes as [while True]
    or as unbounded recursion carry a fuel argument, and running out of
    fuel is a result of its own ([OutOfFuel]) that the theorems exclude. *)

From Stdlib Require Import ZArith Ascii String.
From stdpp Require Import gmap strings list fin_maps relations.

Local Open Scope Z_scope.

(** ** Exceptions *)

Inductive exn := ValueError | IndexError | AssertionError | KeyError.

Inductive result (A : Type) :=
| Ok (a : A)
| Raise (e : exn)
| OutOfFuel.
Arguments Ok {A} a.
Arguments Raise {A} e.
Arguments OutOfFuel {A}.

Definition rbind {A B} (r : result A) (f : A → result B) : result B :=
  match r with
  | Ok a => f a
  | Raise e => Raise e
  | OutOfFuel => OutOfFuel
  end.

#[global] Instance exn_eq_dec : EqDecision exn.
Proof. solve_decision. Defined.

#[global] Instance result_eq_dec `{EqDecision A} : EqDecision (result A).
Proof. solve_decision. Defined.

#[global] Instance result_fmap : FMap result :=
  λ A B f r, rbind r (λ a, Ok (f a)).

#[warnings="-notation-incompatible-prefix"]
Notation "x <- r ;; k" := (rbind r (λ x, k))
  (at level 100, r at next level, right associativity, only parsing).
#[warnings="-notation-incompatible-prefix"]
Notation "' p <- r ;; k" := (rbind r (λ p, k))
  (at level 100, p strict pattern, r at next level, right associativity,
   only parsing).

(** ** union_find.py *)

Module UnionFind.
Section UnionFind.
(** Keys are the values usable as dictionary keys. Python's [None] is
    one of them: [find] returns it as the leader of a key it does not
    know, and [union] tests its leaders against it. *)
Context {K : Type} `{Countable K}.
Variable pyNone : K.

(** [self.leaders]: key ↦ (leader, size). *)
Abbreviation leaders := (gmap K (K * nat)).

(** [__init__]: [{m: (m, 1) for m in members}]. *)
Definition init (members : list K) : leaders :=
  foldl (λ d m, <[m := (m, 1%nat)]> d) ∅ members.

(** The [while True] loop of [find]; at the head of the loop
    [(q, n)] is what was read from [self.leaders[p]]. *)
Fixpoint find_loop (fuel : nat) (d : leaders) (p q : K) (n : nat)
  : result ((K * nat) * leaders) :=
  match fuel with
  | O => OutOfFuel
  | S fuel =>
      if decide (p = q) then Ok ((p, n), d)
      else
        match d !! q with
        | None => Raise KeyError
        | Some e =>
            let d1 := <[p := e]> d in
            match d1 !! q with
            | None => Raise KeyError
            | Some (q', n') => find_loop fuel d1 q q' n'
            end
        end
  end.

(** [find]: the result and the dictionary after the call. The loop
    is given one more step than there are keys. *)
Definition find (d : leaders) (p : K) : result ((K * nat) * leaders) :=
  match d !! p with
  | None => Ok ((pyNone, 0%nat), d)
  | Some (q, n) => find_loop (S (size d)) d p q n
  end.

(** [union]: returns the dictionary after the call. *)
Definition union (d : leaders) (p q : K) : result leaders :=
  '(p_lead, p_num, d) <- find d p;;
  '(q_lead, q_num, d) <- find d q;;
  if decide (p_lead = pyNone ∨ q_lead = pyNone) then Ok d
  else if decide (p_lead ≠ q_lead) then
    let v := (q_lead, (p_num + q_num)%nat) in
    Ok (<[q_lead := v]> (<[p_lead := v]> d))
  else Ok d.

(** [connected]: the answer and the dictionary after the two finds. *)
Definition connected (d : leaders) (p q : K) : result (bool * leaders) :=
  '(fp, d) <- find d p;;
  '(fq, d) <- find d q;;
  Ok (bool_decide (fp = fq), d).

(** A sequence of [union] calls. *)
Fixpoint unions (d : leaders) (ops : list (K * K)) : result leaders :=
  match ops with
  | [] => Ok d
  | (p, q) :: ops => d <- union d p q;; unions d ops
  end.

(** A sequence of calls of the three methods, results dropped. *)
Inductive call := Union (p q : K) | Find (p : K) | Connected (p q : K).

Definition do_call (d : leaders) (c : call) : result leaders :=
  match c with
  | Union p q => union d p q
  | Find p => '(_, d) <- find d p;; Ok d
  | Connected p q => '(_, d) <- connected d p q;; Ok d
  end.

Fixpoint calls (d : leaders) (cs : list call) : result leaders :=
  match cs with
  | [] => Ok d
  | c :: cs => d <- do_call d c;; calls d cs
  end.

(** *** Specification vocabulary *)

(** [reaches d k r n]: following the stored leader links from [k] for
    [n] steps arrives at [r], which is its own leader. *)
Inductive reaches (d : leaders) : K → K → nat → Prop :=
| reaches_root k s : d !! k = Some (k, s) → reaches d k k 0
| reaches_step k q s r n :
    d !! k = Some (q, s) → k ≠ q → reaches d q r n → reaches d k r (S n).

Definition root_of (d : leaders) (k r : K) : Prop := ∃ n, reaches d k r n.

(** Two keys are in the same class. *)
Definition same (d : leaders) (a b : K) : Prop :=
  ∃ r, root_of d a r ∧ root_of d b r.

(** Every tracked key has a representative. *)
Definition rooted (d : leaders) : Prop :=
  ∀ k, k ∈ dom d → ∃ r, root_of d k r.

(** The size stored at a representative counts the keys of its class. *)
Definition sized (d : leaders) : Prop :=
  ∀ r s, d !! r = Some (r, s) →
    ∃ C : gset K, (∀ k, k ∈ C ↔ root_of d k r) ∧ size C = s.

Definition wf (d : leaders) : Prop := rooted d ∧ sized d.

(** States with the same keys, classes and representatives' entries. *)
Definition agree (d d' : leaders) : Prop :=
  dom d' = dom d ∧
  (∀ k r, root_of d' k r ↔ root_of d k r) ∧
  (∀ r s, d' !! r = Some (r, s) ↔ d !! r = Some (r, s)).

(** The relation a state stands for, extended by the pairs of [ops]
    between keys of that state. *)
Definition extended (d : leaders) (ops : list (K * K)) : relation K :=
  λ x y, same d x y ∨ ((x, y) ∈ ops ∧ x ∈ dom d ∧ y ∈ dom d).

(** The keys [find d p] visits: [p] and the leaders above it. *)
Inductive visits (d : leaders) : K → K → Prop :=
| visits_here p : visits d p p
| visits_up p q s x :
    d !! p = Some (q, s) → p ≠ q → visits d q x → visits d p x.

(** What [find(k)] returns, the dictionary after the call left aside. *)
Definition answer (d : leaders) (k : K) : result (K * nat) :=
  fst <$> find d k.

(** What [connected(a, b)] returns. *)
Definition linked_now (d : leaders) (a b : K) : result bool :=
  fst <$> connected d a b.

(** The pairs of a sequence of [union] calls that are between tracked
    keys, and the equivalence they generate. *)
Definition linked (members : list K) (ops : list (K * K)) (a b : K) : Prop :=
  (a, b) ∈ ops ∧ a ∈ members ∧ b ∈ members.

Definition component (members : list K) (ops : list (K * K)) : relation K :=
  rtsc (linked members ops).

End UnionFind.
End UnionFind.

(** ** Python sequences *)

Module Py.

(** [l[i]]: a negative index counts from the end. *)
Definition index {A} (l : list A) (i : Z) : result A :=
  let n := Z.of_nat (length l) in
  let j := if 0 <=? i then i else n + i in
  if (0 <=? j) && (j <? n) then
    match l !! Z.to_nat j with
    | Some a => Ok a
    | None => Raise IndexError
    end
  else Raise IndexError.

(** [l[i] = a] on a list. *)
Definition setitem {A} (l : list A) (i : Z) (a : A) : result (list A) :=
  let n := Z.of_nat (length l) in
  let j := if 0 <=? i then i else n + i in
  if (0 <=? j) && (j <? n) then Ok (<[Z.to_nat j := a]> l)
  else Raise IndexError.

(** [l[:i]] and [l[i:]]: out-of-range bounds are clipped. *)
Definition slice_to {A} (l : list A) (i : Z) : list A :=
  let n := Z.of_nat (length l) in
  take (Z.to_nat (if 0 <=? i then i else n + i)) l.

Definition slice_from {A} (l : list A) (i : Z) : list A :=
  let n := Z.of_nat (length l) in
  drop (Z.to_nat (if 0 <=? i then i else n + i)) l.

(** [range(n)]. *)
Definition range (n : Z) : list Z := Z.of_nat <$> seq 0 (Z.to_nat n).

(** [s.split(sep)] for a separator of one character. *)
Fixpoint split (sep : ascii) (s : list ascii) : list (list ascii) :=
  match s with
  | [] => [[]]
  | c :: s =>
      if decide (c = sep) then [] :: split sep s
      else match split sep s with
           | [] => [[c]]
           | l :: ls => (c :: l) :: ls
           end
  end.

(** [sep.join(ls)]. *)
Fixpoint join (sep : list ascii) (ls : list (list ascii)) : list ascii :=
  match ls with
  | [] => []
  | [l] => l
  | l :: ls => l ++ sep ++ join sep ls
  end.

(** [a or b], the second operand evaluated only when needed. *)
Definition or_else (a b : result bool) : result bool :=
  x <- a;; if x then Ok true else b.

End Py.

(** ** board.py *)

Module Board.

Definition BLANK : ascii := "#"%char.

Abbreviation coord := (Z * Z)%type.

(** [self.lines]: a tuple of strings. *)
Record Hitori := mkHitori { lines : list (list ascii) }.

#[global] Instance Hitori_eq_dec : EqDecision Hitori.
Proof. solve_decision. Defined.

#[global] Instance Hitori_countable : Countable Hitori :=
  inj_countable' lines mkHitori (λ b, match b with mkHitori _ => eq_refl end).

(** [__init__]: the assertion reads [lines[0]] once per line, so no
    lines at all pass it. *)
Definition init (ls : list (list ascii)) : result Hitori :=
  match ls with
  | [] => Ok (mkHitori [])
  | l0 :: _ =>
      if forallb (λ l, (length l =? length l0)%nat) ls then Ok (mkHitori ls)
      else Raise AssertionError
  end.

Definition newline : ascii := "010"%char.

(** [parse]: [Hitori( *layout.split("\n"))]. *)
Definition parse (layout : list ascii) : result Hitori :=
  init (Py.split newline layout).

(** [__str__]. *)
Definition str (self : Hitori) : list ascii := Py.join [newline] (lines self).

(** [len(self.lines[0])] and [len(self.lines)]. *)
Definition len_line0 (self : Hitori) : result Z :=
  l0 <- Py.index (lines self) 0;; Ok (Z.of_nat (length l0)).

Definition len_lines (self : Hitori) : Z := Z.of_nat (length (lines self)).

(** [__getitem__]. *)
Definition getitem (self : Hitori) (c : coord) : result ascii :=
  let '(x, y) := c in
  l <- Py.index (lines self) y;; Py.index l x.

Definition size (self : Hitori) : result (Z * Z) :=
  w <- len_line0 self;; Ok (w, len_lines self).

Definition row (self : Hitori) (y : Z) : result (list coord) :=
  w <- len_line0 self;; Ok ((λ x, (x, y)) <$> Py.range w).

Definition col (self : Hitori) (x : Z) : result (list coord) :=
  Ok ((λ y, (x, y)) <$> Py.range (len_lines self)).

Definition is_blank (self : Hitori) (x y : Z) : result bool :=
  if negb (0 <=? x) then Ok false
  else
    w <- len_line0 self;;
    if negb (x <? w) then Ok false
    else if negb ((0 <=? y) && (y <? len_lines self)) then Ok false
    else c <- getitem self (x, y);; Ok (bool_decide (c = BLANK)).

Definition blank (self : Hitori) (x y : Z) : result Hitori :=
  t <- Py.or_else (is_blank self (x - 1) y)
         (Py.or_else (is_blank self (x + 1) y)
            (Py.or_else (is_blank self x (y - 1)) (is_blank self x (y + 1))));;
  if t then Raise ValueError
  else
    let ls := lines self in
    l <- Py.index ls y;;
    ls <- Py.setitem ls y (Py.slice_to l x ++ [BLANK] ++ Py.slice_from l (x + 1));;
    init ls.

(** A call of [blank] seen from outside: the receiver after the call
    and the result. The neighbour check comes before every write; after
    it [blank] assigns no attribute of [self] ([self.lines] is a tuple)
    and the list it updates is the copy [list(self.lines)]. *)
Definition blank_call (self : Hitori) (x y : Z) : Hitori * result Hitori :=
  (self, blank self x y).

(** *** The search *)

(** The selectors [row_n(n)] and [col_n(n)]. *)
Inductive selector := row_n (n : Z) | col_n (n : Z).

Definition select (s : selector) (board : Hitori) : result (list coord) :=
  match s with
  | row_n n => row board n
  | col_n n => col board n
  end.

(** The entries of the list [gens]: [partial(blank_some, selector)],
    [check_connectedness] and [partial(collect_candidate, answers)]. *)
Inductive generator :=
| BlankSome (s : selector)
| CheckConnectedness
| CollectCandidate.

(** [answers]: the set the collector adds to. *)
Abbreviation answers := (gset Hitori).

(** A call of a generator with a board: [answers] before ↦ after. *)
Abbreviation cont := (Hitori → answers → result answers).

(** [counts[v].append(c)] on a dictionary that keeps insertion order. *)
Fixpoint append_count (counts : list (ascii * list coord)) (v : ascii) (c : coord)
  : list (ascii * list coord) :=
  match counts with
  | [] => [(v, [c])]
  | (v', w) :: counts =>
      if decide (v' = v) then (v', w ++ [c]) :: counts
      else (v', w) :: append_count counts v c
  end.

(** The loop that groups the non-blank cells by value. *)
Fixpoint group (board : Hitori) (cells : list coord)
    (counts : list (ascii * list coord)) : result (list (ascii * list coord)) :=
  match cells with
  | [] => Ok counts
  | (x, y) :: cells =>
      b <- is_blank board x y;;
      if b then group board cells counts
      else v <- getitem board (x, y);;
           group board cells (append_count counts v (x, y))
  end.

(** [b2 = b2.blank(x, y)] under [try: ... except ValueError: break]:
    [None] stands for the [break]. *)
Definition try_blank (b2 : Hitori) (c : coord) : result (option Hitori) :=
  match blank b2 c.1 c.2 with
  | Ok b2 => Ok (Some b2)
  | Raise ValueError => Ok None
  | Raise e => Raise e
  | OutOfFuel => OutOfFuel
  end.

(** The inner loop that blanks all of [where] but [keep]. *)
Fixpoint blank_others (b2 : Hitori) (where_ : list coord) (keep : coord)
  : result (option Hitori) :=
  match where_ with
  | [] => Ok (Some b2)
  | c :: where_ =>
      if decide (c ≠ keep) then
        r <- try_blank b2 c;;
        match r with
        | Some b2 => blank_others b2 where_ keep
        | None => Ok None
        end
      else blank_others b2 where_ keep
  end.

(** The loop that blanks all of [where]. *)
Fixpoint blank_all (b2 : Hitori) (where_ : list coord) : result (option Hitori) :=
  match where_ with
  | [] => Ok (Some b2)
  | c :: where_ =>
      r <- try_blank b2 c;;
      match r with
      | Some b2 => blank_all b2 where_
      | None => Ok None
      end
  end.

(** The [else] of a blanking loop: [generators[0](b2, generators)]. *)
Definition or_dropped (gen0 : cont) (r : option Hitori) (a : answers)
  : result answers :=
  match r with
  | Some b2 => gen0 b2 a
  | None => Ok a
  end.

(** The outer loop [for (x, y) in where] of the keep-one variants. *)
Fixpoint keep_each (gen0 : cont) (board : Hitori) (where_ todo : list coord)
    (a : answers) : result answers :=
  match todo with
  | [] => Ok a
  | c :: todo =>
      r <- blank_others board where_ c;;
      a <- or_dropped gen0 r a;;
      keep_each gen0 board where_ todo a
  end.

(** [blank_some(selector, board, generators)]; [gen0 b] stands for
    [generators[0](b, generators)] and [gen1 b] for
    [if len(generators) > 1: generators[1](b, generators[1:])]. *)
Definition blank_some (gen0 gen1 : cont) (s : selector) (board : Hitori)
    (a : answers) : result answers :=
  cells <- select s board;;
  counts <- group board cells [];;
  match List.find (λ vw, (1 <? length vw.2)%nat) counts with
  | Some (_, where_) =>
      a <- keep_each gen0 board where_ where_ a;;
      r <- blank_all board where_;;
      or_dropped gen0 r a
  | None => gen1 board a
  end.

(** The comprehension [(x, y) for y in range(my) for x in range(mx)
    if not board.is_blank(x, y)]. *)
Fixpoint keep_nonblank (board : Hitori) (cs : list coord) : result (list coord) :=
  match cs with
  | [] => Ok []
  | (x, y) :: cs =>
      b <- is_blank board x y;;
      rest <- keep_nonblank board cs;;
      Ok (if b then rest else (x, y) :: rest)
  end.

Definition all_coords (mx my : Z) : list coord :=
  y ← Py.range my; (λ x, (x, y)) <$> Py.range mx.

(** The four [uf.union] calls made for one cell. *)
Definition unions_of (c : coord) : list (option coord * option coord) :=
  let '(x, y) := c in
  [(Some (x, y), Some (x - 1, y)); (Some (x, y), Some (x + 1, y));
   (Some (x, y), Some (x, y - 1)); (Some (x, y), Some (x, y + 1))].

Section search.
(** The order in which a Python set of coordinates is iterated. *)
Variable order : gset coord → list coord.

(** [check_connectedness(board, generators)]. The keys of the
    union-find are coordinates; [None] is Python's [None]. *)
Definition check_connectedness (gen1 : cont) (board : Hitori) (a : answers)
  : result answers :=
  '(mx, my) <- size board;;
  l <- keep_nonblank board (all_coords mx my);;
  let cells : gset coord := list_to_set l in
  if (0 <? base.size cells)%nat then
    let uf := UnionFind.init (Some <$> order cells) in
    uf <- UnionFind.unions None uf (order cells ≫= unions_of);;
    some <- Py.index (order cells) (-1);;
    '(_, n, _) <- UnionFind.find None uf (Some some);;
    if decide (n ≠ base.size cells) then Ok a
    else gen1 board a
  else gen1 board a.

(** [collect_candidate(collection, board, generators)]. *)
Definition collect_candidate (gen1 : cont) (board : Hitori) (a : answers)
  : result answers :=
  gen1 board ({[board]} ∪ a).

(** [generators[0](board, generators)]. The recursion of the source has
    no bound, here every call takes one unit of fuel. *)
Fixpoint call (fuel : nat) (generators : list generator) (board : Hitori)
    (a : answers) : result answers :=
  match fuel with
  | O => OutOfFuel
  | S fuel =>
      match generators with
      | [] => Raise IndexError
      | g :: rest =>
          let gen0 := call fuel generators in
          let gen1 := match rest with
                      | [] => λ _ a, Ok a
                      | _ :: _ => call fuel rest
                      end in
          match g with
          | BlankSome s => blank_some gen0 gen1 s board a
          | CheckConnectedness => check_connectedness gen1 board a
          | CollectCandidate => collect_candidate gen1 board a
          end
      end
  end.

(** The list [gens] that [solve] builds. *)
Definition gens (mx my : Z) : list generator :=
  ((λ y, BlankSome (row_n y)) <$> Py.range my) ++
  ((λ x, BlankSome (col_n x)) <$> Py.range mx) ++
  [CheckConnectedness; CollectCandidate].

(** [solve(board)]. Each call blanks a cell or moves down the list, so
    the number of cells plus the length of the list bounds the depth. *)
Definition solve (board : Hitori) : result answers :=
  '(mx, my) <- size board;;
  let fuel := S (Z.to_nat (mx * my) + length (gens mx my)) in
  call fuel (gens mx my) board ∅.

End search.

(** *** Specification vocabulary *)

(** A board is a value the constructor returned. *)
Definition constructed (b : Hitori) : Prop := init (lines b) = Ok b.

Definition width (b : Hitori) : Z := Z.of_nat (length (hd [] (lines b))).
Definition height (b : Hitori) : Z := Z.of_nat (length (lines b)).

(** At least one line, all lines as long as the first. *)
Definition rectangular (b : Hitori) : Prop :=
  lines b ≠ [] ∧ Forall (λ l, Z.of_nat (length l) = width b) (lines b).

Definition in_range (b : Hitori) (c : coord) : Prop :=
  (0 ≤ c.1 < width b) ∧ (0 ≤ c.2 < height b).

(** The symbol at a coordinate, [None] outside the board. *)
Definition cell (b : Hitori) (c : coord) : option ascii :=
  if bool_decide (0 ≤ c.1 ∧ 0 ≤ c.2) then
    l ← lines b !! Z.to_nat c.2; l !! Z.to_nat c.1
  else None.

Definition blank_at (b : Hitori) (c : coord) : Prop := cell b c = Some BLANK.

#[global] Instance blank_at_dec b c : Decision (blank_at b c).
Proof. unfold blank_at. apply _. Defined.

(** A cell of the board that is not blanked. *)
Definition filled (b : Hitori) (c : coord) : Prop :=
  ∃ v, cell b c = Some v ∧ v ≠ BLANK.

Definition neighbours (c : coord) : list coord :=
  [(c.1 - 1, c.2); (c.1 + 1, c.2); (c.1, c.2 - 1); (c.1, c.2 + 1)].

(** The lines of the board with the cell at [(x, y)] blanked. *)
Definition blank_lines (b : Hitori) (x y : Z) : list (list ascii) :=
  match lines b !! Z.to_nat y with
  | Some l => <[Z.to_nat y := <[Z.to_nat x := BLANK]> l]> (lines b)
  | None => lines b
  end.

(** No [BLANK] in the input. *)
Definition no_blank (b : Hitori) : Prop := Forall (λ l, BLANK ∉ l) (lines b).

(** The three conditions of a solved board. *)
Definition no_adjacent_blanks (b : Hitori) : Prop :=
  ∀ c c', blank_at b c → c' ∈ neighbours c → ¬ blank_at b c'.

Definition same_row (c c' : coord) : Prop := c.2 = c'.2.
Definition same_col (c c' : coord) : Prop := c.1 = c'.1.

Definition no_duplicates (b : Hitori) : Prop :=
  ∀ c c' v, c ≠ c' → same_row c c' ∨ same_col c c' →
    cell b c = Some v → cell b c' = Some v → v = BLANK.

(** A step between orthogonally adjacent cells that are not blanked. *)
Definition step (b : Hitori) (c c' : coord) : Prop :=
  filled b c ∧ filled b c' ∧ c' ∈ neighbours c.

Definition connected_region (b : Hitori) : Prop :=
  ∀ c c', filled b c → filled b c' → rtc (step b) c c'.

Definition solved (b : Hitori) : Prop :=
  no_duplicates b ∧ no_adjacent_blanks b ∧ connected_region b.

(** [b'] is [b] with some more cells blanked. *)
Definition blanked (b b' : Hitori) : Prop :=
  width b' = width b ∧ height b' = height b ∧
  ∀ c, cell b' c = cell b c ∨ (blank_at b' c ∧ is_Some (cell b c)).

(** The cells of a line have pairwise different symbols, blanks apart. *)
Definition clean (b : Hitori) (cs : list coord) : Prop :=
  ∀ c c' v, c ∈ cs → c' ∈ cs → c ≠ c' →
    cell b c = Some v → cell b c' = Some v → v = BLANK.

(** [s] blanks no more cells of [b] than it takes to leave no symbol
    twice in a row or column: no board between [b] and [s] other than
    [s] is free of duplicates. *)
Definition minimal (b s : Hitori) : Prop :=
  ∀ b', rectangular b' → blanked b b' → blanked b' s → no_duplicates b' →
        b' = s.

(** The symbol of [c] is at another cell of its row or column as well. *)
Definition duplicated (b : Hitori) (c : coord) : Prop :=
  ∃ c' v, c' ≠ c ∧ (same_row c c' ∨ same_col c c') ∧
          cell b c = Some v ∧ cell b c' = Some v ∧ v ≠ BLANK.

(** [b'] is [b] with some duplicated cells blanked. *)
Definition blanked_duplicates (b b' : Hitori) : Prop :=
  blanked b b' ∧ ∀ c, blank_at b' c → blank_at b c ∨ duplicated b c.

(** A board of the search: rectangular, no two blanks adjacent. *)
Definition sound (b : Hitori) : Prop := rectangular b ∧ no_adjacent_blanks b.

(** A selector of the list [solve] builds. *)
Definition valid_selector (b : Hitori) (s : selector) : Prop :=
  match s with
  | row_n n => 0 ≤ n < height b
  | col_n n => 0 ≤ n < width b
  end.

(** Adjacent cells of a set. *)
Definition adjacent_in (cells : gset coord) (c c' : coord) : Prop :=
  c ∈ cells ∧ c' ∈ cells ∧ c' ∈ neighbours c.

(** What [counts] holds when the cells [done] have been grouped. *)
Definition grouped (b : Hitori) (done : list coord)
    (counts : list (ascii * list coord)) : Prop :=
  NoDup counts.*1 ∧
  (∀ v w, (v, w) ∈ counts →
     v ≠ BLANK ∧ w ≠ [] ∧ w = filter (λ c, cell b c = Some v) done) ∧
  (∀ c v, c ∈ done → cell b c = Some v → v ≠ BLANK → v ∈ counts.*1).

(** The coordinates a selector picks. *)
Definition line (b : Hitori) (s : selector) : list coord :=
  match s with
  | row_n n => (λ x, (x, n)) <$> Py.range (width b)
  | col_n n => (λ y, (n, y)) <$> Py.range (height b)
  end.

(** The set of cells that are not blanked. *)
Definition is_filled (b : Hitori) (c : coord) : bool :=
  match cell b c with
  | Some v => bool_decide (v ≠ BLANK)
  | None => false
  end.

Definition filled_cells (b : Hitori) : gset coord :=
  list_to_set (filter (λ c, is_filled b c = true)
                 (all_coords (width b) (height b))).

(** A set's iteration order lists its elements once each. *)
Definition iterates (order : gset coord → list coord) : Prop :=
  ∀ s, order s ≡ₚ elements s.

(** The selectors of the list [gens], and a list of generators that
    ends as that of [solve] does. *)
Definition selectors (mx my : Z) : list selector :=
  (row_n <$> Py.range my) ++ (col_n <$> Py.range mx).

Definition pipeline (sels : list selector) : list generator :=
  (BlankSome <$> sels) ++ [CheckConnectedness; CollectCandidate].

Definition parse_line (s : string) : list ascii := list_ascii_of_string s.

(** The constructor applied to string literals. *)
Definition Hitori_of (ls : list string) : result Hitori := init (parse_line <$> ls).

End Board.

(** ** Data of the examples *)

(** Keys for the examples: Python's [None] and integers. *)
Definition key1 : option nat := Some 1%nat.
Definition key2 : option nat := Some 2%nat.
Definition key3 : option nat := Some 3%nat.
Definition key4 : option nat := Some 4%nat.

(** The chain 1 → 2 → 3 → 4. *)
Definition chain_calls : list (@UnionFind.call (option nat)) :=
  [UnionFind.Union key1 key2; UnionFind.Union key2 key3;
   UnionFind.Union key3 key4].

Definition chain : gmap (option nat) (option nat * nat) :=
  {[ key1 := (key2, 2%nat); key2 := (key3, 3%nat);
     key3 := (key4, 4%nat); key4 := (key4, 4%nat) ]}.

(** The classes {1, 2} and {3, 4}. *)
Definition pair_calls : list (@UnionFind.call (option nat)) :=
  [UnionFind.Union key1 key2; UnionFind.Union key3 key4].

Definition pairs : gmap (option nat) (option nat * nat) :=
  {[ key1 := (key2, 2%nat); key2 := (key2, 2%nat);
     key3 := (key4, 2%nat); key4 := (key4, 2%nat) ]}.

Module Examples.
Import Board.

Definition board_12_34 : Hitori := mkHitori (parse_line <$> ["12"; "34"]%string).
Definition board_x2_34 : Hitori := mkHitori (parse_line <$> ["#2"; "34"]%string).
Definition board_11_21 : Hitori := mkHitori (parse_line <$> ["11"; "21"]%string).
Definition text_12_34 : list ascii := parse_line "12" ++ newline :: parse_line "34".
Definition board_x2_3x : Hitori := mkHitori (parse_line <$> ["#2"; "3#"]%string).
Definition board_12_x4 : Hitori := mkHitori (parse_line <$> ["12"; "#4"]%string).
Definition board_1x_21 : Hitori := mkHitori (parse_line <$> ["1#"; "21"]%string).
Definition board_5x5 : Hitori :=
  mkHitori (parse_line <$> ["15312"; "54134"; "34315"; "44233"; "21544"]%string).

(** The set iterated from its last element to its first. *)
Definition backwards (s : gset coord) : list coord := reverse (elements s).

(** The boards of a result as lists of strings. *)
Definition rendered (r : result answers) : result (list (list string)) :=
  a <- r;; Ok ((λ b, string_of_list_ascii <$> lines b) <$> elements a).

End Examples.

(** * Union-find: the leader links form a forest *)

Section UnionFind_facts.
Context {K : Type} `{Countable K}.
Variable pyNone : K.
Implicit Types d : gmap K (K * nat).
Import UnionFind.

(** A key that is not its own leader is one step further from the
    representative than its leader. *)
Lemma reaches_up d k q s r n :
  reaches d k r n → d !! k = Some (q, s) → k ≠ q →
  ∃ m, n = S m ∧ reaches d q r m.
Proof.
  intros Hk Hq Hne. destruct Hk as [k s' Hk | k q' s' r n Hk _ Hq'].
  - congruence.
  - exists n. split; [done|]. congruence.
Qed.

Lemma reaches_fun d k r1 n1 r2 n2 :
  reaches d k r1 n1 → reaches d k r2 n2 → r1 = r2 ∧ n1 = n2.
Proof.
  intros H1; revert r2 n2.
  induction H1 as [k s Hk | k q s r n Hk Hne _ IH]; intros r2 n2 H2.
  - destruct H2 as [k s' Hk' | k q s' r2 n2 Hk' Hne _]; [done | congruence].
  - destruct (reaches_up _ _ _ _ _ _ H2 Hk Hne) as (m & -> & Hq).
    by destruct (IH _ _ Hq) as [-> ->].
Qed.

Lemma root_of_fun d k r1 r2 : root_of d k r1 → root_of d k r2 → r1 = r2.
Proof. intros [n1 H1] [n2 H2]. by destruct (reaches_fun _ _ _ _ _ _ H1 H2). Qed.

Lemma reaches_dom d k r n : reaches d k r n → k ∈ dom d.
Proof. destruct 1; apply elem_of_dom; eauto. Qed.

Lemma reaches_root_entry d k r n : reaches d k r n → ∃ s, d !! r = Some (r, s).
Proof. induction 1; eauto. Qed.

Lemma reaches_root_self d k r n : reaches d k r n → reaches d r r 0.
Proof. intros [s Hs]%reaches_root_entry. by econstructor. Qed.

Lemma root_of_dom d k r : root_of d k r → k ∈ dom d.
Proof. intros [n Hn]. by eapply reaches_dom. Qed.

Lemma root_of_root d k r : root_of d k r → root_of d r r.
Proof. intros [n Hn]. exists 0%nat. by eapply reaches_root_self. Qed.

Lemma root_of_self d r s : d !! r = Some (r, s) → root_of d r r.
Proof. intros. exists 0%nat. by econstructor. Qed.

Lemma root_of_entry d k r : root_of d k r → ∃ s, d !! r = Some (r, s).
Proof. intros [n Hn]. by eapply reaches_root_entry. Qed.

(** The keys on the way from [k] to its representative. *)
Lemma reaches_path d k r n :
  reaches d k r n →
  ∃ l : list K, length l = S n ∧ NoDup l ∧
    ∀ x, x ∈ l → ∃ m, (m ≤ n)%nat ∧ reaches d x r m.
Proof.
  induction 1 as [k s Hk | k q s r n Hk Hne Hq (l & Hlen & Hnd & Hl)].
  - exists [k]. split_and!; [done | apply NoDup_singleton |].
    intros x ->%list_elem_of_singleton. exists 0%nat. split; [done|].
    by econstructor.
  - exists (k :: l). split_and!.
    + simpl. by rewrite Hlen.
    + apply NoDup_cons. split; [|done].
      intros (m & Hm & Hr)%Hl.
      assert (reaches d k r (S n)) as Hk' by (by econstructor).
      destruct (reaches_fun _ _ _ _ _ _ Hr Hk') as [_ ->]. lia.
    + intros x [-> | (m & Hm & Hr)%Hl]%elem_of_cons.
      * exists (S n). split; [done|]. by econstructor.
      * exists m. split; [lia | done].
Qed.

Lemma reaches_bound d k r n : reaches d k r n → (n < size d)%nat.
Proof.
  intros (l & Hlen & Hnd & Hl)%reaches_path.
  assert (length l ≤ size (dom d))%nat as Hle.
  { rewrite <-(size_list_to_set (C:=gset K) l) by done.
    apply subseteq_size. intros x Hx%elem_of_list_to_set.
    destruct (Hl x Hx) as (m & _ & Hr). by eapply reaches_dom. }
  rewrite size_dom in Hle. lia.
Qed.


(** *** One step of the loop of [find] *)

Lemma agree_refl d : agree d d.
Proof. done. Qed.

Lemma agree_trans d1 d2 d3 : agree d1 d2 → agree d2 d3 → agree d1 d3.
Proof.
  intros (Hd & Hr & He) (Hd' & Hr' & He'). split_and!.
  - congruence.
  - intros k r. by rewrite Hr', Hr.
  - intros r s. by rewrite He', He.
Qed.

Lemma agree_rooted d d' : agree d d' → rooted d → rooted d'.
Proof.
  intros (Hd & Hr & _) Hroot k Hk. rewrite Hd in Hk.
  destruct (Hroot k Hk) as [r Hkr]. exists r. by apply Hr.
Qed.

Lemma agree_same d d' a b : agree d d' → same d' a b ↔ same d a b.
Proof.
  intros (_ & Hr & _). unfold same. by setoid_rewrite Hr.
Qed.

Lemma agree_wf d d' : agree d d' → wf d → wf d'.
Proof.
  intros Ha [Hroot Hsz]. split; [by eapply agree_rooted|].
  destruct Ha as (_ & Hr & He).
  intros r s Hrs%He. destruct (Hsz r s Hrs) as (C & HC & Hsize).
  exists C. split; [|done]. intros k. by rewrite HC, Hr.
Qed.

Section split.
Variables (d : gmap K (K * nat)) (p q : K) (s : nat) (e : K * nat).
Hypothesis Hp : d !! p = Some (q, s).
Hypothesis Hpq : p ≠ q.
Hypothesis Hq : d !! q = Some e.

Lemma split_reaches x r n :
  reaches d x r n → ∃ m, (m ≤ n)%nat ∧ reaches (<[p := e]> d) x r m.
Proof.
  induction 1 as [k s' Hk | k k' s' r n Hk Hne Hk' (m & Hm & IH)].
  - exists 0%nat. split; [done|]. apply reaches_root with s'.
    rewrite lookup_insert_ne; [done | congruence].
  - destruct (decide (k = p)) as [-> | Hkp].
    + assert (k' = q) as -> by congruence.
      inversion IH as [? se Hqe | ? g sg ? m' Hqg Hne' Hg]; subst.
      * exists 1%nat. split; [lia|].
        rewrite lookup_insert_ne in Hqe by done.
        apply reaches_step with r se; [|done|].
        -- rewrite lookup_insert_eq. congruence.
        -- apply reaches_root with se. by rewrite lookup_insert_ne.
      * rewrite lookup_insert_ne in Hqg by done.
        destruct (decide (p = g)) as [<- | Hpg].
        { (* a cycle p → q → p has no representative *)
          exfalso.
          assert (reaches d p r (S n)) as H1 by (by eapply reaches_step).
          destruct (reaches_up _ _ _ _ _ _ Hk' Hqg Hne') as (n' & Hn' & Hpr).
          destruct (reaches_fun _ _ _ _ _ _ H1 Hpr) as [_ Heq]. lia. }
        exists (S m'). split; [lia|].
        apply reaches_step with g sg; [|done|done].
        rewrite lookup_insert_eq. congruence.
    + exists (S m). split; [lia|].
      apply reaches_step with k' s'; [|done|done].
      by rewrite lookup_insert_ne.
Qed.

Lemma split_agree : rooted d → agree d (<[p := e]> d).
Proof.
  intros Hroot.
  assert (p ∈ dom d) as Hpd by (apply elem_of_dom; eauto).
  assert (dom (<[p := e]> d) = dom d) as Hdom.
  { apply dom_insert_lookup_L. eauto. }
  assert (∀ k r, root_of d k r → root_of (<[p := e]> d) k r) as Hfwd.
  { intros k r [n Hn]. destruct (split_reaches _ _ _ Hn) as (m & _ & Hm).
    by exists m. }
  split_and!; [done | |].
  - intros k r. split; [|apply Hfwd].
    intros Hk. destruct (Hroot k) as [r' Hr'].
    { rewrite <-Hdom. by eapply root_of_dom. }
    by rewrite (root_of_fun _ _ _ _ Hk (Hfwd _ _ Hr')).
  - intros r sr. destruct (decide (r = p)) as [-> | Hne].
    + rewrite lookup_insert_eq. split; [|congruence].
      intros He. exfalso.
      assert (d !! q = Some (p, sr)) as Hqp by congruence.
      destruct (Hroot p Hpd) as [r [n Hn]].
      destruct (reaches_up _ _ _ _ _ _ Hn Hp Hpq) as (n1 & Hn1 & Hq1).
      destruct (reaches_up _ _ _ _ _ _ Hq1 Hqp (not_eq_sym Hpq))
        as (n2 & Hn2 & Hp2).
      destruct (reaches_fun _ _ _ _ _ _ Hn Hp2) as [_ Heq]. lia.
    + by rewrite lookup_insert_ne.
Qed.

End split.

(** *** [find] *)

Lemma find_loop_ok fuel : ∀ d p q s r n,
  rooted d → reaches d p r n → d !! p = Some (q, s) → (n < fuel)%nat →
  ∃ sr d', find_loop fuel d p q s = Ok ((r, sr), d') ∧
           d !! r = Some (r, sr) ∧ agree d d'.
Proof.
  induction fuel as [| fuel IH]; intros d p q s r n Hroot Hr Hp Hn; [lia|].
  simpl. destruct (decide (p = q)) as [<- | Hpq].
  { inversion Hr; subst; [|congruence].
    exists s, d. split_and!; [done | done | apply agree_refl]. }
  destruct (reaches_up _ _ _ _ _ _ Hr Hp Hpq) as (n' & -> & Hq).
  assert (∃ q' s', d !! q = Some (q', s')) as (q' & s' & Hqe).
  { destruct Hq; eauto. }
  rewrite Hqe. rewrite lookup_insert_ne by done. rewrite Hqe.
  pose proof (split_agree d p q s (q', s') Hp Hpq Hqe Hroot) as Hag.
  destruct (split_reaches d p q s (q', s') Hp Hpq Hqe _ _ _ Hq)
    as (m & Hm & Hq1).
  destruct (IH (<[p := (q', s')]> d) q q' s' r m) as (sr & d' & Hf & Hre & Hag');
    [by eapply agree_rooted | done | by rewrite lookup_insert_ne | lia |].
  exists sr, d'. split_and!; [done | | by eapply agree_trans].
  by apply Hag.
Qed.

Lemma find_untracked d p : d !! p = None → find pyNone d p = Ok ((pyNone, 0%nat), d).
Proof. unfold find. by intros ->. Qed.

Lemma find_tracked d p :
  rooted d → p ∈ dom d →
  ∃ r sr d', find pyNone d p = Ok ((r, sr), d') ∧ root_of d p r ∧
             d !! r = Some (r, sr) ∧ agree d d'.
Proof.
  intros Hroot Hp. destruct (Hroot p Hp) as [r [n Hn]].
  apply elem_of_dom in Hp as [[q s] Hp]. unfold find. rewrite Hp.
  destruct (find_loop_ok (S (size d)) d p q s r n) as (sr & d' & Hf & Hr & Hag);
    [done | done | done | |].
  { apply reaches_bound in Hn. lia. }
  exists r, sr, d'. split_and!; [done | by exists n | done | done].
Qed.


(** *** [union] *)

Section merge.
Variables (d : gmap K (K * nat)) (rp rq : K) (sp sq : nat).
Hypothesis Hp : d !! rp = Some (rp, sp).
Hypothesis Hq : d !! rq = Some (rq, sq).
Hypothesis Hne : rp ≠ rq.

Let v : K * nat := (rq, (sp + sq)%nat).
Let d' : gmap K (K * nat) := <[rq := v]> (<[rp := v]> d).

Lemma merge_dom : dom d' = dom d.
Proof.
  unfold d'. rewrite dom_insert_lookup_L.
  - apply dom_insert_lookup_L. eauto.
  - rewrite lookup_insert_ne by done. eauto.
Qed.

Lemma merge_lookup_rp : d' !! rp = Some v.
Proof. unfold d'. rewrite lookup_insert_ne by done. by rewrite lookup_insert_eq. Qed.

Lemma merge_lookup_rq : d' !! rq = Some v.
Proof. unfold d'. by rewrite lookup_insert_eq. Qed.

Lemma merge_lookup_ne k : k ≠ rp → k ≠ rq → d' !! k = d !! k.
Proof. intros. unfold d'. by rewrite !lookup_insert_ne. Qed.

Lemma merge_reaches k r n :
  reaches d k r n →
  if decide (r = rp) then reaches d' k rq (S n) else reaches d' k r n.
Proof.
  induction 1 as [k s Hk | k q s r n Hk Hkq _ IH].
  - destruct (decide (k = rp)) as [-> | Hkp].
    + apply reaches_step with rq (sp + sq)%nat; [apply merge_lookup_rp | done |].
      apply reaches_root with (sp + sq)%nat. apply merge_lookup_rq.
    + destruct (decide (k = rq)) as [-> | Hkq].
      * apply reaches_root with (sp + sq)%nat. apply merge_lookup_rq.
      * apply reaches_root with s. by rewrite merge_lookup_ne.
  - assert (d' !! k = Some (q, s)) as Hk'.
    { rewrite merge_lookup_ne; [done | congruence | congruence]. }
    destruct (decide (r = rp)); by eapply reaches_step.
Qed.

Lemma merge_root_of k r :
  rooted d →
  root_of d' k r ↔ (root_of d k r ∧ r ≠ rp) ∨ (root_of d k rp ∧ r = rq).
Proof.
  intros Hroot.
  assert (∀ r0, root_of d k r0 →
            root_of d' k (if decide (r0 = rp) then rq else r0)) as Hfwd.
  { intros r0 [n Hn]. apply merge_reaches in Hn.
    destruct (decide (r0 = rp)); eexists; eassumption. }
  split.
  - intros Hk. destruct (Hroot k) as [r0 Hr0].
    { rewrite <-merge_dom. by eapply root_of_dom. }
    pose proof (root_of_fun _ _ _ _ Hk (Hfwd _ Hr0)) as Hr.
    destruct (decide (r0 = rp)) as [-> | Hn0]; subst r; [by right | by left].
  - intros [[Hk Hr] | [Hk ->]]; apply Hfwd in Hk.
    + by rewrite decide_False in Hk.
    + by rewrite decide_True in Hk.
Qed.

Lemma merge_rooted : rooted d → rooted d'.
Proof.
  intros Hroot k Hk. rewrite merge_dom in Hk.
  destruct (Hroot k Hk) as [r Hr].
  destruct (decide (r = rp)) as [-> | Hn].
  - exists rq. apply merge_root_of; [done|]. by right.
  - exists r. apply merge_root_of; [done|]. by left.
Qed.

Lemma merge_wf : wf d → wf d'.
Proof.
  intros [Hroot Hsz]. split; [by apply merge_rooted|].
  intros r s Hr.
  destruct (decide (r = rq)) as [-> | Hrq].
  - rewrite merge_lookup_rq in Hr. injection Hr as <-.
    destruct (Hsz _ _ Hp) as (Cp & HCp & Hsp).
    destruct (Hsz _ _ Hq) as (Cq & HCq & Hsq).
    exists (Cp ∪ Cq). split.
    + intros k. rewrite elem_of_union, HCp, HCq, merge_root_of by done.
      intuition congruence.
    + rewrite size_union; [lia|].
      intros k Hkp%HCp Hkq%HCq. apply Hne. by eapply root_of_fun.
  - destruct (decide (r = rp)) as [-> | Hrp].
    { rewrite merge_lookup_rp in Hr. unfold v in Hr. congruence. }
    rewrite merge_lookup_ne in Hr by done.
    destruct (Hsz _ _ Hr) as (C & HC & Hs).
    exists C. split; [|done].
    intros k. rewrite HC, merge_root_of by done. intuition congruence.
Qed.

Lemma merge_same a b :
  rooted d →
  same d' a b ↔
  same d a b ∨ (root_of d a rp ∧ root_of d b rq) ∨ (root_of d a rq ∧ root_of d b rp).
Proof.
  intros Hroot. unfold same. setoid_rewrite merge_root_of; [|done..].
  split.
  - intros (r & [[Ha Hr] | [Ha ->]] & [[Hb Hr'] | [Hb Hr']]); subst.
    + left. by exists r.
    + right. right. done.
    + right. left. done.
    + left. by exists rp.
  - intros [(r & Ha & Hb) | [[Ha Hb] | [Ha Hb]]].
    + destruct (decide (r = rp)) as [-> | Hn]; [exists rq | exists r].
      * split; right; done.
      * split; left; done.
    + exists rq. split; [by right|]. left. split; [done | congruence].
    + exists rq. split; [|by right]. left. split; [done | congruence].
Qed.

End merge.

Lemma find_spec d p :
  rooted d →
  ∃ r s d', find pyNone d p = Ok ((r, s), d') ∧ agree d d' ∧
    ((d !! p = None ∧ r = pyNone ∧ s = 0%nat ∧ d' = d) ∨
     (root_of d p r ∧ d !! r = Some (r, s))).
Proof.
  intros Hroot. destruct (d !! p) as [e|] eqn:Hp.
  - destruct (find_tracked d p Hroot) as (r & s & d' & Hf & Hr & He & Hag).
    { apply elem_of_dom. eauto. }
    exists r, s, d'. split_and!; [done | done | by right].
  - exists pyNone, 0%nat, d. split_and!.
    + by apply find_untracked.
    + apply agree_refl.
    + by left.
Qed.

Lemma same_sym d a b : same d a b → same d b a.
Proof. intros (r & Ha & Hb). by exists r. Qed.

Lemma same_trans d a b c : same d a b → same d b c → same d a c.
Proof.
  intros (r & Ha & Hb) (r' & Hb' & Hc).
  rewrite (root_of_fun _ _ _ _ Hb Hb') in Ha. by exists r'.
Qed.

Lemma same_root_of d a b r : root_of d b r → same d a b ↔ root_of d a r.
Proof.
  intros Hb. split.
  - intros (r' & Ha & Hb'). by rewrite (root_of_fun _ _ _ _ Hb Hb').
  - intros Ha. by exists r.
Qed.

Lemma same_dom_l d a b : same d a b → a ∈ dom d.
Proof. intros (r & Ha & _). by eapply root_of_dom. Qed.

Lemma same_dom_r d a b : same d a b → b ∈ dom d.
Proof. intros (r & _ & Hb). by eapply root_of_dom. Qed.

Lemma same_refl d a : rooted d → a ∈ dom d → same d a a.
Proof. intros Hroot Ha. destruct (Hroot a Ha) as [r Hr]. by exists r. Qed.

Lemma union_spec d p q :
  wf d →
  ∃ d', union pyNone d p q = Ok d' ∧ wf d' ∧ dom d' = dom d ∧
    (pyNone ∉ dom d →
     ∀ a b, same d' a b ↔
            same d a b ∨ (same d a p ∧ same d q b) ∨ (same d a q ∧ same d p b)).
Proof.
  intros Hwf. pose proof Hwf as [Hroot _]. unfold union.
  destruct (find_spec d p Hroot) as (rp & sp & d1 & -> & Hag1 & Hp). simpl.
  pose proof (agree_wf _ _ Hag1 Hwf) as Hwf1. pose proof Hwf1 as [Hroot1 _].
  destruct (find_spec d1 q Hroot1) as (rq & sq & d2 & -> & Hag2 & Hq). simpl.
  pose proof (agree_trans _ _ _ Hag1 Hag2) as Hag.
  pose proof (agree_wf _ _ Hag Hwf) as Hwf2. pose proof Hwf2 as [Hroot2 _].
  pose proof Hag as (Hdom & Hr & He).
  assert (∀ k, d1 !! k = None ↔ d !! k = None) as Hnone.
  { intros k. destruct Hag1 as (Hd1 & _). rewrite <-!not_elem_of_dom. by rewrite Hd1. }
  destruct (decide (rp = pyNone ∨ rq = pyNone)) as [Hnone' | Hsome].
  { exists d2. split_and!; [done..|].
    intros HN a b. rewrite (agree_same _ _ _ _ Hag).
    assert (¬ same d p q ∧ (p ∉ dom d ∨ q ∉ dom d)) as [Hnpq Hout].
    { destruct Hnone' as [-> | ->].
      - destruct Hp as [(Hp & _) | [Hp%root_of_root%root_of_dom _]]; [|done].
        apply not_elem_of_dom in Hp.
        split; [by intros ?%same_dom_l | by left].
      - destruct Hq as [(Hq%Hnone & _) | [Hq _]].
        + apply not_elem_of_dom in Hq.
          split; [by intros ?%same_dom_r | by right].
        + apply root_of_root, root_of_dom in Hq.
          destruct Hag1 as (Hd1 & _). rewrite Hd1 in Hq. done. }
    split; [by left|]. intros [? | [[H1 H2] | [H1 H2]]]; [done | exfalso..].
    - destruct Hout as [Ho | Ho]; apply Ho.
      + by eapply same_dom_r. + by eapply same_dom_l.
    - destruct Hout as [Ho | Ho]; apply Ho.
      + by eapply same_dom_l. + by eapply same_dom_r. }
  assert (root_of d p rp ∧ d !! rp = Some (rp, sp)) as [Hprp Hrp].
  { destruct Hp as [(_ & -> & _) | ?]; [|done]. exfalso. apply Hsome. by left. }
  assert (root_of d q rq ∧ d !! rq = Some (rq, sq)) as [Hqrq Hrq].
  { destruct Hq as [(_ & -> & _) | [Hq1 Hq2]].
    - exfalso. apply Hsome. by right.
    - destruct Hag1 as (_ & Hr1 & He1). split; [by apply Hr1 | by apply He1]. }
  destruct (decide (rp ≠ rq)) as [Hne | Heq%dec_stable].
  - apply He in Hrp, Hrq.
    eexists. split; [done|]. split_and!.
    + by apply merge_wf.
    + rewrite merge_dom; eauto.
    + intros _ a b. rewrite merge_same by done. rewrite !Hr.
      rewrite (agree_same _ _ _ _ Hag).
      rewrite <-!(same_root_of d _ p rp), <-!(same_root_of d _ q rq) by done.
      split; (intros [? | [[? ?] | [? ?]]];
              [by left | right; left | right; right]);
        split; try done; by apply same_sym.
  - subst rq. exists d2. split_and!; [done..|].
    intros _ a b. rewrite (agree_same _ _ _ _ Hag).
    assert (same d p q) as Hpq by (by exists rp).
    split; [by left|]. intros [? | [[H1 H2] | [H1 H2]]]; [done | |].
    + apply (same_trans d a p b); [done|]. by apply (same_trans d p q b).
    + apply (same_trans d a q b); [done|].
      apply (same_trans d q p b); [by apply same_sym | done].
Qed.


(** *** [connected] *)

Lemma sized_pos d r s : sized d → d !! r = Some (r, s) → (0 < s)%nat.
Proof.
  intros Hsz Hr. destruct (Hsz r s Hr) as (C & HC & <-).
  assert (r ∈ C) as Hin by (apply HC; by eapply root_of_self).
  destruct (decide (size C = 0%nat)) as [Hz%size_empty_inv | ?]; [|lia].
  by apply Hz in Hin.
Qed.

Lemma connected_spec d a b :
  wf d →
  ∃ ans d', connected pyNone d a b = Ok (ans, d') ∧ agree d d' ∧
    (ans = true ↔ (same d a b ∨ ((a ∉ dom d) ∧ (b ∉ dom d)))).
Proof.
  intros Hwf. pose proof Hwf as [Hroot Hsz]. unfold connected.
  destruct (find_spec d a Hroot) as (ra & sa & d1 & -> & Hag1 & Ha). simpl.
  pose proof (agree_wf _ _ Hag1 Hwf) as [Hroot1 _].
  destruct (find_spec d1 b Hroot1) as (rb & sb & d2 & -> & Hag2 & Hb). simpl.
  destruct Hag1 as (Hd1 & Hr1 & He1).
  assert ((d !! b = None ∧ rb = pyNone ∧ sb = 0%nat) ∨
          (root_of d b rb ∧ d !! rb = Some (rb, sb))) as Hb'.
  { destruct Hb as [(Hb & -> & -> & _) | [Hb1 Hb2]].
    - left. split; [|done]. apply not_elem_of_dom. rewrite <-Hd1.
      by apply not_elem_of_dom.
    - right. split; [by apply Hr1 | by apply He1]. }
  clear Hb. eexists _, d2. split_and!; [done | | ].
  { eapply agree_trans; [|done]. done. }
  rewrite bool_decide_eq_true.
  destruct Ha as [(Ha & -> & -> & _) | [Ha1 Ha2]];
    destruct Hb' as [(Hb & -> & ->) | [Hb1 Hb2]].
  - split; [|done]. intros _. right. by rewrite !not_elem_of_dom.
  - split.
    + intros [= <- <-]. apply sized_pos in Hb2; [lia | done].
    + intros [?%same_dom_l | [_ Hnb]].
      * by apply not_elem_of_dom in Ha.
      * exfalso. apply Hnb. by eapply root_of_dom.
  - split.
    + intros [= -> ->]. apply sized_pos in Ha2; [lia | done].
    + intros [?%same_dom_r | [Hna _]].
      * by apply not_elem_of_dom in Hb.
      * exfalso. apply Hna. by eapply root_of_dom.
  - split.
    + intros [= -> ->]. left. by exists rb.
    + intros [Hs | [Hna _]].
      * apply (same_root_of d a b rb Hb1) in Hs.
        assert (ra = rb) as -> by (by eapply root_of_fun). congruence.
      * exfalso. apply Hna. by eapply root_of_dom.
Qed.

(** *** Construction *)

Lemma init_lookup (members : list K) (k : K) :
  init members !! k = if decide (k ∈ members) then Some (k, 1%nat) else None.
Proof.
  unfold init.
  assert (∀ d0 : gmap K (K * nat),
    foldl (λ d m, <[m := (m, 1%nat)]> d) d0 members !! k =
    if decide (k ∈ members) then Some (k, 1%nat) else d0 !! k) as Hgen.
  { induction members as [| m ms IH]; intros d0; cbn [foldl].
    - case_decide as Hin; [by apply elem_of_nil in Hin | done].
    - rewrite IH. destruct (decide (k ∈ ms)) as [Hin | Hnin].
      + case_decide as Hin'; [done|]. exfalso. apply Hin'. by right.
      + destruct (decide (k = m)) as [-> | Hne].
        * case_decide as Hin'; [|exfalso; apply Hin'; left].
          by rewrite lookup_insert_eq.
        * case_decide as Hin'; [by apply elem_of_cons in Hin' as [?|?]|].
          by rewrite lookup_insert_ne. }
  rewrite Hgen. by rewrite lookup_empty.
Qed.

Lemma init_dom (members : list K) (k : K) : k ∈ dom (init members) ↔ k ∈ members.
Proof.
  rewrite elem_of_dom, init_lookup.
  destruct (decide (k ∈ members)); split; try done.
Qed.

Lemma init_root_of (members : list K) (k r : K) : root_of (init members) k r ↔ k = r ∧ k ∈ members.
Proof.
  split.
  - intros [n Hn]. pose proof (reaches_dom _ _ _ _ Hn) as Hk%init_dom.
    split; [|done].
    inversion Hn as [| ? q ? ? ? Hq Hne]; subst; [done|].
    rewrite init_lookup in Hq. destruct (decide (k ∈ members)); congruence.
  - intros [<- Hk]. exists 0%nat. apply reaches_root with 1%nat.
    rewrite init_lookup. by rewrite decide_True.
Qed.

Lemma init_same (members : list K) (a b : K) : same (init members) a b ↔ a = b ∧ a ∈ members.
Proof.
  unfold same. setoid_rewrite init_root_of. split.
  - intros (r & [-> ?] & [-> ?]). done.
  - intros [<- ?]. by exists a.
Qed.

Lemma init_wf (members : list K) : wf (init members).
Proof.
  split.
  - intros k Hk%init_dom. exists k. by apply init_root_of.
  - intros r s Hr. rewrite init_lookup in Hr.
    destruct (decide (r ∈ members)) as [Hin|]; [|done]. injection Hr as <-.
    exists {[r]}. split; [|by rewrite size_singleton].
    intros k. rewrite elem_of_singleton, init_root_of. split.
    + by intros ->.
    + by intros [-> _].
Qed.

(** *** Sequences of calls *)

Lemma do_call_wf d c :
  wf d → ∃ d', do_call pyNone d c = Ok d' ∧ wf d' ∧ dom d' = dom d.
Proof.
  intros Hwf. destruct c as [p q | p | p q]; simpl.
  - destruct (union_spec d p q Hwf) as (d' & -> & Hwf' & Hdom & _). eauto.
  - destruct (find_spec d p (proj1 Hwf)) as (r & s & d' & -> & Hag & _). simpl.
    eexists. split_and!; [done | by eapply agree_wf | apply Hag].
  - destruct (connected_spec d p q Hwf) as (ans & d' & -> & Hag & _). simpl.
    eexists. split_and!; [done | by eapply agree_wf | apply Hag].
Qed.

Lemma calls_wf cs : ∀ d,
  wf d → ∃ d', calls pyNone d cs = Ok d' ∧ wf d' ∧ dom d' = dom d.
Proof.
  induction cs as [| c cs IH]; intros d Hwf; simpl.
  - by exists d.
  - destruct (do_call_wf d c Hwf) as (d1 & -> & Hwf1 & Hdom1). simpl.
    destruct (IH d1 Hwf1) as (d' & -> & Hwf' & Hdom'). exists d'.
    split_and!; [done | done | congruence].
Qed.


(** *** Sequences of [union] and the equivalence they generate *)

Lemma rtsc_sub (R R' : relation K) a b :
  (∀ x y, R x y → rtsc R' x y) → rtsc R a b → rtsc R' a b.
Proof.
  intros Hsub. induction 1 as [| x y z [Hxy | Hyx] _ IH]; [done | |].
  - etrans; [by apply Hsub | done].
  - etrans; [symmetry; by apply Hsub | done].
Qed.

Lemma rtsc_extended_nil d a b :
  rooted d → a ∈ dom d → rtsc (extended d []) a b → same d a b.
Proof.
  intros Hroot Ha Hab. induction Hab as [x | x y z Hxy _ IH].
  - by apply same_refl.
  - assert (same d x y) as Hs.
    { destruct Hxy as [[? | [Hin _]] | [? | [Hin _]]];
        [done | by apply elem_of_nil in Hin | by apply same_sym
        | by apply elem_of_nil in Hin]. }
    eapply same_trans; [done|]. apply IH. by eapply same_dom_r.
Qed.

Lemma unions_spec ops : ∀ d,
  wf d → pyNone ∉ dom d →
  ∃ d', unions pyNone d ops = Ok d' ∧ wf d' ∧ dom d' = dom d ∧
    ∀ a b, same d' a b ↔ a ∈ dom d ∧ b ∈ dom d ∧ rtsc (extended d ops) a b.
Proof.
  induction ops as [| [p q] ops IH]; intros d Hwf HN; simpl.
  - exists d. split_and!; [done..|]. intros a b. split.
    + intros Hs. split_and!; [by eapply same_dom_l | by eapply same_dom_r |].
      apply rtsc_lr. by left.
    + intros (Ha & _ & Hab). eapply rtsc_extended_nil; [apply Hwf | done..].
  - destruct (union_spec d p q Hwf) as (d1 & -> & Hwf1 & Hdom1 & Hs1). simpl.
    specialize (Hs1 HN).
    destruct (IH d1 Hwf1) as (d' & -> & Hwf' & Hdom' & Hs'); [by rewrite Hdom1|].
    exists d'. split_and!; [done | done | congruence |].
    intros a b. rewrite Hs', Hdom1.
    assert (rtsc (extended d1 ops) a b ↔ rtsc (extended d ((p, q) :: ops)) a b)
      as Heq; [|by rewrite Heq].
    split; apply rtsc_sub; intros x y [Hxy | (Hin & Hx & Hy)].
    + apply Hs1 in Hxy as [Hxy | [[Hxp Hqy] | [Hxq Hpy]]].
      * apply rtsc_lr. by left.
      * assert (extended d ((p, q) :: ops) p q) as Hpq.
        { right. split_and!; [left | by eapply same_dom_r | by eapply same_dom_l]. }
        etrans; [apply rtsc_lr; by left|].
        etrans; [by apply rtsc_lr|]. apply rtsc_lr. by left.
      * assert (extended d ((p, q) :: ops) p q) as Hpq.
        { right. split_and!; [left | by eapply same_dom_l | by eapply same_dom_r]. }
        etrans; [apply rtsc_lr; by left|].
        etrans; [symmetry; by apply rtsc_lr|]. apply rtsc_lr. by left.
    + apply rtsc_lr. right. rewrite Hdom1 in Hx, Hy.
      split_and!; [by right | done | done].
    + apply rtsc_lr. left. apply Hs1. by left.
    + apply elem_of_cons in Hin as [[= -> ->] | Hin].
      * apply rtsc_lr. left. apply Hs1. right. left.
        split; apply same_refl; done || apply Hwf.
      * apply rtsc_lr. right. by rewrite Hdom1.
Qed.

Lemma component_extended (members : list K) ops a b :
  rtsc (extended (init members) ops) a b ↔ component members ops a b.
Proof.
  unfold component.
  split; apply rtsc_sub; intros x y.
  - intros [[-> _]%init_same | (Hin & Hx%init_dom & Hy%init_dom)]; [done|].
    by apply rtsc_lr.
  - intros (Hin & Hx & Hy). apply rtsc_lr. right. by rewrite !init_dom.
Qed.

Lemma component_members (members : list K) ops a b :
  component members ops a b → a = b ∨ (a ∈ members ∧ b ∈ members).
Proof.
  induction 1 as [| x y z Hxy _ IH]; [by left|]. right.
  assert (x ∈ members ∧ y ∈ members) as [Hx Hy].
  { destruct Hxy as [(_ & ? & ?) | (_ & ? & ?)]; done. }
  split; [done|]. destruct IH as [<- | [_ ?]]; done.
Qed.


(** *** What [find] writes *)

Lemma visits_reaches d p x r n :
  visits d p x → reaches d p r n → ∃ m, (m ≤ n)%nat ∧ reaches d x r m.
Proof.
  intros Hv. revert n. induction Hv as [p | p q s x Hp Hpq _ IH]; intros n Hr.
  - exists n. done.
  - destruct (reaches_up _ _ _ _ _ _ Hr Hp Hpq) as (n' & -> & Hq).
    destruct (IH _ Hq) as (m & Hm & Hx). exists m. split; [lia | done].
Qed.

Lemma visits_insert d p e q x :
  (∀ y, visits d q y → y ≠ p) →
  visits (<[p := e]> d) q x ↔ visits d q x.
Proof.
  intros Hfresh. split.
  - intros Hv. induction Hv as [q | q q' s x Hq Hne Hv IH]; [constructor|].
    rewrite lookup_insert_ne in Hq.
    2:{ intros <-. by apply (Hfresh p); [constructor|]. }
    eapply visits_up; [done | done |]. apply IH.
    intros y Hy. apply Hfresh. by eapply visits_up.
  - intros Hv. induction Hv as [q | q q' s x Hq Hne Hv IH]; [constructor|].
    eapply visits_up; [| done |].
    + rewrite lookup_insert_ne; [done|].
      intros <-. by apply (Hfresh p); [constructor|].
    + apply IH. intros y Hy. apply Hfresh. by eapply visits_up.
Qed.

Lemma find_loop_writes fuel : ∀ d p q s r n res d',
  reaches d p r n → d !! p = Some (q, s) →
  find_loop fuel d p q s = Ok (res, d') →
  (∀ x qx sx, visits d p x → d !! x = Some (qx, sx) → d' !! x = d !! qx) ∧
  (∀ x, ¬ visits d p x → d' !! x = d !! x).
Proof.
  induction fuel as [| fuel IH]; intros d p q s r n res d' Hr Hp Hf; [done|].
  simpl in Hf. destruct (decide (p = q)) as [<- | Hpq].
  { injection Hf as <- <-. split; [|done].
    intros x qx sx Hv Hx. inversion Hv; subst; congruence. }
  destruct (reaches_up _ _ _ _ _ _ Hr Hp Hpq) as (n' & -> & Hq).
  destruct (d !! q) as [[q' s']|] eqn:Hqe; [|done].
  rewrite lookup_insert_ne, Hqe in Hf by done.
  assert (∀ y, visits d q y → y ≠ p) as Hfresh.
  { intros y Hy ->. destruct (visits_reaches _ _ _ _ _ Hy Hq) as (m & Hm & Hpm).
    destruct (reaches_fun _ _ _ _ _ _ Hr Hpm) as [_ ?]. lia. }
  assert (∃ m, reaches (<[p := (q', s')]> d) q r m) as [m Hq1].
  { destruct (split_reaches d p q s (q', s') Hp Hpq Hqe _ _ _ Hq) as (m & _ & ?).
    by exists m. }
  destruct (IH _ _ _ _ _ _ _ _ Hq1 ltac:(by rewrite lookup_insert_ne) Hf)
    as [Hvis Hnot].
  assert (∀ x, visits d p x ↔ x = p ∨ visits d q x) as Hvp.
  { intros x. split.
    - intros Hv. inversion Hv as [| ? q1 ? ? Hp1 ? Hv1]; subst; [by left|].
      right. congruence.
    - intros [-> | Hv]; [constructor | by eapply visits_up]. }
  split.
  - intros x qx sx [-> | Hv]%Hvp Hx.
    + rewrite Hnot.
      * rewrite lookup_insert_eq. congruence.
      * rewrite visits_insert by done. intros Hv. by apply (Hfresh p).
    + pose proof (Hfresh _ Hv) as Hxp.
      rewrite (Hvis x qx sx); [| by apply visits_insert
                               | by rewrite lookup_insert_ne].
      rewrite lookup_insert_ne; [done|]. intros <-.
      destruct (visits_reaches _ _ _ _ _ Hv Hq) as (m' & Hm' & Hxm).
      destruct (reaches_up _ _ _ _ _ _ Hxm Hx Hxp) as (n1 & -> & Hp1).
      destruct (reaches_fun _ _ _ _ _ _ Hr Hp1) as [_ ?]. lia.
  - intros x Hnv. rewrite Hnot.
    + rewrite lookup_insert_ne; [done|]. intros <-. apply Hnv. constructor.
    + rewrite visits_insert by done. intros Hv. apply Hnv, Hvp. by right.
Qed.

End UnionFind_facts.

(** * The board *)

Section Py_facts.
Context {A : Type}.
Implicit Types l : list A.

Lemma index_nonneg l i :
  0 ≤ i →
  Py.index l i = match l !! Z.to_nat i with
                 | Some a => Ok a
                 | None => Raise IndexError
                 end.
Proof.
  intros Hi. unfold Py.index. cbv zeta.
  rewrite !(proj2 (Z.leb_le 0 i) Hi). simpl.
  destruct (i <? Z.of_nat (length l)) eqn:Hlt.
  - done.
  - apply Z.ltb_ge in Hlt. rewrite lookup_ge_None_2; [done | lia].
Qed.

Lemma index_Ok l i a :
  0 ≤ i → l !! Z.to_nat i = Some a → Py.index l i = Ok a.
Proof. intros Hi Hl. by rewrite index_nonneg, Hl. Qed.

Lemma index_last l a : Py.index (l ++ [a]) (-1) = Ok a.
Proof.
  unfold Py.index. cbv zeta. rewrite length_app. simpl.
  replace (Z.of_nat (length l + 1) + -1) with (Z.of_nat (length l)) by lia.
  rewrite (proj2 (Z.leb_le _ _)), (proj2 (Z.ltb_lt _ _)) by lia. simpl.
  rewrite Nat2Z.id. by rewrite list_lookup_middle.
Qed.

Lemma setitem_nonneg l i a :
  0 ≤ i < Z.of_nat (length l) → Py.setitem l i a = Ok (<[Z.to_nat i := a]> l).
Proof.
  intros Hi. unfold Py.setitem. cbv zeta.
  rewrite !(proj2 (Z.leb_le 0 i)) by lia. simpl.
  by rewrite (proj2 (Z.ltb_lt _ _)) by lia.
Qed.

Lemma slice_to_nonneg l i : 0 ≤ i → Py.slice_to l i = take (Z.to_nat i) l.
Proof. intros Hi. unfold Py.slice_to. by rewrite (proj2 (Z.leb_le 0 i)). Qed.

Lemma slice_from_nonneg l i : 0 ≤ i → Py.slice_from l i = drop (Z.to_nat i) l.
Proof. intros Hi. unfold Py.slice_from. by rewrite (proj2 (Z.leb_le 0 i)). Qed.

End Py_facts.

Lemma elem_of_range n x : x ∈ Py.range n ↔ 0 ≤ x < n.
Proof.
  unfold Py.range. rewrite list_elem_of_fmap. split.
  - intros (k & -> & Hk%elem_of_seq). lia.
  - intros Hx. exists (Z.to_nat x). split; [lia|]. apply elem_of_seq. lia.
Qed.

Lemma NoDup_range n : NoDup (Py.range n).
Proof.
  unfold Py.range. apply NoDup_fmap_2; [apply _ | apply NoDup_seq].
Qed.

Lemma length_range n : length (Py.range n) = Z.to_nat n.
Proof. unfold Py.range. by rewrite length_fmap, length_seq. Qed.

Section Board_facts.
Import Board.
Implicit Types b : Hitori.
Implicit Types c : coord.
#[local] Arguments getitem : simpl never.
#[local] Arguments is_blank : simpl never.
#[local] Arguments blank : simpl never.

Lemma rectangular_constructed b : rectangular b → constructed b.
Proof.
  intros [Hne Hall]. unfold constructed, init, width in *.
  destruct b as [ls]; simpl in *. destruct ls as [| l0 ls]; [done|].
  simpl in Hall. rewrite (proj2 (forallb_forall _ _)); [done|].
  intros l Hl%list_elem_of_In. rewrite Forall_forall in Hall.
  apply Nat.eqb_eq. specialize (Hall l Hl). lia.
Qed.

Lemma constructed_rectangular b : constructed b → lines b ≠ [] → rectangular b.
Proof.
  unfold constructed, init, rectangular, width. destruct b as [ls]; simpl.
  destruct ls as [| l0 ls]; [done|]. intros Hc _. split; [done|].
  destruct (forallb _ _) eqn:Hall; [|done].
  rewrite forallb_forall in Hall. apply Forall_forall. simpl.
  intros l Hl%list_elem_of_In%Hall%Nat.eqb_eq. lia.
Qed.

Lemma len_line0_ok b : lines b ≠ [] → len_line0 b = Ok (width b).
Proof.
  unfold len_line0, width. destruct (lines b) as [| l0 ls]; [done|]. done.
Qed.

Lemma size_ok b : lines b ≠ [] → size b = Ok (width b, height b).
Proof. intros Hne. unfold size. by rewrite len_line0_ok. Qed.

Lemma in_range_nonempty b c : in_range b c → lines b ≠ [].
Proof.
  intros [_ Hy] Hnil. unfold height in Hy. rewrite Hnil in Hy. simpl in Hy. lia.
Qed.

Lemma cell_in_range b c : rectangular b → is_Some (cell b c) ↔ in_range b c.
Proof.
  intros [_ Hall]. unfold cell, in_range, height. destruct c as [x y]; simpl.
  rewrite Forall_lookup in Hall. case_bool_decide as Hxy.
  - destruct (lines b !! Z.to_nat y) as [l|] eqn:Hl; simpl.
    + pose proof (Hall _ _ Hl) as Hlen. pose proof (lookup_lt_Some _ _ _ Hl).
      rewrite lookup_lt_is_Some. lia.
    + apply lookup_ge_None in Hl. split; [by intros [? ?] | lia].
  - split; [by intros [? ?] | lia].
Qed.

Lemma cell_Some_in_range b c v : rectangular b → cell b c = Some v → in_range b c.
Proof. intros Hr Hc. apply cell_in_range; eauto. Qed.

Lemma getitem_cell b c :
  rectangular b → in_range b c → ∃ v, getitem b c = Ok v ∧ cell b c = Some v.
Proof.
  intros Hr Hin. pose proof Hin as [v Hv]%cell_in_range; [|done].
  exists v. split; [|done]. destruct Hin as [Hx Hy].
  unfold cell in Hv. destruct c as [x y]; simpl in *. unfold getitem.
  rewrite bool_decide_eq_true_2 in Hv by lia.
  destruct (lines b !! Z.to_nat y) as [l|] eqn:Hl; [|done]; simpl in Hv.
  rewrite (index_Ok _ _ l) by (done || lia). simpl.
  apply index_Ok; [lia | done].
Qed.

Lemma is_blank_ok b x y :
  rectangular b → is_blank b x y = Ok (bool_decide (blank_at b (x, y))).
Proof.
  intros Hr. unfold is_blank, blank_at.
  destruct (0 <=? x) eqn:Hx0; simpl.
  2:{ apply Z.leb_gt in Hx0. rewrite bool_decide_eq_false_2; [done|].
      intros [? _]%cell_Some_in_range; [simpl in *; lia | done]. }
  apply Z.leb_le in Hx0.
  rewrite len_line0_ok by apply Hr. simpl.
  destruct (x <? width b) eqn:Hxw; simpl.
  2:{ apply Z.ltb_ge in Hxw. rewrite bool_decide_eq_false_2; [done|].
      intros [? _]%cell_Some_in_range; [simpl in *; lia | done]. }
  apply Z.ltb_lt in Hxw.
  destruct ((0 <=? y) && (y <? len_lines b)) eqn:Hy; cbn [negb].
  2:{ rewrite bool_decide_eq_false_2; [done|].
      intros [_ ?]%cell_Some_in_range; [|done]. simpl in *.
      apply andb_false_iff in Hy as [?%Z.leb_gt | ?%Z.ltb_ge]; [lia|].
      unfold len_lines, height in *. lia. }
  apply andb_true_iff in Hy as [Hy0%Z.leb_le Hyh%Z.ltb_lt].
  destruct (getitem_cell b (x, y) Hr) as (v & Hg & Hv).
  { split; simpl; [lia|]. unfold height, len_lines in *. lia. }
  rewrite Hg. simpl. f_equal. apply bool_decide_ext. rewrite Hv.
  split; congruence.
Qed.


(** *** [blank] *)

Lemma blank_check b x y :
  rectangular b →
  Py.or_else (is_blank b (x - 1) y)
    (Py.or_else (is_blank b (x + 1) y)
       (Py.or_else (is_blank b x (y - 1)) (is_blank b x (y + 1)))) =
  Ok (bool_decide (Exists (blank_at b) (neighbours (x, y)))).
Proof.
  intros Hr. rewrite !is_blank_ok by done. unfold Py.or_else, neighbours. simpl.
  destruct (bool_decide (blank_at b (x - 1, y))) eqn:H1;
    [| destruct (bool_decide (blank_at b (x + 1, y))) eqn:H2;
       [| destruct (bool_decide (blank_at b (x, y - 1))) eqn:H3;
          [| destruct (bool_decide (blank_at b (x, y + 1))) eqn:H4]]];
    f_equal; symmetry;
    repeat match goal with
           | H : bool_decide _ = true |- _ => apply bool_decide_eq_true in H
           | H : bool_decide _ = false |- _ => apply bool_decide_eq_false in H
           end;
    (apply bool_decide_eq_true || apply bool_decide_eq_false);
    rewrite !Exists_cons, Exists_nil; tauto.
Qed.

Lemma blank_raises b x y c :
  rectangular b → c ∈ neighbours (x, y) → blank_at b c →
  blank b x y = Raise ValueError.
Proof.
  intros Hr Hc Hb. unfold blank. rewrite blank_check by done. simpl.
  rewrite bool_decide_eq_true_2; [done|]. apply Exists_exists. by exists c.
Qed.

Lemma blank_succeeds b x y :
  rectangular b → in_range b (x, y) →
  (∀ c, c ∈ neighbours (x, y) → ¬ blank_at b c) →
  blank b x y = Ok (mkHitori (blank_lines b x y)).
Proof.
  intros Hr [Hx Hy] Hn. simpl in Hx, Hy. unfold blank.
  rewrite blank_check by done. simpl.
  rewrite bool_decide_eq_false_2
    by (intros (c & ? & ?)%Exists_exists; by eapply Hn).
  unfold blank_lines, height in *.
  destruct (lookup_lt_is_Some_2 (lines b) (Z.to_nat y)) as [l Hl]; [lia|].
  rewrite Hl. rewrite (index_Ok _ _ l) by (done || lia). simpl.
  destruct Hr as [Hne Hall].
  pose proof (proj1 (Forall_lookup _ _) Hall _ _ Hl) as Hlen. simpl in Hlen.
  rewrite slice_to_nonneg, slice_from_nonneg by lia.
  replace (Z.to_nat (x + 1)) with (S (Z.to_nat x)) by lia.
  rewrite <-insert_take_drop by lia.
  rewrite setitem_nonneg by lia. simpl.
  set (ls := <[Z.to_nat y := _]> (lines b)).
  assert (Forall (λ l', Z.of_nat (length l') = width b) ls) as Hall'.
  { apply Forall_insert; [done|]. by rewrite length_insert. }
  assert (length (hd [] ls) = length (hd [] (lines b))) as Hhd.
  { unfold ls. destruct (lines b) as [| l0 ls0]; [done|].
    destruct (Z.to_nat y) as [| k]; simpl; [|done].
    simpl in Hl. injection Hl as ->. by rewrite length_insert. }
  unfold init. destruct ls as [| l0 ls0] eqn:Hls.
  { apply (f_equal length) in Hls. unfold ls in Hls.
    rewrite length_insert in Hls. simpl in Hls.
    destruct (lines b); simpl in *; [done | lia]. }
  rewrite (proj2 (forallb_forall _ _)); [done|].
  intros l' Hl'%list_elem_of_In. apply Nat.eqb_eq.
  rewrite Forall_forall in Hall'. specialize (Hall' l' Hl').
  simpl in Hhd. unfold width in Hall'. lia.
Qed.

Lemma blank_lines_spec b x y :
  rectangular b → in_range b (x, y) →
  let b' := mkHitori (blank_lines b x y) in
  rectangular b' ∧ width b' = width b ∧ height b' = height b ∧
  ∀ c, cell b' c = if decide (c = (x, y)) then Some BLANK else cell b c.
Proof.
  intros [Hne Hall] [Hx Hy]. simpl in Hx, Hy. unfold blank_lines, height in *.
  destruct (lookup_lt_is_Some_2 (lines b) (Z.to_nat y)) as [l Hl]; [lia|].
  rewrite Hl. simpl.
  pose proof (proj1 (Forall_lookup _ _) Hall _ _ Hl) as Hlen. simpl in Hlen.
  set (ls := <[Z.to_nat y := _]> (lines b)).
  assert (width (mkHitori ls) = width b) as Hw.
  { unfold width, ls. simpl. destruct (lines b) as [| l0 ls0]; [done|].
    destruct (Z.to_nat y) as [| k]; simpl; [|done].
    simpl in Hl. injection Hl as ->. by rewrite length_insert. }
  split_and!.
  - split; simpl.
    + intros Hnil. apply (f_equal length) in Hnil. unfold ls in Hnil.
      rewrite length_insert in Hnil. destruct (lines b); simpl in *; [done | lia].
    + rewrite Hw. apply Forall_insert; [done|]. by rewrite length_insert.
  - done.
  - unfold height, ls. simpl. by rewrite length_insert.
  - intros [x' y']. unfold cell, ls. simpl.
    case_bool_decide as Hnn; [|by rewrite decide_False by (intros [= -> ->]; lia)].
    destruct (decide (y' = y)) as [-> | Hy'].
    + rewrite list_lookup_insert_eq by lia. rewrite Hl. simpl.
      destruct (decide (x' = x)) as [-> | Hx'].
      * rewrite decide_True by done. apply list_lookup_insert_eq. lia.
      * rewrite decide_False by congruence. apply list_lookup_insert_ne. lia.
    + rewrite decide_False by congruence.
      rewrite list_lookup_insert_ne by lia. done.
Qed.


(** *** Blanking keeps a board a board *)

Lemma neighbours_sym c c' : c' ∈ neighbours c → c ∈ neighbours c'.
Proof.
  destruct c as [x y], c' as [x' y']. unfold neighbours. simpl.
  rewrite !elem_of_cons, !elem_of_nil.
  intros [[= -> ->] | [[= -> ->] | [[= -> ->] | [[= -> ->] | []]]]].
  - right. left. f_equal. lia.
  - left. f_equal. lia.
  - do 3 right. left. f_equal. lia.
  - do 2 right. left. f_equal. lia.
Qed.

Lemma neighbours_irrefl c : c ∉ neighbours c.
Proof.
  destruct c as [x y]. unfold neighbours. simpl.
  rewrite !elem_of_cons, !elem_of_nil.
  intros [[=] | [[=] | [[=] | [[=] | []]]]]; lia.
Qed.

Lemma blanked_refl b : blanked b b.
Proof. split_and!; [done | done |]. intros c. by left. Qed.

Lemma blanked_trans b1 b2 b3 : blanked b1 b2 → blanked b2 b3 → blanked b1 b3.
Proof.
  intros (Hw & Hh & Hc) (Hw' & Hh' & Hc'). split_and!; [congruence..|].
  intros c. unfold blank_at in *.
  destruct (Hc' c) as [Heq' | [Hb Hs]]; destruct (Hc c) as [Heq | [Hb1 Hs1]].
  - left. congruence.
  - right. split; [congruence | done].
  - right. split; [done | congruence].
  - right. done.
Qed.

Lemma blanked_blank_at b b' c : blanked b b' → blank_at b c → blank_at b' c.
Proof. intros (_ & _ & Hc) Hb. destruct (Hc c) as [Heq | [? _]]; [|done]. unfold blank_at. congruence. Qed.

Lemma blanked_filled b b' c : blanked b b' → filled b' c → filled b c.
Proof.
  intros (_ & _ & Hc) (v & Hv & Hne). destruct (Hc c) as [Heq | [Hb _]].
  - exists v. split; [congruence | done].
  - unfold blank_at in Hb. congruence.
Qed.

Lemma blanked_clean b b' cs : blanked b b' → clean b cs → clean b' cs.
Proof.
  intros (_ & _ & Hc) Hcl c c' v Hin Hin' Hne Hv Hv'.
  destruct (Hc c) as [Heq | [Hb _]]; [| unfold blank_at in Hb; congruence].
  destruct (Hc c') as [Heq' | [Hb' _]]; [| unfold blank_at in Hb'; congruence].
  apply (Hcl c c' v); congruence.
Qed.

Lemma blanked_line b b' s : blanked b b' → line b' s = line b s.
Proof. intros (Hw & Hh & _). unfold line. by rewrite Hw, Hh. Qed.

Lemma try_blank_spec b c :
  sound b → in_range b c →
  try_blank b c = Ok None ∨
  ∃ b', try_blank b c = Ok (Some b') ∧ sound b' ∧ blanked b b' ∧
        blank_at b' c ∧ ∀ c', c' ≠ c → cell b' c' = cell b c'.
Proof.
  intros [Hr Hadj] Hin. destruct c as [x y]. unfold try_blank. simpl.
  destruct (decide (Exists (blank_at b) (neighbours (x, y))))
    as [(c' & Hc' & Hb)%Exists_exists | Hnone].
  { left. by rewrite (blank_raises b x y c'). }
  right. rewrite blank_succeeds; [|done|done|].
  2:{ intros c' Hc' Hb. apply Hnone, Exists_exists. by exists c'. }
  destruct (blank_lines_spec b x y Hr Hin) as (Hr' & Hw & Hh & Hcell).
  eexists. split; [done|]. split_and!.
  - split; [done|]. intros c1 c2 Hb1 Hn Hb2. unfold blank_at in *.
    rewrite Hcell in Hb1, Hb2.
    destruct (decide (c1 = (x, y))) as [-> | Hne1];
      destruct (decide (c2 = (x, y))) as [-> | Hne2].
    + by apply neighbours_irrefl in Hn.
    + apply Hnone, Exists_exists. by exists c2.
    + apply Hnone, Exists_exists. exists c1. split; [|done].
      by apply neighbours_sym.
    + by apply (Hadj c1 c2).
  - split_and!; [done | done |]. intros c'. rewrite Hcell.
    destruct (decide (c' = (x, y))) as [-> | Hne]; [|by left].
    right. split; [|by apply cell_in_range].
    unfold blank_at. rewrite Hcell. by rewrite decide_True.
  - unfold blank_at. rewrite Hcell. by rewrite decide_True.
  - intros c' Hne. rewrite Hcell. by rewrite decide_False.
Qed.

Lemma blanked_in_range b b' c : blanked b b' → in_range b' c ↔ in_range b c.
Proof. intros (Hw & Hh & _). unfold in_range. by rewrite Hw, Hh. Qed.

(** *** The blanking loops *)

Lemma blank_all_spec where_ : ∀ b,
  sound b → Forall (in_range b) where_ →
  blank_all b where_ = Ok None ∨
  ∃ b', blank_all b where_ = Ok (Some b') ∧ sound b' ∧ blanked b b' ∧
        ∀ c, c ∈ where_ → blank_at b' c.
Proof.
  induction where_ as [| c cs IH]; intros b Hs Hin; simpl.
  { right. exists b. split_and!; [done | done | apply blanked_refl |].
    by intros c ?%elem_of_nil. }
  apply Forall_cons in Hin as [Hc Hcs].
  destruct (try_blank_spec b c Hs Hc) as [-> | (b1 & -> & Hs1 & Hbl1 & Hb1 & _)];
    simpl; [by left|].
  destruct (IH b1 Hs1) as [-> | (b' & -> & Hs' & Hbl' & Hb')]; [| by left |].
  { eapply Forall_impl; [done|]. intros c' ?. by apply (blanked_in_range b b1). }
  right. exists b'. split_and!; [done | done | by eapply blanked_trans |].
  intros c' [-> | Hin]%elem_of_cons; [|by apply Hb'].
  by eapply blanked_blank_at.
Qed.

Lemma blank_others_spec where_ keep : ∀ b,
  sound b → Forall (in_range b) where_ →
  blank_others b where_ keep = Ok None ∨
  ∃ b', blank_others b where_ keep = Ok (Some b') ∧ sound b' ∧ blanked b b' ∧
        ∀ c, c ∈ where_ → c ≠ keep → blank_at b' c.
Proof.
  induction where_ as [| c cs IH]; intros b Hs Hin; simpl.
  { right. exists b. split_and!; [done | done | apply blanked_refl |].
    by intros c ?%elem_of_nil. }
  apply Forall_cons in Hin as [Hc Hcs].
  destruct (decide (c ≠ keep)) as [Hne | Heq%dec_stable].
  - destruct (try_blank_spec b c Hs Hc) as [-> | (b1 & -> & Hs1 & Hbl1 & Hb1 & _)];
      simpl; [by left|].
    destruct (IH b1 Hs1) as [-> | (b' & -> & Hs' & Hbl' & Hb')]; [| by left |].
    { eapply Forall_impl; [done|]. intros c' ?. by apply (blanked_in_range b b1). }
    right. exists b'. split_and!; [done | done | by eapply blanked_trans |].
    intros c' [-> | Hin]%elem_of_cons ?; [|by apply Hb'].
    by eapply blanked_blank_at.
  - destruct (IH b Hs Hcs) as [-> | (b' & -> & Hs' & Hbl' & Hb')]; [by left|].
    right. exists b'. split_and!; [done..|].
    intros c' [-> | Hin]%elem_of_cons ?; [done | by apply Hb'].
Qed.


(** *** Grouping the cells of a line by value *)

Lemma append_count_keys_in counts v c :
  v ∈ counts.*1 → (append_count counts v c).*1 = counts.*1.
Proof.
  induction counts as [| [v' w] counts IH]; simpl.
  { by intros ?%elem_of_nil. }
  intros Hin. destruct (decide (v' = v)) as [-> | Hne]; simpl; [done|].
  f_equal. apply IH. by apply elem_of_cons in Hin as [?|?].
Qed.

Lemma append_count_keys_new counts v c :
  v ∉ counts.*1 → (append_count counts v c).*1 = counts.*1 ++ [v].
Proof.
  induction counts as [| [v' w] counts IH]; simpl; [done|].
  intros Hnin. destruct (decide (v' = v)) as [-> | Hne]; simpl.
  - exfalso. apply Hnin. left.
  - f_equal. apply IH. intros Hin. apply Hnin. by right.
Qed.

Lemma append_count_elem counts v c v' w' :
  NoDup counts.*1 →
  (v', w') ∈ append_count counts v c ↔
  (v' ≠ v ∧ (v', w') ∈ counts) ∨
  (v' = v ∧ ((∃ w, (v, w) ∈ counts ∧ w' = w ++ [c]) ∨
             ((v ∉ counts.*1) ∧ w' = [c]))).
Proof.
  induction counts as [| [v0 w0] counts IH]; simpl; intros Hnd.
  { rewrite list_elem_of_singleton. split.
    - intros [= -> ->]. right. split; [done|]. right.
      split; [apply not_elem_of_nil | done].
    - intros [[_ []%elem_of_nil] | [-> [(w & []%elem_of_nil & _) | [_ ->]]]]. done. }
  apply NoDup_cons in Hnd as [Hv0 Hnd].
  assert (∀ w, (v0, w) ∈ counts → False) as Hv0'.
  { intros w Hin. apply Hv0. apply list_elem_of_fmap. by exists (v0, w). }
  destruct (decide (v0 = v)) as [-> | Hne].
  - rewrite !elem_of_cons. split.
    + intros [[= -> ->] | Hin].
      * right. split; [done|]. left. exists w0. split; [by left | done].
      * left. split; [|by right]. intros ->. by eapply Hv0'.
    + intros [[Hne [[= -> ->] | Hin]] | [-> Hcase]]; [done | by right |].
      destruct Hcase as [(w & [[= ->] | Hin]%elem_of_cons & ->) | [Hnin _]];
        [by left | |].
      * exfalso. by eapply Hv0'.
      * exfalso. apply Hnin. by left.
  - rewrite !elem_of_cons, IH by done. split.
    + intros [[= -> ->] | [[Hne' Hin] | [-> Hcase]]].
      * left. split; [done | by left].
      * left. split; [done | by right].
      * right. split; [done|]. destruct Hcase as [(w & Hin & ->) | [Hnin ->]].
        -- left. exists w. split; [by right | done].
        -- right. split; [|done]. by intros [?|?].
    + intros [[Hne' [[= -> ->] | Hin]] | [-> Hcase]].
      * by left.
      * right. left. done.
      * right. right. split; [done|].
        destruct Hcase as [(w & [[= ? ?] | Hin]%elem_of_cons & ->) | [Hnin ->]].
        -- done.
        -- left. by exists w.
        -- right. split; [|done]. intros Hin. apply Hnin. by right.
Qed.

Lemma group_spec b cells : ∀ done counts,
  rectangular b → Forall (in_range b) cells → grouped b done counts →
  ∃ counts', group b cells counts = Ok counts' ∧ grouped b (done ++ cells) counts'.
Proof.
  induction cells as [| [x y] cells IH]; intros done counts Hr Hin Hg; simpl.
  { exists counts. by rewrite app_nil_r. }
  apply Forall_cons in Hin as [Hc Hcs].
  rewrite is_blank_ok by done. simpl.
  replace (done ++ (x, y) :: cells) with ((done ++ [(x, y)]) ++ cells)
    by (by rewrite <-app_assoc).
  destruct Hg as (Hnd & Hent & Hkey).
  case_bool_decide as Hb; unfold blank_at in Hb.
  - apply IH; [done | done |]. split_and!; [done | |].
    + intros v w Hvw. destruct (Hent v w Hvw) as (Hv & Hw & ->).
      split_and!; [done | done |].
      rewrite filter_app, filter_cons_False, filter_nil, app_nil_r; [done|].
      congruence.
    + intros c v [Hd | ->%list_elem_of_singleton]%elem_of_app Hv Hne.
      * by eapply Hkey.
      * congruence.
  - destruct (getitem_cell b (x, y) Hr Hc) as (v & -> & Hv). simpl.
    assert (v ≠ BLANK) as Hvne by congruence.
    apply IH; [done | done |]. split_and!.
    + destruct (decide (v ∈ counts.*1));
        [by rewrite append_count_keys_in | rewrite append_count_keys_new by done].
      apply NoDup_app. split_and!; [done | | apply NoDup_singleton].
      by intros v' ? ->%list_elem_of_singleton.
    + intros v' w' [[Hne Hvw] | [-> Hcase]]%append_count_elem; [| |done].
      * destruct (Hent v' w' Hvw) as (Hv' & Hw & ->).
        split_and!; [done | done |].
        rewrite filter_app, filter_cons_False, filter_nil, app_nil_r; [done|].
        congruence.
      * split; [done|]. rewrite filter_app, filter_cons_True, filter_nil by done.
        destruct Hcase as [(w & Hvw & ->) | [Hnin ->]].
        -- destruct (Hent v w Hvw) as (_ & _ & ->).
           split; [|done]. by destruct (filter _ done).
        -- split; [done|]. f_equal.
           destruct (filter _ done) as [| c0 l0] eqn:Hf; [done|].
           exfalso. apply Hnin. assert (c0 ∈ filter (λ c, cell b c = Some v) done)
             as [? ?]%list_elem_of_filter by (rewrite Hf; left).
           by eapply Hkey.
    + intros c v' [Hd | ->%list_elem_of_singleton]%elem_of_app Hv' Hne.
      * specialize (Hkey c v' Hd Hv' Hne).
        destruct (decide (v ∈ counts.*1));
          [by rewrite append_count_keys_in | rewrite append_count_keys_new by done].
        apply elem_of_app. by left.
      * assert (v' = v) as -> by congruence.
        destruct (decide (v ∈ counts.*1));
          [by rewrite append_count_keys_in | rewrite append_count_keys_new by done].
        apply elem_of_app. right. left.
Qed.


(** *** The cells that are not blanked *)

Lemma elem_of_all_coords mx my c :
  c ∈ all_coords mx my ↔ (0 ≤ c.1 < mx) ∧ (0 ≤ c.2 < my).
Proof.
  unfold all_coords. rewrite list_elem_of_bind. split.
  - intros (y & (x & -> & Hx%elem_of_range)%list_elem_of_fmap & Hy%elem_of_range).
    done.
  - intros [Hx Hy]. exists c.2. split; [|by apply elem_of_range].
    apply list_elem_of_fmap. exists c.1. split; [by destruct c | by apply elem_of_range].
Qed.

Lemma is_filled_true b c : is_filled b c = true ↔ filled b c.
Proof.
  unfold is_filled, filled. destruct (cell b c) as [v|]; split.
  - intros Hv%bool_decide_eq_true. by exists v.
  - intros (v' & [= <-] & Hne). by apply bool_decide_eq_true.
  - done.
  - by intros (v' & [=] & _).
Qed.

Lemma filled_in_range b c : rectangular b → filled b c → in_range b c.
Proof. intros Hr (v & Hv & _). by eapply cell_Some_in_range. Qed.

Lemma filled_not_blank b c : filled b c → ¬ blank_at b c.
Proof. intros (v & Hv & Hne) Hb. unfold blank_at in Hb. congruence. Qed.

Lemma in_range_filled b c : rectangular b → in_range b c → ¬ blank_at b c → filled b c.
Proof.
  intros Hr [v Hv]%cell_in_range Hnb; [|done]. exists v. split; [done|].
  intros ->. by apply Hnb.
Qed.

Lemma elem_of_filled_cells b c : rectangular b → c ∈ filled_cells b ↔ filled b c.
Proof.
  intros Hr. unfold filled_cells.
  rewrite elem_of_list_to_set, list_elem_of_filter, is_filled_true, elem_of_all_coords.
  split; [by intros [? _]|]. intros Hf. split; [done|]. by apply filled_in_range.
Qed.

Lemma filled_cells_decrease b b' c :
  rectangular b → rectangular b' → blanked b b' → filled b c → blank_at b' c →
  (base.size (filled_cells b') < base.size (filled_cells b))%nat.
Proof.
  intros Hr Hr' Hbl Hf Hb. apply subset_size. split.
  - intros c' Hc'%elem_of_filled_cells; [|done].
    apply elem_of_filled_cells; [done|]. by eapply blanked_filled.
  - intros Hsub. assert (c ∈ filled_cells b') as Hc%elem_of_filled_cells.
    + apply Hsub. by apply elem_of_filled_cells.
    + by apply filled_not_blank in Hc.
    + done.
Qed.

Lemma keep_nonblank_spec b cs :
  rectangular b → Forall (in_range b) cs →
  keep_nonblank b cs = Ok (filter (λ c, is_filled b c = true) cs).
Proof.
  intros Hr. induction cs as [| [x y] cs IH]; intros Hin; simpl; [done|].
  apply Forall_cons in Hin as [Hc Hcs]. rewrite is_blank_ok, IH by done. simpl.
  f_equal. case_bool_decide as Hb.
  - rewrite filter_cons_False; [done|]. rewrite is_filled_true.
    intros ?%filled_not_blank. done.
  - rewrite filter_cons_True; [done|]. rewrite is_filled_true.
    by apply in_range_filled.
Qed.


(** *** [blank_some] *)

Lemma select_ok b s : rectangular b → select s b = Ok (line b s).
Proof.
  intros [Hne _]. destruct s as [n | n]; simpl.
  - unfold row. by rewrite len_line0_ok.
  - done.
Qed.

Lemma line_in_range b s : valid_selector b s → Forall (in_range b) (line b s).
Proof.
  intros Hv. apply Forall_forall. intros c.
  destruct s as [n | n]; simpl in *;
    intros (k & -> & Hk%elem_of_range)%list_elem_of_fmap; done.
Qed.

Lemma line_NoDup b s : NoDup (line b s).
Proof.
  destruct s as [n | n]; simpl; (apply NoDup_fmap_2; [|apply NoDup_range]).
  - by intros ?? [=].
  - by intros ?? [=].
Qed.

Lemma two_elements {A} (l : list A) x y :
  x ∈ l → y ∈ l → x ≠ y → (1 < length l)%nat.
Proof.
  destruct l as [| a [| a' l]]; simpl; [by intros ?%elem_of_nil | | lia].
  intros ->%list_elem_of_singleton ->%list_elem_of_singleton. done.
Qed.

Lemma other_element `{EqDecision A} (l : list A) x :
  NoDup l → (1 < length l)%nat → ∃ y, y ∈ l ∧ y ≠ x.
Proof.
  destruct l as [| a [| a' l]]; simpl; [lia | lia |].
  intros [Ha _]%NoDup_cons _. destruct (decide (a = x)) as [-> | Hne].
  - exists a'. split; [right; left|]. intros ->. apply Ha. left.
  - exists a. split; [left | done].
Qed.

Section blank_some.
(** [N]: what the boards the search collects are to satisfy. *)
Variable N : Hitori → Prop.
Variables gen0 gen1 : cont.
Variables (b : Hitori) (sel : selector).
Hypothesis Hsound : sound b.
Hypothesis Hsel : valid_selector b sel.
Hypothesis Hgen0 : ∀ b2 a0,
  sound b2 → blanked b b2 →
  (base.size (filled_cells b2) < base.size (filled_cells b))%nat →
  ∃ a', gen0 b2 a0 = Ok a' ∧ ∀ x, x ∈ a' → x ∈ a0 ∨ N x.
Hypothesis Hgen1 : ∀ a0,
  clean b (line b sel) →
  ∃ a', gen1 b a0 = Ok a' ∧ ∀ x, x ∈ a' → x ∈ a0 ∨ N x.

Lemma or_dropped_spec r a0 c :
  (r = None ∨ ∃ b2, r = Some b2 ∧ sound b2 ∧ blanked b b2 ∧ blank_at b2 c) →
  filled b c →
  ∃ a', or_dropped gen0 r a0 = Ok a' ∧ ∀ x, x ∈ a' → x ∈ a0 ∨ N x.
Proof.
  intros [-> | (b2 & -> & Hs2 & Hbl & Hb)] Hf; simpl.
  - exists a0. split; [done|]. by left.
  - apply Hgen0; [done | done |].
    eapply filled_cells_decrease; [apply Hsound | apply Hs2 | done..].
Qed.

Lemma keep_each_spec where_ todo : ∀ a0,
  Forall (in_range b) where_ → Forall (filled b) where_ →
  NoDup where_ → (1 < length where_)%nat →
  ∃ a', keep_each gen0 b where_ todo a0 = Ok a' ∧ ∀ x, x ∈ a' → x ∈ a0 ∨ N x.
Proof.
  intros a0 Hin Hf Hnd Hlen. revert a0.
  induction todo as [| c todo IH]; intros a0; simpl.
  { exists a0. split; [done|]. by left. }
  destruct (other_element where_ c Hnd Hlen) as (c' & Hc' & Hne).
  assert (filled b c') as Hfc' by (by eapply Forall_forall in Hf).
  destruct (blank_others_spec where_ c b Hsound Hin)
    as [Hr | (b2 & Hr & Hs2 & Hbl & Hb)]; rewrite Hr; simpl.
  - destruct (IH a0) as (a' & -> & Ha'). by exists a'.
  - destruct (Hgen0 b2 a0) as (a1 & -> & Ha1); [done | done | |]; simpl.
    { eapply filled_cells_decrease; [apply Hsound | apply Hs2 | done | done |].
      by apply Hb. }
    destruct (IH a1) as (a' & -> & Ha'). exists a'. split; [done|].
    intros x [Hx | ?]%Ha'; [by apply Ha1 | by right].
Qed.

Lemma blank_some_spec a :
  ∃ a', blank_some gen0 gen1 sel b a = Ok a' ∧ ∀ x, x ∈ a' → x ∈ a ∨ N x.
Proof.
  pose proof Hsound as [Hr _]. unfold blank_some.
  rewrite select_ok by done. simpl.
  pose proof (line_in_range b sel Hsel) as Hin.
  destruct (group_spec b (line b sel) [] [] Hr Hin) as (counts & -> & Hg).
  { split_and!; [apply NoDup_nil_2 | by intros ?? ?%elem_of_nil
                 | by intros ?? ?%elem_of_nil]. }
  simpl in *. destruct Hg as (Hnd & Hent & Hkey).
  destruct (List.find _ counts) as [[v where_]|] eqn:Hfind.
  - apply find_some in Hfind as [Hvw%list_elem_of_In Hlen%Nat.ltb_lt].
    simpl in Hlen. destruct (Hent v where_ Hvw) as (Hv & Hne & Hw).
    assert (Forall (in_range b) where_) as Hwin.
    { rewrite Hw. apply Forall_forall. intros c [_ Hc]%list_elem_of_filter.
      by eapply Forall_forall in Hin. }
    assert (Forall (filled b) where_) as Hwf.
    { rewrite Hw. apply Forall_forall. intros c [Hc _]%list_elem_of_filter.
      by exists v. }
    assert (NoDup where_) as Hwnd.
    { rewrite Hw. apply NoDup_filter, line_NoDup. }
    destruct (keep_each_spec where_ where_ a Hwin Hwf Hwnd Hlen) as (a1 & -> & Ha1).
    simpl.
    destruct where_ as [| c0 where_]; [done|].
    destruct (blank_all_spec (c0 :: where_) b Hsound Hwin)
      as [Hr' | (b2 & Hr' & Hs2 & Hbl & Hb)]; rewrite Hr'; simpl.
    + exists a1. done.
    + destruct (Hgen0 b2 a1) as (a' & -> & Ha'); [done | done | |].
      { eapply (filled_cells_decrease b b2 c0); [done | apply Hs2 | done | |].
        - by apply Forall_cons in Hwf as [? _].
        - apply Hb. left. }
      exists a'. split; [done|]. intros x [Hx | ?]%Ha'; [by apply Ha1 | by right].
  - apply Hgen1. intros c c' v Hc Hc' Hne Hcv Hcv'.
    destruct (decide (v = BLANK)) as [| Hvne]; [done|]. exfalso.
    pose proof (Hkey c v Hc Hcv Hvne) as ([v0 w] & Hv0 & Hvw)%list_elem_of_fmap.
    simpl in Hv0. subst v0.
    pose proof (find_none _ _ Hfind (v, w)) as Hlen.
    rewrite <-list_elem_of_In in Hlen. specialize (Hlen Hvw). simpl in Hlen.
    apply Nat.ltb_ge in Hlen.
    destruct (Hent v w Hvw) as (_ & _ & Hw).
    assert (1 < length w)%nat; [|lia].
    apply (two_elements w c c'); [| |done]; rewrite Hw;
      by apply list_elem_of_filter.
Qed.

End blank_some.

End Board_facts.

(** * The connectivity check *)

Section connectivity.
Import Board.
Implicit Types b : Hitori.
Implicit Types c : coord.
Implicit Types cells : gset coord.

Lemma rtsc_Some {A} (R : relation (option A)) (Q : relation A) :
  (∀ x y, R x y → ∃ u v, x = Some u ∧ y = Some v ∧ Q u v) →
  ∀ u v, rtsc R (Some u) (Some v) → rtsc Q u v.
Proof.
  intros HR u v Hrt.
  remember (Some u) as x eqn:Hx. remember (Some v) as y eqn:Hy.
  revert u Hx. induction Hrt as [x | x z y Hxz _ IH]; intros u Hx; subst.
  - injection Hx as ->. done.
  - destruct Hxz as [(u1 & u2 & [= <-] & -> & HQ)%HR | (u1 & u2 & -> & [= <-] & HQ)%HR].
    + etrans; [by apply rtsc_lr|]. by apply IH.
    + etrans; [by apply rtsc_rl|]. by apply IH.
Qed.

Lemma rtsc_symmetric_rtc {A} (R : relation A) x y :
  (∀ x y, R x y → R y x) → rtsc R x y → rtc R x y.
Proof.
  intros Hsym. induction 1 as [| x z y [Hxz | Hzx] _ IH]; [done | |].
  - by eapply rtc_l.
  - eapply rtc_l; [by apply Hsym | done].
Qed.

Lemma elem_of_unions cells (l : list coord) x y :
  (x, y) ∈ l ≫= unions_of ↔
  ∃ c c', x = Some c ∧ y = Some c' ∧ c ∈ l ∧ c' ∈ neighbours c.
Proof.
  rewrite list_elem_of_bind. unfold unions_of, neighbours. split.
  - intros ([cx cy] & Hin & Hc). exists (cx, cy). simpl in *.
    rewrite !elem_of_cons, elem_of_nil in Hin.
    destruct Hin as [[= -> ->] | [[= -> ->] | [[= -> ->] | [[= -> ->] | []]]]];
      eexists; (split_and!; [done | done | done |]);
      rewrite !elem_of_cons; tauto.
  - intros ([cx cy] & c' & -> & -> & Hc & Hn). exists (cx, cy). split; [|done].
    simpl in *. rewrite !elem_of_cons, elem_of_nil in Hn.
    destruct Hn as [-> | [-> | [-> | [-> | []]]]]; rewrite !elem_of_cons; tauto.
Qed.

Section check.
Variable order : gset coord → list coord.
Hypothesis Horder : iterates order.
Variable cells : gset coord.
Hypothesis Hcells : cells ≠ ∅.

Let members : list (option coord) := Some <$> order cells.
Let ops : list (option coord * option coord) := order cells ≫= unions_of.

Lemma order_elem c : c ∈ order cells ↔ c ∈ cells.
Proof. by rewrite (Horder cells), elem_of_elements. Qed.

Lemma order_NoDup : NoDup (order cells).
Proof. rewrite (Horder cells). apply NoDup_elements. Qed.

Lemma order_length : length (order cells) = base.size cells.
Proof. by rewrite (Horder cells). Qed.

Lemma members_elem k : k ∈ members ↔ ∃ c, k = Some c ∧ c ∈ cells.
Proof.
  unfold members. rewrite list_elem_of_fmap. by setoid_rewrite order_elem.
Qed.

Lemma linked_adjacent x y :
  UnionFind.linked members ops x y ↔
  ∃ c c', x = Some c ∧ y = Some c' ∧ adjacent_in cells c c'.
Proof.
  unfold UnionFind.linked, ops, adjacent_in.
  rewrite (elem_of_unions cells), !members_elem. split.
  - intros ((c & c' & -> & -> & Hc%order_elem & Hn) & _ & (c2 & [= <-] & Hc')).
    by exists c, c'.
  - intros (c & c' & -> & -> & Hc & Hc' & Hn). split_and!.
    + exists c, c'. by rewrite order_elem.
    + by exists c.
    + by exists c'.
Qed.

Lemma component_adjacent c c' :
  UnionFind.component members ops (Some c) (Some c') ↔
  rtsc (adjacent_in cells) c c'.
Proof.
  unfold UnionFind.component. split.
  - apply rtsc_Some. by intros x y ?%linked_adjacent.
  - apply rtsc_congruence. intros x y Hxy. apply linked_adjacent. by exists x, y.
Qed.

Lemma uf_check :
  ∃ uf some r n uf',
    UnionFind.unions None (UnionFind.init members) ops = Ok uf ∧
    Py.index (order cells) (-1) = Ok some ∧
    UnionFind.find None uf (Some some) = Ok ((r, n), uf') ∧
    (n = base.size cells ↔
     ∀ c c', c ∈ cells → c' ∈ cells → rtsc (adjacent_in cells) c c').
Proof.
  pose proof (init_wf members) as Hwf0.
  assert (None ∉ dom (UnionFind.init members)) as HN.
  { rewrite init_dom, members_elem. by intros (c & [=] & _). }
  destruct (unions_spec None ops _ Hwf0 HN) as (uf & Hun & Hwf & Hdom & Hsame).
  assert (∃ l some, order cells = l ++ [some]) as (l & some & Hlast).
  { destruct (order cells) as [| c0 l0] eqn:Ho using rev_ind; [|by eauto].
    exfalso. apply Hcells. apply set_eq. intros c.
    rewrite <-order_elem, Ho. by rewrite elem_of_nil, elem_of_empty. }
  assert (some ∈ cells) as Hsome.
  { apply order_elem. rewrite Hlast. apply elem_of_app. right. left. }
  assert (∀ k, k ∈ dom uf ↔ ∃ c, k = Some c ∧ c ∈ cells) as Hdomuf.
  { intros k. by rewrite Hdom, init_dom, members_elem. }
  destruct (find_tracked None uf (Some some) (proj1 Hwf))
    as (r & n & uf' & Hfind & Hroot & Hentry & _).
  { apply Hdomuf. by exists some. }
  exists uf, some, r, n, uf'. split_and!; [done | | done |].
  { rewrite Hlast. apply index_last. }
  destruct (proj2 Hwf r n Hentry) as (C & HC & Hsize).
  assert (C ⊆ dom uf) as Hsub.
  { intros k Hk%HC. by eapply root_of_dom. }
  assert (base.size (dom uf) = base.size cells) as Hsz.
  { rewrite Hdom. rewrite <-order_length.
    assert (dom (UnionFind.init members) = list_to_set members) as ->.
    { apply set_eq. intros k. by rewrite init_dom, elem_of_list_to_set. }
    rewrite size_list_to_set.
    - unfold members. by rewrite length_fmap.
    - unfold members. apply NoDup_fmap_2; [apply _ | apply order_NoDup]. }
  assert (∀ c c', c ∈ cells → c' ∈ cells →
            UnionFind.same uf (Some c) (Some c') ↔ rtsc (adjacent_in cells) c c')
    as Hconn.
  { intros c c' Hc Hc'. rewrite Hsame, component_extended, component_adjacent.
    rewrite !init_dom, !members_elem. split; [by intros (_ & _ & ?)|].
    intros Hrt. split_and!; [by exists c | by exists c' | done]. }
  split.
  - intros Hn c c' Hc Hc'. apply Hconn; [done..|].
    assert (C = dom uf) as HCdom.
    { apply set_subseteq_size_eq; [done|]. lia. }
    exists r. split; apply HC; rewrite HCdom; apply Hdomuf; eauto.
  - intros Hall. rewrite <-Hsz, <-Hsize. f_equal.
    apply set_eq. intros k. split; [apply Hsub|].
    intros (c & -> & Hc)%Hdomuf. apply HC.
    apply (same_root_of uf _ (Some some)); [done|].
    apply Hconn; [done | done |]. by apply Hall.
Qed.

End check.

End connectivity.

(** * The search *)

Section search_facts.
Import Board.
Implicit Types b : Hitori.
Implicit Types c : coord.

Lemma step_adjacent b c c' :
  rectangular b → step b c c' ↔ adjacent_in (filled_cells b) c c'.
Proof. intros Hr. unfold step, adjacent_in. by rewrite !elem_of_filled_cells. Qed.

Lemma connected_region_cells b :
  rectangular b →
  connected_region b ↔
  ∀ c c', c ∈ filled_cells b → c' ∈ filled_cells b →
          rtsc (adjacent_in (filled_cells b)) c c'.
Proof.
  intros Hr. unfold connected_region. split.
  - intros Hconn c c' Hc%elem_of_filled_cells Hc'%elem_of_filled_cells; [|done..].
    apply rtc_rtsc_rl. eapply rtc_subrel; [|by apply Hconn].
    intros x y Hxy. by apply step_adjacent.
  - intros Hconn c c' Hc Hc'.
    apply rtsc_symmetric_rtc.
    { intros x y (Hx & Hy & Hn). split_and!; [done | done |].
      by apply neighbours_sym. }
    eapply rtsc_sub; [|apply Hconn; by apply elem_of_filled_cells].
    intros x y Hxy. apply rtsc_lr. by apply step_adjacent.
Qed.

Lemma all_coords_in_range b :
  Forall (in_range b) (all_coords (width b) (height b)).
Proof. apply Forall_forall. intros c Hc%elem_of_all_coords. done. Qed.

Lemma check_connectedness_spec order gen1 b a :
  iterates order → rectangular b →
  ∃ ok : bool,
    check_connectedness order gen1 b a = (if ok then gen1 b a else Ok a) ∧
    (ok = true ↔ connected_region b).
Proof.
  intros Horder Hr. unfold check_connectedness.
  rewrite size_ok by apply Hr. cbn [rbind].
  rewrite keep_nonblank_spec by (done || apply all_coords_in_range). cbn [rbind].
  fold (filled_cells b). pose proof (connected_region_cells b Hr) as Hcr.
  destruct (0 <? base.size (filled_cells b))%nat eqn:Hsz.
  - apply Nat.ltb_lt in Hsz.
    assert (filled_cells b ≠ ∅) as Hne.
    { intros Heq. rewrite Heq, size_empty in Hsz. lia. }
    destruct (uf_check order Horder (filled_cells b) Hne)
      as (uf & some & r & n & uf' & Hun & Hidx & Hfind & Hn).
    rewrite Hun. cbn [rbind]. rewrite Hidx. cbn [rbind]. rewrite Hfind.
    cbn [rbind]. exists (bool_decide (n = base.size (filled_cells b))). split.
    + destruct (decide (n ≠ _)) as [Hd | Hd%dec_stable].
      * by rewrite bool_decide_eq_false_2.
      * by rewrite bool_decide_eq_true_2.
    + by rewrite bool_decide_eq_true, Hcr.
  - apply Nat.ltb_ge in Hsz. exists true. split; [done|]. split; [|done].
    rewrite Hcr. intros _ c c' Hc. exfalso.
    assert (base.size (filled_cells b) = 0%nat) as Hz%size_empty_inv by lia.
    by apply Hz in Hc.
Qed.

(** The answer of the check does not depend on the iteration order. *)
Lemma check_connectedness_order order1 order2 gen1 b a :
  iterates order1 → iterates order2 →
  check_connectedness order1 gen1 b a = check_connectedness order2 gen1 b a.
Proof.
  intros H1 H2. unfold check_connectedness.
  destruct (size b) as [[mx my] | |]; simpl; [|done..].
  destruct (keep_nonblank b _) as [l | |]; simpl; [|done..].
  set (cells := list_to_set l : gset coord).
  destruct (0 <? base.size cells)%nat eqn:Hsz; [|done].
  apply Nat.ltb_lt in Hsz.
  assert (cells ≠ ∅) as Hne.
  { intros Heq. rewrite Heq, size_empty in Hsz. lia. }
  destruct (uf_check order1 H1 cells Hne)
    as (uf1 & some1 & r1 & n1 & uf1' & Hun1 & Hidx1 & Hfind1 & Hn1).
  destruct (uf_check order2 H2 cells Hne)
    as (uf2 & some2 & r2 & n2 & uf2' & Hun2 & Hidx2 & Hfind2 & Hn2).
  rewrite Hun1, Hun2. cbn [rbind]. rewrite Hidx1, Hidx2. cbn [rbind].
  rewrite Hfind1, Hfind2. cbn [rbind]. rewrite <-Hn2 in Hn1.
  destruct (decide (n1 ≠ _)) as [Hd1 | Hd1%dec_stable];
    destruct (decide (n2 ≠ _)) as [Hd2 | Hd2%dec_stable]; try done.
  - by apply Hn1 in Hd2.
  - by apply Hn1 in Hd1.
Qed.

(** *** Every collected board is a solution *)

Section call.
Variable order : gset coord → list coord.
Hypothesis Horder : iterates order.
Variable N : Hitori → Prop.

Lemma call_spec fuel : ∀ sels b a,
  sound b → Forall (valid_selector b) sels →
  (∀ s, sound s → blanked b s → connected_region s →
        Forall (λ sel, clean s (line s sel)) sels → N s) →
  (base.size (filled_cells b) + length sels + 2 ≤ fuel)%nat →
  ∃ a', call order fuel (pipeline sels) b a = Ok a' ∧
        ∀ x, x ∈ a' → x ∈ a ∨ N x.
Proof.
  induction fuel as [| fuel IH]; intros sels b a Hs Hv HN Hfuel; [lia|].
  destruct sels as [| sel sels].
  - simpl.
    destruct (check_connectedness_spec order (call order fuel [CollectCandidate])
                b a Horder (proj1 Hs)) as (ok & -> & Hok).
    destruct ok; [|exists a; split; [done | by left]].
    destruct fuel as [| fuel]; [simpl in Hfuel; lia|]. simpl.
    unfold collect_candidate. eexists. split; [done|].
    intros x [->%elem_of_singleton | Hx]%elem_of_union; [right | by left].
    apply HN; [done | apply blanked_refl | by apply Hok | done].
  - apply Forall_cons in Hv as [Hsel Hv].
    assert (∃ g rest, pipeline sels = g :: rest) as (g & rest & Hrest).
    { unfold pipeline. destruct sels; simpl; eauto. }
    change (pipeline (sel :: sels)) with (BlankSome sel :: pipeline sels).
    rewrite Hrest. cbn [call].
    apply (blank_some_spec N); [done | done | |].
    + intros b2 a0 Hs2 Hbl Hlt. rewrite <-Hrest.
      apply (IH (sel :: sels)); [done | | |].
      * apply Forall_cons. destruct Hbl as (Hw & Hh & _).
        split; [|eapply Forall_impl; [done|]];
          [|intros s']; unfold valid_selector;
          [destruct sel | destruct s']; by rewrite ?Hw, ?Hh.
      * intros s Hss Hbl' Hconn Hcl. apply HN; [done | | done | done].
        by eapply blanked_trans.
      * simpl in *. lia.
    + intros a0 Hcl. rewrite <-Hrest. apply IH; [done | done | |].
      * intros s Hss Hbl Hconn Hcls. apply HN; [done | done | done |].
        apply Forall_cons. split; [|done].
        rewrite (blanked_line b s) by done. by eapply blanked_clean.
      * simpl in *. lia.
Qed.

End call.


(** *** [solve] *)

Lemma gens_pipeline mx my : gens mx my = pipeline (selectors mx my).
Proof.
  unfold gens, selectors, pipeline. by rewrite fmap_app, <-!list_fmap_compose, app_assoc.
Qed.

Lemma selectors_valid b : Forall (valid_selector b) (selectors (width b) (height b)).
Proof.
  apply Forall_app. split; apply Forall_forall;
    intros s (n & -> & Hn%elem_of_range)%list_elem_of_fmap; done.
Qed.

Lemma length_bind_const {A B} (f : A → list B) (l : list A) n :
  (∀ x, length (f x) = n) → length (l ≫= f) = (length l * n)%nat.
Proof.
  intros Hf. induction l as [| x l IH]; [done|].
  rewrite bind_cons, length_app, Hf, IH. simpl. lia.
Qed.

Lemma all_coords_length mx my :
  length (all_coords mx my) = (Z.to_nat my * Z.to_nat mx)%nat.
Proof.
  unfold all_coords. rewrite (length_bind_const _ _ (Z.to_nat mx)).
  - by rewrite length_range.
  - intros y. by rewrite length_fmap, length_range.
Qed.

Lemma filled_cells_size b :
  (base.size (filled_cells b) ≤ Z.to_nat (width b * height b))%nat.
Proof.
  unfold filled_cells.
  etrans; [apply (subseteq_size _ (list_to_set (elements
    (list_to_set (all_coords (width b) (height b)) : gset coord))))|].
  { intros c. rewrite !elem_of_list_to_set, elem_of_elements, elem_of_list_to_set.
    by intros [_ ?]%list_elem_of_filter. }
  rewrite size_list_to_set by apply NoDup_elements.
  etrans; [apply (submseteq_length _ (all_coords (width b) (height b)))|].
  { apply NoDup_submseteq; [apply NoDup_elements|].
    intros c. by rewrite elem_of_elements, elem_of_list_to_set. }
  rewrite all_coords_length. unfold width, height. lia.
Qed.

Lemma clean_lines_no_duplicates b :
  rectangular b →
  Forall (λ sel, clean b (line b sel)) (selectors (width b) (height b)) →
  no_duplicates b.
Proof.
  intros Hr Hall c c' v Hne Hline Hc Hc'.
  pose proof (cell_Some_in_range _ _ _ Hr Hc) as [Hx Hy].
  pose proof (cell_Some_in_range _ _ _ Hr Hc') as [Hx' Hy'].
  rewrite Forall_forall in Hall. unfold selectors in Hall.
  destruct Hline as [Hrow | Hcol].
  - apply (Hall (row_n c.2)) with c c'; [| | |done..].
    + apply elem_of_app. left. apply list_elem_of_fmap. exists c.2.
      split; [done | by apply elem_of_range].
    + simpl. apply list_elem_of_fmap. exists c.1.
      split; [by destruct c | by apply elem_of_range].
    + simpl. apply list_elem_of_fmap. exists c'.1.
      split; [|by apply elem_of_range]. unfold same_row in Hrow.
      rewrite Hrow. by destruct c'.
  - apply (Hall (col_n c.1)) with c c'; [| | |done..].
    + apply elem_of_app. right. apply list_elem_of_fmap. exists c.1.
      split; [done | by apply elem_of_range].
    + simpl. apply list_elem_of_fmap. exists c.2.
      split; [by destruct c | by apply elem_of_range].
    + simpl. apply list_elem_of_fmap. exists c'.2.
      split; [|by apply elem_of_range]. unfold same_col in Hcol.
      rewrite Hcol. by destruct c'.
Qed.

Lemma no_blank_sound b : rectangular b → no_blank b → sound b.
Proof.
  intros Hr Hnb. split; [done|]. intros c c' Hb _ _.
  unfold blank_at, cell in Hb. case_bool_decide; [|done].
  destruct (lines b !! Z.to_nat c.2) as [l|] eqn:Hl; [|done]. simpl in Hb.
  unfold no_blank in Hnb. rewrite Forall_lookup in Hnb.
  apply (Hnb _ _ Hl). by eapply list_elem_of_lookup_2.
Qed.

Lemma solve_spec order b :
  iterates order → sound b →
  ∃ S, solve order b = Ok S ∧
       ∀ s, s ∈ S → rectangular s ∧ blanked b s ∧ solved s.
Proof.
  intros Horder Hs. pose proof Hs as [Hr _]. unfold solve.
  rewrite size_ok by apply Hr. cbn [rbind]. rewrite gens_pipeline.
  destruct (call_spec order Horder
              (λ s, rectangular s ∧ blanked b s ∧ solved s)
              (S (Z.to_nat (width b * height b) +
                  length (pipeline (selectors (width b) (height b)))))
              (selectors (width b) (height b)) b ∅ Hs (selectors_valid b))
    as (S' & HS & Hall).
  - intros s [Hrs Hadj] Hbl Hconn Hcl. split_and!; [done | done |].
    split_and!; [|done..]. apply clean_lines_no_duplicates; [done|].
    destruct Hbl as (-> & -> & _). done.
  - pose proof (filled_cells_size b). unfold pipeline.
    rewrite length_app, length_fmap. simpl. lia.
  - exists S'. split; [done|]. intros s [[]%elem_of_empty | ?]%Hall. done.
Qed.

(** *** The iteration order of the cell set does not matter *)

Lemma keep_each_ext gen0 gen0' b where_ todo :
  (∀ b a, gen0 b a = gen0' b a) →
  ∀ a, keep_each gen0 b where_ todo a = keep_each gen0' b where_ todo a.
Proof.
  intros Hg. induction todo as [| c todo IH]; intros a; simpl; [done|].
  destruct (blank_others b where_ c) as [[b2|] | |]; simpl; [| |done..].
  - rewrite Hg. destruct (gen0' b2 a); simpl; [apply IH | done..].
  - apply IH.
Qed.

Lemma blank_some_ext gen0 gen0' gen1 gen1' s b a :
  (∀ b a, gen0 b a = gen0' b a) → (∀ b a, gen1 b a = gen1' b a) →
  blank_some gen0 gen1 s b a = blank_some gen0' gen1' s b a.
Proof.
  intros Hg0 Hg1. unfold blank_some.
  destruct (select s b) as [cells | |]; simpl; [|done..].
  destruct (group b cells []) as [counts | |]; simpl; [|done..].
  destruct (List.find _ counts) as [[v where_]|]; [|apply Hg1].
  rewrite (keep_each_ext gen0 gen0') by done.
  destruct (keep_each gen0' b where_ where_ a) as [a1 | |]; simpl; [|done..].
  destruct (blank_all b where_) as [[b2|] | |]; simpl; [apply Hg0 | done..].
Qed.

Lemma call_order order1 order2 fuel :
  iterates order1 → iterates order2 →
  ∀ generators b a,
    call order1 fuel generators b a = call order2 fuel generators b a.
Proof.
  intros H1 H2. induction fuel as [| fuel IH]; intros generators b a; [done|].
  simpl. destruct generators as [| g rest]; [done|].
  assert (∀ b a,
    match rest with [] => λ _ a, Ok a | _ :: _ => call order1 fuel rest end b a =
    match rest with [] => λ _ a, Ok a | _ :: _ => call order2 fuel rest end b a)
    as Hrest.
  { intros b' a'. destruct rest; [done | apply IH]. }
  destruct g.
  - by apply blank_some_ext.
  - rewrite (check_connectedness_order order1 order2) by done.
    unfold check_connectedness.
    destruct (size b) as [[mx my] | |]; simpl; [|done..].
    destruct (keep_nonblank b _) as [l | |]; simpl; [|done..].
    destruct (0 <? _)%nat; [|apply Hrest].
    destruct (UnionFind.unions _ _ _) as [uf | |]; simpl; [|done..].
    destruct (Py.index _ _) as [some | |]; simpl; [|done..].
    destruct (UnionFind.find _ _ _) as [[[r n] uf'] | |]; simpl; [|done..].
    destruct (decide _); [done | apply Hrest].
  - unfold collect_candidate. apply Hrest.
Qed.

Lemma solve_order order1 order2 b :
  iterates order1 → iterates order2 → solve order1 b = solve order2 b.
Proof.
  intros H1 H2. unfold solve.
  destruct (size b) as [[mx my] | |]; cbn [rbind]; [|done..].
  by apply call_order.
Qed.

End search_facts.

(** * The properties of the specification *)

(** ** Union-find *)

Section UnionFind_properties.
Context {K : Type} `{Countable K}.
Variable pyNone : K.
Implicit Types d : gmap K (K * nat).
Import UnionFind.

(** C5. A structure built by [UnionFind(members)] and then used through
    any sequence of [union], [find] and [connected] calls is a forest
    with exact sizes: every call returns, every tracked key reaches by
    its leader links a key [r] that is its own leader, and the size
    stored at [r] is the number of keys whose links reach [r]. *)
Theorem calls_keep_invariants (members : list K) (cs : list call) :
  ∃ d, calls pyNone (init members) cs = Ok d ∧
    ∀ k, k ∈ members →
      ∃ r n s, reaches d k r n ∧ d !! r = Some (r, s) ∧
        ∃ C : gset K, (∀ x, x ∈ C ↔ ∃ m, reaches d x r m) ∧ size C = s.
Proof.
  destruct (calls_wf pyNone cs (init members) (init_wf members))
    as (d & Hd & [Hroot Hsz] & Hdom).
  exists d. split; [done|]. intros k Hk.
  destruct (Hroot k) as [r [n Hn]].
  { rewrite Hdom. by apply init_dom. }
  destruct (reaches_root_entry _ _ _ _ Hn) as [s Hs].
  exists r, n, s. split_and!; [done | done |]. by apply Hsz.
Qed.

(** C10. [connected(a, b)] is true for any two keys that are not
    tracked: both [find] calls return [(None, 0)] and leave the
    dictionary as it is. *)
Theorem connected_untracked d (a b : K) :
  d !! a = None → d !! b = None → connected pyNone d a b = Ok (true, d).
Proof.
  intros Ha Hb. unfold connected. rewrite (find_untracked pyNone d a Ha). simpl.
  rewrite (find_untracked pyNone d b Hb). simpl. by rewrite bool_decide_eq_true_2.
Qed.

(** C2, as the code has it. For a key set without [None], after any
    sequence of [union] calls [connected(a, b)] is true exactly when
    [a] and [b] are in one component of the pairs given to [union]
    between tracked keys, or when neither [a] nor [b] is tracked; and
    [find] of a key that was never inserted returns [(None, 0)]. *)
Theorem connected_iff_component (members : list K) (ops : list (K * K)) :
  pyNone ∉ members →
  ∃ d, unions pyNone (init members) ops = Ok d ∧
    (∀ a b, ∃ ans d',
       connected pyNone d a b = Ok (ans, d') ∧
       (ans = true ↔
        component members ops a b ∨ ((a ∉ members) ∧ (b ∉ members)))) ∧
    (∀ k, k ∉ members → find pyNone d k = Ok ((pyNone, 0%nat), d)).
Proof.
  intros HN.
  destruct (unions_spec pyNone ops (init members) (init_wf members))
    as (d & Hd & Hwf & Hdom & Hsame); [by rewrite init_dom|].
  exists d. split; [done|]. split.
  - intros a b.
    destruct (connected_spec pyNone d a b Hwf) as (ans & d' & Hc & _ & Hans).
    exists ans, d'. split; [done|]. rewrite Hans, Hsame, !Hdom, !init_dom.
    rewrite component_extended. split.
    + intros [(_ & _ & ?) | ?]; [by left | by right].
    + intros [Hcomp | ?]; [|by right].
      destruct (component_members _ _ _ _ Hcomp) as [<- | [Ha Hb]].
      * destruct (decide (a ∈ members)); [left | right]; done.
      * by left.
  - intros k Hk. apply find_untracked. apply not_elem_of_dom.
    by rewrite Hdom, init_dom.
Qed.

(** C6, as the code has it. In a structure reached by calls from
    construction, [find(k)] of a tracked key returns its representative
    [r] with the size [n] stored there, and does one step of path
    splitting: every key visited on the walk is given the pair that was
    stored at the key it pointed to, so it now points at what was its
    leader's leader. That pair is [(r, n)] for [r] and for the keys
    that pointed at [r]. Keys off the walk keep their entries. *)
Theorem find_splits_path (members : list K) (cs : list call) d (k : K) :
  calls pyNone (init members) cs = Ok d → k ∈ members →
  ∃ r n d', find pyNone d k = Ok ((r, n), d') ∧
    (∃ m, reaches d k r m) ∧ d !! r = Some (r, n) ∧
    (∀ x q s, visits d k x → d !! x = Some (q, s) → d' !! x = d !! q) ∧
    (∀ x s, visits d k x → d !! x = Some (r, s) → d' !! x = Some (r, n)) ∧
    (∀ x, ¬ visits d k x → d' !! x = d !! x).
Proof.
  intros Hd Hk.
  destruct (calls_wf pyNone cs (init members) (init_wf members))
    as (d0 & Hd0 & [Hroot Hsz] & Hdom).
  assert (d0 = d) as -> by congruence.
  assert (k ∈ dom d) as Hkd by (rewrite Hdom; by apply init_dom).
  destruct (Hroot k Hkd) as [r [m Hm]].
  apply elem_of_dom in Hkd as [[q s] Hq].
  destruct (find_loop_ok (S (size d)) d k q s r m Hroot Hm Hq)
    as (n & d' & Hf & Hr & _).
  { apply reaches_bound in Hm. lia. }
  destruct (find_loop_writes _ _ _ _ _ _ _ _ _ Hm Hq Hf) as [Hvis Hoff].
  exists r, n, d'. unfold find. rewrite Hq.
  split_and!; [done | by exists m | done | done | | done].
  intros x s' Hx Hxs. rewrite (Hvis x r s' Hx Hxs). done.
Qed.

End UnionFind_properties.

Lemma chain_reached :
  UnionFind.calls None (UnionFind.init [key1; key2; key3; key4]) chain_calls
  = Ok chain.
Proof. by vm_compute. Qed.

Lemma connected_untracked_witness :
  UnionFind.connected None (UnionFind.init [key1]) key2 key3
  = Ok (true, UnionFind.init [key1]).
Proof. apply (connected_untracked None); reflexivity. Defined.

Lemma connected_iff_component_witness :
  ∃ d, UnionFind.unions None (UnionFind.init [key1; key2; key3]) [(key1, key2)]
       = Ok d ∧
    (∀ a b, ∃ ans d',
       UnionFind.connected None d a b = Ok (ans, d') ∧
       (ans = true ↔
        UnionFind.component [key1; key2; key3] [(key1, key2)] a b ∨
        ((a ∉ [key1; key2; key3]) ∧ (b ∉ [key1; key2; key3])))) ∧
    (∀ k, k ∉ [key1; key2; key3] →
          UnionFind.find None d k = Ok ((None, 0%nat), d)).
Proof.
  apply (connected_iff_component None [key1; key2; key3] [(key1, key2)]).
  rewrite !elem_of_cons, elem_of_nil. unfold key1, key2, key3.
  intros [? | [? | [? | []]]]; discriminate.
Defined.

(** C2 as stated fails: over the key set {1}, with no [union] call,
    [connected(2, 3)] is true although 2 and 3 are different keys that
    no pair links. *)
Lemma connected_untracked_not_component :
  UnionFind.unions None (UnionFind.init [key1]) [] = Ok (UnionFind.init [key1]) ∧
  UnionFind.connected None (UnionFind.init [key1]) key2 key3
  = Ok (true, UnionFind.init [key1]) ∧
  ¬ UnionFind.component [key1] [] key2 key3.
Proof.
  split_and!; [done | done |].
  intros [[=] | [Hin _]]%component_members.
  apply list_elem_of_singleton in Hin. discriminate.
Qed.

(** The test of the repository: after [union(1, 2)] and [union(3, 4)]
    the classes are {1, 2} and {3, 4}; [union(1, 3)] joins them. *)
Example scenario_union_find :
  ∃ d1 d2 r d3,
    UnionFind.unions None (UnionFind.init [key1; key2; key3; key4])
      [(key1, key2); (key3, key4)] = Ok d1 ∧
    fst <$> UnionFind.connected None d1 key2 key1 = Ok true ∧
    fst <$> UnionFind.connected None d1 key2 key3 = Ok false ∧
    UnionFind.union None d1 key1 key3 = Ok d2 ∧
    UnionFind.find None d2 key1 = Ok ((r, 4%nat), d3) ∧
    fst <$> UnionFind.connected None d2 key2 key4 = Ok true.
Proof. do 4 eexists. split_and!; by vm_compute. Qed.

(** A tracked [None] is never merged: [union] takes its leader for the
    answer of an absent key. *)
Example union_of_None_key :
  ∃ d, UnionFind.unions None (UnionFind.init [None; key1]) [(None, key1)] = Ok d ∧
       UnionFind.connected None d None key1 = Ok (false, d).
Proof. eexists. split; by vm_compute. Qed.

Lemma find_splits_path_witness :
  ∃ r n d', UnionFind.find None chain key1 = Ok ((r, n), d') ∧
    (∃ m, UnionFind.reaches chain key1 r m) ∧ chain !! r = Some (r, n) ∧
    (∀ x q s, UnionFind.visits chain key1 x → chain !! x = Some (q, s) →
              d' !! x = chain !! q) ∧
    (∀ x s, UnionFind.visits chain key1 x → chain !! x = Some (r, s) →
            d' !! x = Some (r, n)) ∧
    (∀ x, ¬ UnionFind.visits chain key1 x → d' !! x = chain !! x).
Proof.
  apply (find_splits_path None [key1; key2; key3; key4] chain_calls chain key1).
  - exact chain_reached.
  - left.
Defined.

(** C6 as stated fails: on the chain 1 → 2 → 3 → 4, [find(1)] returns
    [(4, 4)] and leaves key 1, the first key it visits, at [(3, 3)]. *)
Lemma find_leaves_grandparent :
  UnionFind.calls None (UnionFind.init [key1; key2; key3; key4]) chain_calls
  = Ok chain ∧
  ∃ d', UnionFind.find None chain key1 = Ok ((key4, 4%nat), d') ∧
        UnionFind.visits chain key1 key1 ∧
        d' !! key1 = Some (key3, 3%nat) ∧
        d' !! key1 ≠ Some (key4, 4%nat).
Proof.
  split; [exact chain_reached|]. eexists.
  split_and!; [by vm_compute | constructor | by vm_compute | by vm_compute].
Qed.

(** ** The board *)

Section Board_properties.
Import Board.
Implicit Types b : Hitori.

(** C7. The constructor fails on lines of unequal length: when some
    line is not as long as the first one, it raises [AssertionError]. *)
Theorem init_unequal_lines_fails (l0 : list ascii) (ls : list (list ascii)) l :
  l ∈ l0 :: ls → length l ≠ length l0 → init (l0 :: ls) = Raise AssertionError.
Proof.
  intros Hin Hlen. unfold init.
  destruct (forallb _ _) eqn:Hall; [|done]. exfalso.
  rewrite forallb_forall in Hall. apply list_elem_of_In in Hin.
  by apply Hall, Nat.eqb_eq in Hin.
Qed.

Lemma constructed_cases b : constructed b → lines b = [] ∨ rectangular b.
Proof.
  intros Hc. destruct (decide (lines b = [])); [by left | right].
  by apply constructed_rectangular.
Qed.

Lemma is_blank_true b x y :
  constructed b → is_blank b x y = Ok true → rectangular b ∧ blank_at b (x, y).
Proof.
  intros [Hnil | Hr]%constructed_cases Hb.
  - exfalso. unfold is_blank, len_line0 in Hb. rewrite Hnil in Hb.
    destruct (0 <=? x); simpl in Hb; discriminate.
  - split; [done|]. rewrite is_blank_ok in Hb by done.
    injection Hb as Hb. by apply bool_decide_eq_true in Hb.
Qed.

(** C3. When an orthogonal neighbour of [(x, y)] is blank, [blank(x, y)]
    raises [ValueError] and the receiver is the board it was. *)
Theorem blank_next_to_blank_fails b x y :
  constructed b →
  is_blank b (x - 1) y = Ok true ∨ is_blank b (x + 1) y = Ok true ∨
  is_blank b x (y - 1) = Ok true ∨ is_blank b x (y + 1) = Ok true →
  blank_call b x y = (b, Raise ValueError).
Proof.
  intros Hc Hn. unfold blank_call. f_equal.
  destruct Hn as [Hn | [Hn | [Hn | Hn]]];
    apply is_blank_true in Hn as [Hr Hb]; try done;
    apply (blank_raises b x y _ Hr) in Hb; try done;
    unfold neighbours; simpl; rewrite !elem_of_cons; tauto.
Qed.

Lemma blank_Ok_lines b x y b2 :
  rectangular b → in_range b (x, y) → blank b x y = Ok b2 →
  b2 = mkHitori (blank_lines b x y).
Proof.
  intros Hr Hin Hb.
  destruct (decide (Exists (blank_at b) (neighbours (x, y))))
    as [(c & Hc & Hbc)%Exists_exists | Hnone].
  - rewrite (blank_raises b x y c) in Hb by done. discriminate.
  - rewrite blank_succeeds in Hb; [congruence | done | done |].
    intros c Hc Hbc. apply Hnone, Exists_exists. by exists c.
Qed.

(** C4. When [blank(x, y)] succeeds at an in-range coordinate, the new
    board has the size of the old one, the same symbol at every other
    coordinate, and a blank at [(x, y)]. *)
Theorem blank_changes_one_cell b x y b2 :
  constructed b → in_range b (x, y) → blank b x y = Ok b2 →
  size b2 = size b ∧
  (∀ c, in_range b c → c ≠ (x, y) → getitem b2 c = getitem b c) ∧
  is_blank b2 x y = Ok true.
Proof.
  intros Hc Hin Hb.
  assert (rectangular b) as Hr.
  { apply constructed_rectangular; [done|]. by eapply in_range_nonempty. }
  apply blank_Ok_lines in Hb as ->; [|done..].
  destruct (blank_lines_spec b x y Hr Hin) as (Hr' & Hw & Hh & Hcell).
  split_and!.
  - rewrite !size_ok by (apply Hr || apply Hr'). by rewrite Hw, Hh.
  - intros c Hcin Hne.
    destruct (getitem_cell b c Hr Hcin) as (v & -> & Hv).
    destruct (getitem_cell _ c Hr') as (v' & -> & Hv').
    { unfold in_range. by rewrite Hw, Hh. }
    rewrite Hcell, decide_False in Hv' by done. congruence.
  - rewrite is_blank_ok by done. f_equal. apply bool_decide_eq_true.
    unfold blank_at. rewrite Hcell. by rewrite decide_True.
Qed.

(** C9. On a board without adjacent blanks, blanking a cell that is
    blank already succeeds and returns an equal board. *)
Theorem blank_of_blank_is_same b x y :
  constructed b → no_adjacent_blanks b → in_range b (x, y) →
  is_blank b x y = Ok true → blank b x y = Ok b.
Proof.
  intros Hc Hadj Hin Hb. apply is_blank_true in Hb as [Hr Hb]; [|done].
  rewrite blank_succeeds; [|done|done|].
  2:{ intros c Hn. by apply (Hadj (x, y)). }
  f_equal. destruct b as [ls]. f_equal. unfold blank_lines. simpl.
  unfold blank_at, cell in Hb. simpl in Hb.
  destruct Hin as [Hx Hy]. simpl in Hx, Hy.
  rewrite bool_decide_eq_true_2 in Hb by lia.
  destruct (ls !! Z.to_nat y) as [l|] eqn:Hl; [|done]. simpl in Hb.
  by rewrite (list_insert_id l), list_insert_id.
Qed.

(** The conditions are stated on [cell]; on a rectangular board that is
    what the methods of the board answer. *)
Lemma blank_at_is_blank b x y :
  rectangular b → blank_at b (x, y) ↔ is_blank b x y = Ok true.
Proof.
  intros Hr. rewrite is_blank_ok by done. split.
  - intros Hb. by rewrite bool_decide_eq_true_2.
  - intros [= Hb]. by apply bool_decide_eq_true in Hb.
Qed.

Lemma cell_getitem b c v :
  rectangular b → in_range b c → cell b c = Some v ↔ getitem b c = Ok v.
Proof.
  intros Hr Hin. destruct (getitem_cell b c Hr Hin) as (v' & -> & ->).
  split; congruence.
Qed.

Lemma filled_is_blank b x y :
  rectangular b →
  filled b (x, y) ↔ in_range b (x, y) ∧ is_blank b x y = Ok false.
Proof.
  intros Hr. rewrite is_blank_ok by done. split.
  - intros Hf. split; [by apply filled_in_range|].
    rewrite bool_decide_eq_false_2; [done | by apply filled_not_blank].
  - intros [Hin [= Hb]]. apply in_range_filled; [done..|].
    by apply bool_decide_eq_false in Hb.
Qed.

(** C1. For a rectangular input without [BLANK], [solve] returns a set
    of boards, and every board in it is rectangular, has no symbol twice
    among the non-blank cells of a row or column, no two adjacent
    blanks, and its non-blank cells linked by orthogonal steps. *)
Theorem solve_returns_solutions (order : gset coord → list coord) b :
  iterates order → rectangular b → no_blank b →
  ∃ S, solve order b = Ok S ∧
    ∀ s, s ∈ S →
      rectangular s ∧ no_duplicates s ∧ no_adjacent_blanks s ∧
      connected_region s.
Proof.
  intros Horder Hr Hnb.
  destruct (solve_spec order b Horder (no_blank_sound b Hr Hnb)) as (S & HS & Hall).
  exists S. split; [done|]. intros s Hs.
  destruct (Hall s Hs) as (? & _ & ? & ? & ?). done.
Qed.

(** C8. [solve] starts from an empty set of answers and its result
    does not depend on the order in which Python iterates the set of
    cells: two runs on a well-formed board return the same set. *)
Theorem solve_deterministic (order1 order2 : gset coord → list coord) b :
  iterates order1 → iterates order2 → rectangular b → no_blank b →
  ∃ S, solve order1 b = Ok S ∧ solve order2 b = Ok S.
Proof.
  intros H1 H2 Hr Hnb.
  destruct (solve_spec order1 b H1 (no_blank_sound b Hr Hnb)) as (S & HS & _).
  exists S. split; [done|]. by rewrite <-(solve_order order1 order2).
Qed.

End Board_properties.

(** ** Examples *)

Import Board Examples.

Lemma no_adjacent_blanks_check b :
  rectangular b →
  Forall (λ c, blank_at b c → Forall (λ c', ¬ blank_at b c') (neighbours c))
    (all_coords (width b) (height b)) →
  no_adjacent_blanks b.
Proof.
  intros Hr Hall c c' Hb Hn. rewrite Forall_forall in Hall.
  assert (c ∈ all_coords (width b) (height b)) as Hc.
  { apply elem_of_all_coords. by apply (cell_Some_in_range b c BLANK). }
  specialize (Hall c Hc Hb). rewrite Forall_forall in Hall. by apply Hall.
Qed.

Lemma rectangular_check b :
  lines b ≠ [] →
  forallb (λ l, (length l =? length (hd [] (lines b)))%nat) (lines b) = true →
  rectangular b.
Proof.
  intros Hne Hall. split; [done|]. apply Forall_forall. intros l Hl.
  rewrite forallb_forall in Hall. apply list_elem_of_In, Hall, Nat.eqb_eq in Hl.
  unfold width. lia.
Qed.

Lemma iterates_elements : iterates elements.
Proof. by intros s. Qed.

Lemma iterates_backwards : iterates backwards.
Proof. intros s. apply reverse_Permutation. Qed.

Lemma board_11_21_rectangular : rectangular board_11_21.
Proof. by apply rectangular_check. Qed.

Lemma board_11_21_no_blank : no_blank board_11_21.
Proof. by apply (bool_decide_unpack _). Qed.

Lemma init_unequal_lines_fails_witness :
  init (parse_line <$> ["12"; "3"]%string) = Raise AssertionError.
Proof.
  apply (init_unequal_lines_fails (parse_line "12") [parse_line "3"] (parse_line "3")).
  - right. left.
  - simpl. lia.
Defined.

Lemma blank_next_to_blank_fails_witness :
  blank_call board_x2_34 1 0 = (board_x2_34, Raise ValueError).
Proof.
  apply (blank_next_to_blank_fails board_x2_34 1 0).
  - reflexivity.
  - left. reflexivity.
Defined.

Lemma blank_changes_one_cell_witness :
  size board_x2_34 = size board_12_34 ∧
  (∀ c, in_range board_12_34 c → c ≠ (0, 0) →
        getitem board_x2_34 c = getitem board_12_34 c) ∧
  is_blank board_x2_34 0 0 = Ok true.
Proof.
  apply (blank_changes_one_cell board_12_34 0 0 board_x2_34).
  - reflexivity.
  - repeat split; by vm_compute.
  - reflexivity.
Defined.

Lemma blank_of_blank_is_same_witness : blank board_x2_34 0 0 = Ok board_x2_34.
Proof.
  apply (blank_of_blank_is_same board_x2_34 0 0).
  - reflexivity.
  - apply no_adjacent_blanks_check; [by apply rectangular_check|].
    by apply (bool_decide_unpack _).
  - repeat split; by vm_compute.
  - reflexivity.
Defined.

Lemma solve_returns_solutions_witness :
  ∃ S, solve elements board_11_21 = Ok S ∧
    ∀ s, s ∈ S →
      rectangular s ∧ no_duplicates s ∧ no_adjacent_blanks s ∧
      connected_region s.
Proof.
  apply (solve_returns_solutions elements board_11_21).
  - exact iterates_elements.
  - exact board_11_21_rectangular.
  - exact board_11_21_no_blank.
Defined.

Lemma solve_deterministic_witness :
  ∃ S, solve elements board_11_21 = Ok S ∧ solve backwards board_11_21 = Ok S.
Proof.
  apply (solve_deterministic elements backwards board_11_21).
  - exact iterates_elements.
  - exact iterates_backwards.
  - exact board_11_21_rectangular.
  - exact board_11_21_no_blank.
Defined.

(** The scenarios of the tests. *)
Example scenario_blank : blank board_12_34 0 0 = Ok board_x2_34.
Proof. reflexivity. Qed.

Example scenario_adjacent : blank board_x2_34 1 0 = Raise ValueError.
Proof. reflexivity. Qed.

Example scenario_solve :
  rendered (solve elements board_11_21) = Ok [["1#"; "21"]%string].
Proof. vm_compute. reflexivity. Qed.

Example scenario_longer :
  rendered (solve elements board_5x5)
  = Ok [["153#2"; "5#134"; "34#15"; "4#2#3"; "2154#"]%string].
Proof. vm_compute. reflexivity. Qed.

(** * Further properties *)

(** ** Union-find: what the calls answer *)

Section UnionFind_answers.
Context {K : Type} `{Countable K}.
Variable pyNone : K.
Implicit Types d : gmap K (K * nat).
Import UnionFind.

Lemma reached_wf (members : list K) cs d :
  calls pyNone (init members) cs = Ok d →
  wf d ∧ ∀ k, k ∈ dom d ↔ k ∈ members.
Proof.
  intros Hd.
  destruct (calls_wf pyNone cs (init members) (init_wf members))
    as (d0 & Hd0 & Hwf & Hdom).
  assert (d0 = d) as -> by congruence.
  split; [done|]. intros k. by rewrite Hdom, init_dom.
Qed.

(** The answer of [find] is read off the forest. *)
Lemma answer_spec d k :
  wf d →
  (d !! k = None ∧ answer pyNone d k = Ok (pyNone, 0%nat)) ∨
  (∃ r s, root_of d k r ∧ d !! r = Some (r, s) ∧ (0 < s)%nat ∧
          answer pyNone d k = Ok (r, s)).
Proof.
  intros [Hroot Hsz]. unfold answer.
  destruct (find_spec pyNone d k Hroot) as (r & s & d' & -> & _ & Hcase).
  destruct Hcase as [(Hk & -> & -> & _) | [Hr Hs]].
  - by left.
  - right. exists r, s. split_and!; [done | done | by eapply sized_pos | done].
Qed.

Lemma answer_root d k r s :
  wf d → root_of d k r → d !! r = Some (r, s) → answer pyNone d k = Ok (r, s).
Proof.
  intros Hwf Hr Hs.
  destruct (answer_spec d k Hwf) as [[Hk _] | (r' & s' & Hr' & Hs' & _ & ->)].
  - apply root_of_dom, elem_of_dom in Hr as [? ?]. congruence.
  - rewrite (root_of_fun _ _ _ _ Hr Hr') in *. congruence.
Qed.

Lemma agree_answer d d' k :
  wf d → agree d d' → answer pyNone d' k = answer pyNone d k.
Proof.
  intros Hwf Hag. pose proof (agree_wf _ _ Hag Hwf) as Hwf'.
  destruct Hag as (Hdom & Hr & He).
  destruct (answer_spec d k Hwf) as [[Hk ->] | (r & s & Hkr & Hs & _ & ->)].
  - destruct (answer_spec d' k Hwf') as [[_ ->] | (r & s & Hkr & _)]; [done|].
    apply Hr, root_of_dom, elem_of_dom in Hkr as [? ?]. congruence.
  - apply answer_root; [done | by apply Hr | by apply He].
Qed.

(** X1. [find] is read-only for its callers: it returns, and after it
    every key gets from [find] the answer it got before, the key just
    looked up included. *)
Theorem find_keeps_answers (members : list K) (cs : list call) d (k : K) :
  calls pyNone (init members) cs = Ok d →
  ∃ res d', find pyNone d k = Ok (res, d') ∧
            answer pyNone d k = Ok res ∧
            ∀ x, answer pyNone d' x = answer pyNone d x.
Proof.
  intros [Hwf _]%reached_wf.
  destruct (find_spec pyNone d k (proj1 Hwf)) as (r & s & d' & Hf & Hag & _).
  exists (r, s), d'. split_and!; [done | by unfold answer; rewrite Hf |].
  intros x. by apply agree_answer.
Qed.

(** The three ways [union] ends. *)
Lemma union_cases d p q :
  wf d →
  ∃ rp np rq nq d2,
    answer pyNone d p = Ok (rp, np) ∧ answer pyNone d q = Ok (rq, nq) ∧
    agree d d2 ∧
    union pyNone d p q =
      Ok (if decide (rp = pyNone ∨ rq = pyNone) then d2
          else if decide (rp ≠ rq)
               then <[rq := (rq, (np + nq)%nat)]> (<[rp := (rq, (np + nq)%nat)]> d2)
               else d2).
Proof.
  intros Hwf. pose proof Hwf as [Hroot _]. unfold union, answer.
  destruct (find_spec pyNone d p Hroot) as (rp & np & d1 & Hfp & Hag1 & _).
  pose proof (agree_wf _ _ Hag1 Hwf) as Hwf1.
  destruct (find_spec pyNone d1 q (proj1 Hwf1)) as (rq & nq & d2 & Hfq & Hag2 & _).
  exists rp, np, rq, nq, d2. rewrite Hfp. split; [done|]. split.
  - change (answer pyNone d q = Ok (rq, nq)).
    rewrite <-(agree_answer d d1 q Hwf Hag1). unfold answer. by rewrite Hfq.
  - split; [by eapply agree_trans|]. cbn [rbind]. rewrite Hfq. cbn [rbind].
    by repeat case_decide.
Qed.

(** X2. [union] with a key that is not tracked is a no-op for its
    callers: it returns and every key keeps the answer [find] gave. *)
Theorem union_untracked_keeps_answers (members : list K) (cs : list call) d
    (p q : K) :
  calls pyNone (init members) cs = Ok d →
  p ∉ members ∨ q ∉ members →
  ∃ d', union pyNone d p q = Ok d' ∧
        ∀ x, answer pyNone d' x = answer pyNone d x.
Proof.
  intros [Hwf Hdom]%reached_wf Hout.
  destruct (union_cases d p q Hwf)
    as (rp & np & rq & nq & d2 & Hp & Hq & Hag & Hu).
  assert (rp = pyNone ∨ rq = pyNone) as HN.
  { destruct Hout as [Hp' | Hq']; [left | right].
    - destruct (answer_spec d p Hwf) as [[_ Ha] | (r & s & Hr & _)].
      + congruence.
      + by apply root_of_dom, Hdom in Hr.
    - destruct (answer_spec d q Hwf) as [[_ Ha] | (r & s & Hr & _)].
      + congruence.
      + by apply root_of_dom, Hdom in Hr. }
  rewrite decide_True in Hu by done.
  exists d2. split; [done|]. intros x. by apply agree_answer.
Qed.

(** X3. [union] of two tracked keys, [None] not being a key: the keys
    that answered like [p] or like [q] now answer with the
    representative of [q] and the sum of the two sizes, when the two
    representatives differ; every other answer stays. *)
Theorem union_merges_answers (members : list K) (cs : list call) d (p q : K) :
  calls pyNone (init members) cs = Ok d →
  pyNone ∉ members → p ∈ members → q ∈ members →
  ∃ rp np rq nq d',
    answer pyNone d p = Ok (rp, np) ∧ answer pyNone d q = Ok (rq, nq) ∧
    union pyNone d p q = Ok d' ∧
    ∀ x, answer pyNone d' x =
         if decide (rp ≠ rq ∧ (answer pyNone d x = Ok (rp, np) ∨
                               answer pyNone d x = Ok (rq, nq)))
         then Ok (rq, (np + nq)%nat)
         else answer pyNone d x.
Proof.
  intros [Hwf Hdom]%reached_wf HN Hpm Hqm.
  destruct (union_cases d p q Hwf)
    as (rp & np & rq & nq & d2 & Hp & Hq & Hag & Hu).
  assert (∀ k r s, k ∈ members → answer pyNone d k = Ok (r, s) →
            root_of d k r ∧ d !! r = Some (r, s) ∧ r ≠ pyNone) as Htracked.
  { intros k r s Hk Ha.
    destruct (answer_spec d k Hwf) as [[Hk' _] | (r' & s' & Hr & Hs & _ & Ha')].
    - apply Hdom, elem_of_dom in Hk as [? ?]. congruence.
    - assert (r' = r ∧ s' = s) as [-> ->] by (split; congruence).
      split_and!; [done | done |]. intros ->.
      by apply root_of_root, root_of_dom, Hdom in Hr. }
  destruct (Htracked p rp np Hpm Hp) as (Hprp & Hrp & HrpN).
  destruct (Htracked q rq nq Hqm Hq) as (Hqrq & Hrq & HrqN).
  rewrite decide_False in Hu by (by intros [?|?]).
  exists rp, np, rq, nq. eexists. split_and!; [done | done | exact Hu |].
  pose proof (agree_wf _ _ Hag Hwf) as Hwf2.
  destruct (decide (rp ≠ rq)) as [Hne | Heq%dec_stable].
  - intros x. destruct Hag as (Hdom2 & Hr2 & He2).
    apply He2 in Hrp as Hrp2. apply He2 in Hrq as Hrq2.
    pose proof (merge_wf d2 rp rq np nq Hrp2 Hrq2 Hne Hwf2) as Hwf'.
    assert (∀ r s, answer pyNone d x = Ok (r, s) → d !! r = Some (r, s) →
              r ≠ pyNone → root_of d x r) as Hback.
    { intros r s Ha Hs HrN.
      destruct (answer_spec d x Hwf) as [[_ Ha'] | (r' & s' & Hr & _ & _ & Ha')];
        congruence. }
    destruct (answer_spec d x Hwf) as [[Hx Ha] | (r & s & Hxr & Hs & Hpos & Ha)].
    + rewrite decide_False.
      2:{ intros [_ [Hc | Hc]]; rewrite Ha in Hc; congruence. }
      rewrite Ha.
      destruct (answer_spec _ x Hwf') as [[_ ->] | (r' & s' & Hr' & _)]; [done|].
      apply root_of_dom in Hr'. rewrite merge_dom in Hr' by eauto.
      rewrite Hdom2 in Hr'. apply elem_of_dom in Hr' as [? ?]. congruence.
    + destruct (decide (r = rp ∨ r = rq)) as [Hin | Hout].
      * rewrite decide_True.
        2:{ split; [done|]. rewrite Ha.
            destruct Hin as [-> | ->]; [left | right]; congruence. }
        apply answer_root; [done | | apply merge_lookup_rq; done].
        apply merge_root_of; [done.. | apply Hwf2 |].
        destruct Hin as [-> | ->].
        -- right. split; [by apply Hr2 | done].
        -- left. split; [by apply Hr2 | done].
      * rewrite decide_False.
        2:{ intros [_ [Hc | Hc]]; rewrite Ha in Hc; apply Hout;
              [left | right]; congruence. }
        rewrite Ha. apply answer_root; [done | |].
        -- apply merge_root_of; [done.. | apply Hwf2 |]. left.
           split; [by apply Hr2|]. intros ->. apply Hout. by left.
        -- rewrite merge_lookup_ne; [by apply He2 | |];
             intros ->; apply Hout; [by left | by right].
  - intros x. rewrite decide_False by (by intros [? _]).
    by apply agree_answer.
Qed.


Lemma linked_now_answers d a b :
  wf d →
  ∃ ra rb, answer pyNone d a = Ok ra ∧ answer pyNone d b = Ok rb ∧
           linked_now pyNone d a b = Ok (bool_decide (ra = rb)).
Proof.
  intros Hwf. unfold linked_now, connected, answer.
  destruct (find_spec pyNone d a (proj1 Hwf)) as (ra & sa & d1 & Hfa & Hag & _).
  pose proof (agree_wf _ _ Hag Hwf) as Hwf1.
  destruct (find_spec pyNone d1 b (proj1 Hwf1)) as (rb & sb & d2 & Hfb & _).
  exists (ra, sa), (rb, sb). rewrite Hfa. split; [done|]. split.
  - change (answer pyNone d b = Ok (rb, sb)).
    rewrite <-(agree_answer d d1 b Hwf Hag). unfold answer. by rewrite Hfb.
  - cbn [rbind]. by rewrite Hfb.
Qed.

(** X4. On a structure reached by calls from construction,
    [connected] returns and its answers form an equivalence on all
    keys, tracked or not: reflexive, symmetric and transitive. *)
Theorem connected_is_equivalence (members : list K) (cs : list call) d :
  calls pyNone (init members) cs = Ok d →
  (∀ a, linked_now pyNone d a a = Ok true) ∧
  (∀ a b, linked_now pyNone d a b = linked_now pyNone d b a) ∧
  (∀ a b c, linked_now pyNone d a b = Ok true →
            linked_now pyNone d b c = Ok true →
            linked_now pyNone d a c = Ok true).
Proof.
  intros [Hwf _]%reached_wf. split_and!.
  - intros a. destruct (linked_now_answers d a a Hwf) as (ra & rb & Ha & Hb & ->).
    rewrite bool_decide_eq_true_2; [done | congruence].
  - intros a b.
    destruct (linked_now_answers d a b Hwf) as (ra & rb & Ha & Hb & ->).
    destruct (linked_now_answers d b a Hwf) as (rb' & ra' & Hb' & Ha' & ->).
    f_equal. apply bool_decide_ext. split; congruence.
  - intros a b c.
    destruct (linked_now_answers d a b Hwf) as (ra & rb & Ha & Hb & ->).
    destruct (linked_now_answers d b c Hwf) as (rb' & rc & Hb' & Hc & ->).
    destruct (linked_now_answers d a c Hwf) as (ra' & rc' & Ha' & Hc' & ->).
    intros [= Hab%bool_decide_eq_true] [= Hbc%bool_decide_eq_true].
    rewrite bool_decide_eq_true_2; [done | congruence].
Qed.

(** X5. No call adds or removes a key: after any sequence of calls the
    tracked keys are the members given to the constructor, and exactly
    the untracked keys get the answer [(None, 0)] with size 0. *)
Theorem keys_never_change (members : list K) (cs : list call) d :
  calls pyNone (init members) cs = Ok d →
  ∀ k, (is_Some (d !! k) ↔ k ∈ members) ∧
       (k ∉ members ↔ ∃ r, answer pyNone d k = Ok (r, 0%nat)).
Proof.
  intros [Hwf Hdom]%reached_wf k. rewrite <-elem_of_dom. split; [apply Hdom|].
  destruct (answer_spec d k Hwf) as [[Hk ->] | (r & s & Hr & _ & Hpos & ->)].
  - split; [by eexists|]. intros _ [? ?]%Hdom%elem_of_dom. congruence.
  - split.
    + intros Hout. by apply root_of_dom, Hdom in Hr.
    + intros [r' [= _ ->]]. lia.
Qed.

Lemma size_list_to_set_le (l : list K) :
  (base.size (list_to_set l : gset K) ≤ length l)%nat.
Proof.
  apply submseteq_length, NoDup_submseteq; [apply NoDup_elements|].
  intros x. by rewrite elem_of_elements, elem_of_list_to_set.
Qed.

(** X6. For a tracked key [find] answers with a tracked representative
    and a size between 1 and the number of members. *)
Theorem find_size_bounds (members : list K) (cs : list call) d (k : K) :
  calls pyNone (init members) cs = Ok d → k ∈ members →
  ∃ r n, answer pyNone d k = Ok (r, n) ∧ r ∈ members ∧
         (1 ≤ n ≤ length members)%nat.
Proof.
  intros [Hwf Hdom]%reached_wf Hk.
  destruct (answer_spec d k Hwf) as [[Hk' _] | (r & s & Hr & Hs & Hpos & Ha)].
  { apply Hdom, elem_of_dom in Hk as [? ?]. congruence. }
  exists r, s. split_and!; [done | | lia |].
  - by apply Hdom, (root_of_dom d r r), (root_of_root d k).
  - destruct (proj2 Hwf r s Hs) as (C & HC & <-).
    etrans; [apply (subseteq_size C (list_to_set members))|].
    + intros x Hx%HC%root_of_dom%Hdom. by apply elem_of_list_to_set.
    + apply size_list_to_set_le.
Qed.

(** X7. Right after construction every member is a class of its own:
    [find] answers [(k, 1)] without writing, also when the members were
    given with repetitions, and a member is connected to no other key,
    tracked or not. *)
Theorem init_singletons (members : list K) (a b : K) :
  a ∈ members →
  find pyNone (init members) a = Ok ((a, 1%nat), init members) ∧
  (a ≠ b → linked_now pyNone (init members) a b = Ok false).
Proof.
  intros Ha. split.
  - unfold find. rewrite init_lookup, decide_True by done. simpl.
    by rewrite decide_True.
  - intros Hne.
    destruct (linked_now_answers (init members) a b (init_wf members))
      as (ra & rb & Hra & Hrb & ->).
    rewrite bool_decide_eq_false_2; [done|]. intros <-.
    rewrite (answer_root (init members) a a 1%nat) in Hra;
      [| apply init_wf | by apply init_root_of
       | by rewrite init_lookup, decide_True].
    destruct (answer_spec (init members) b (init_wf members))
      as [[_ Hb] | (r & s & [-> _]%init_root_of & _ & _ & Hb)]; congruence.
Qed.

End UnionFind_answers.

(** ** The board: text, bounds and blanking *)

Section Py_text.
Variable sep : ascii.

Lemma split_nonempty s : Py.split sep s ≠ [].
Proof.
  destruct s as [| c s]; simpl; [done|].
  destruct (decide (c = sep)); [done|]. by destruct (Py.split sep s).
Qed.

Lemma join_cons l ls :
  ls ≠ [] → Py.join [sep] (l :: ls) = l ++ sep :: Py.join [sep] ls.
Proof. by destruct ls. Qed.

Lemma join_split s : Py.join [sep] (Py.split sep s) = s.
Proof.
  induction s as [| c s IH]; simpl; [done|].
  pose proof (split_nonempty s) as Hne.
  destruct (decide (c = sep)) as [-> | Hc].
  - rewrite join_cons by done. simpl. by rewrite IH.
  - destruct (Py.split sep s) as [| l ls]; [done|].
    destruct ls as [| l' ls].
    + simpl in *. by rewrite IH.
    + rewrite join_cons by done. rewrite join_cons in IH by done.
      by rewrite <-IH.
Qed.

Lemma split_no_sep l : sep ∉ l → Py.split sep l = [l].
Proof.
  induction l as [| c l IH]; simpl; [done|]. intros Hnin.
  rewrite decide_False by (intros ->; apply Hnin; left).
  rewrite IH; [done|]. intros ?. apply Hnin. by right.
Qed.

Lemma split_app l s : sep ∉ l → Py.split sep (l ++ sep :: s) = l :: Py.split sep s.
Proof.
  induction l as [| c l IH]; simpl; intros Hnin.
  - by rewrite decide_True.
  - rewrite decide_False by (intros ->; apply Hnin; left).
    rewrite IH; [done|]. intros ?. apply Hnin. by right.
Qed.

Lemma split_join ls :
  ls ≠ [] → Forall (λ l, sep ∉ l) ls → Py.split sep (Py.join [sep] ls) = ls.
Proof.
  induction ls as [| l ls IH]; [done|]. intros _ [Hl Hls]%Forall_cons.
  destruct ls as [| l' ls].
  - simpl. by apply split_no_sep.
  - rewrite join_cons by done. rewrite split_app by done.
    by rewrite IH.
Qed.

End Py_text.

Section Board_extras.
Import Board.
Implicit Types b : Hitori.
Implicit Types c : coord.

Lemma init_Ok_lines ls b : init ls = Ok b → lines b = ls.
Proof.
  unfold init. destruct ls as [| l0 ls]; [by intros [= <-]|].
  destruct (forallb _ _); [by intros [= <-] | done].
Qed.

(** X8. [str] undoes [parse]: when [parse(layout)] returns a board, the
    text of that board is [layout] again, and the board has at least
    one line. *)
Theorem str_of_parse (layout : list ascii) b :
  parse layout = Ok b → str b = layout ∧ lines b ≠ [].
Proof.
  unfold parse, str. intros ->%init_Ok_lines. split.
  - apply join_split.
  - apply split_nonempty.
Qed.

(** X9. [parse] undoes [str] on a board with at least one line whose
    lines hold no line break. *)
Theorem parse_of_str b :
  rectangular b → Forall (λ l, newline ∉ l) (lines b) → parse (str b) = Ok b.
Proof.
  intros Hr Hnl. unfold parse, str. rewrite split_join; [|apply Hr | done].
  destruct b as [ls]. by apply rectangular_constructed in Hr.
Qed.

(** X10. On a board with at least one line [is_blank] never raises, and
    it answers [False] for every coordinate outside the board. *)
Theorem is_blank_outside b x y :
  rectangular b →
  ∃ t, is_blank b x y = Ok t ∧ (¬ in_range b (x, y) → t = false).
Proof.
  intros Hr. rewrite is_blank_ok by done. eexists. split; [done|].
  intros Hout. apply bool_decide_eq_false. intros Hb. apply Hout.
  by apply (cell_Some_in_range b (x, y) BLANK).
Qed.

(** X11. [blank] keeps the invariant of the boards: from a board without
    adjacent blanks, a successful [blank] at an in-range coordinate
    returns a rectangular board without adjacent blanks. *)
Theorem blank_keeps_invariant b x y b2 :
  constructed b → no_adjacent_blanks b → in_range b (x, y) →
  blank b x y = Ok b2 →
  rectangular b2 ∧ no_adjacent_blanks b2.
Proof.
  intros Hc Hadj Hin Hb.
  assert (rectangular b) as Hr.
  { apply constructed_rectangular; [done|]. by eapply in_range_nonempty. }
  destruct (try_blank_spec b (x, y) (conj Hr Hadj) Hin)
    as [Hnone | (b' & Hsome & Hs & _)];
    unfold try_blank in *; simpl in *; rewrite Hb in *; [done|].
  by injection Hsome as <-.
Qed.

(** X12. The constructor accepts no lines at all, but the board it
    returns is of no use: [size], [blank] at any coordinate and [solve]
    raise [IndexError] on it. *)
Theorem board_without_lines b :
  lines b = [] →
  init (lines b) = Ok b ∧
  size b = Raise IndexError ∧
  (∀ x y, blank b x y = Raise IndexError) ∧
  (∀ order, solve order b = Raise IndexError).
Proof.
  destruct b as [ls]. simpl. intros ->. split_and!; [done | done | | done].
  intros x y. unfold blank, is_blank, len_line0, Py.or_else. simpl.
  destruct (0 <=? x - 1) eqn:H1; simpl; [done|].
  destruct (0 <=? x + 1) eqn:H2; simpl; [done|].
  destruct (0 <=? x) eqn:H3; simpl; [done|].
  unfold Py.index. simpl. by destruct (0 <=? y); simpl; destruct (_ && _).
Qed.


(** *** Two blanks in either order *)

Lemma cell_ext b b' :
  height b = height b' → (∀ c, cell b c = cell b' c) → b = b'.
Proof.
  destruct b as [ls], b' as [ls']. unfold height, cell. simpl.
  intros Hh Hc. f_equal. apply list_eq. intros i.
  assert (∀ j, (ls !! i ≫= (.!! j)) = (ls' !! i ≫= (.!! j))) as Hrow.
  { intros j. specialize (Hc (Z.of_nat j, Z.of_nat i)). simpl in Hc.
    rewrite bool_decide_eq_true_2, !Nat2Z.id in Hc by lia. done. }
  destruct (ls !! i) as [l|] eqn:Hl; destruct (ls' !! i) as [l'|] eqn:Hl'.
  - f_equal. apply list_eq. intros j. apply (Hrow j).
  - apply lookup_lt_Some in Hl. apply lookup_ge_None in Hl'. lia.
  - apply lookup_lt_Some in Hl'. apply lookup_ge_None in Hl. lia.
  - done.
Qed.

Lemma blank_Ok_spec b x y b2 :
  rectangular b → in_range b (x, y) → blank b x y = Ok b2 →
  (∀ c, c ∈ neighbours (x, y) → ¬ blank_at b c) ∧
  rectangular b2 ∧ width b2 = width b ∧ height b2 = height b ∧
  ∀ c, cell b2 c = if decide (c = (x, y)) then Some BLANK else cell b c.
Proof.
  intros Hr Hin Hb. split.
  - intros c Hc Hbc. by rewrite (blank_raises b x y c) in Hb.
  - apply blank_Ok_lines in Hb as ->; [|done..].
    by apply blank_lines_spec.
Qed.

Lemma blank_Ok_iff b x y :
  rectangular b → in_range b (x, y) →
  (∀ c, c ∈ neighbours (x, y) → ¬ blank_at b c) →
  ∃ b2, blank b x y = Ok b2.
Proof. intros. eexists. by apply blank_succeeds. Qed.

(** X13. Two blanks commute: when [blank] succeeds at [c1] and then at
    [c2], it also succeeds at [c2] and then at [c1], and the board is
    the same. *)
Theorem blank_commutes b x1 y1 x2 y2 b1 b12 :
  rectangular b → in_range b (x1, y1) → in_range b (x2, y2) →
  blank b x1 y1 = Ok b1 → blank b1 x2 y2 = Ok b12 →
  ∃ b2, blank b x2 y2 = Ok b2 ∧ blank b2 x1 y1 = Ok b12.
Proof.
  intros Hr Hin1 Hin2 H1 H12.
  destruct (blank_Ok_spec b x1 y1 b1 Hr Hin1 H1) as (Hn1 & Hr1 & Hw1 & Hh1 & Hc1).
  assert (in_range b1 (x2, y2)) as Hin2'.
  { unfold in_range. by rewrite Hw1, Hh1. }
  destruct (blank_Ok_spec b1 x2 y2 b12 Hr1 Hin2' H12)
    as (Hn12 & Hr12 & Hw12 & Hh12 & Hc12).
  destruct (blank_Ok_iff b x2 y2 Hr Hin2) as [b2 H2].
  { intros c Hc Hbc. apply (Hn12 c Hc). unfold blank_at in *. rewrite Hc1.
    by destruct (decide (c = (x1, y1))). }
  destruct (blank_Ok_spec b x2 y2 b2 Hr Hin2 H2) as (Hn2 & Hr2 & Hw2 & Hh2 & Hc2).
  assert (in_range b2 (x1, y1)) as Hin1'.
  { unfold in_range. by rewrite Hw2, Hh2. }
  destruct (blank_Ok_iff b2 x1 y1 Hr2 Hin1') as [b21 H21].
  { intros c Hc Hbc. unfold blank_at in Hbc. rewrite Hc2 in Hbc.
    destruct (decide (c = (x2, y2))) as [-> | Hne].
    - apply (Hn12 (x1, y1)); [by apply neighbours_sym|].
      unfold blank_at. rewrite Hc1. by rewrite decide_True.
    - by apply (Hn1 c). }
  destruct (blank_Ok_spec b2 x1 y1 b21 Hr2 Hin1' H21)
    as (_ & Hr21 & Hw21 & Hh21 & Hc21).
  exists b2. split; [done|]. rewrite H21. f_equal.
  apply cell_ext; [congruence|]. intros c.
  rewrite Hc21, Hc2, Hc12, Hc1. by repeat case_decide.
Qed.

(** *** Coordinates outside the board *)

Lemma index_negative {A} (l : list A) i :
  - Z.of_nat (length l) ≤ i < 0 →
  Py.index l i = Py.index l (Z.of_nat (length l) + i).
Proof.
  intros Hi. unfold Py.index. cbv zeta.
  rewrite (proj2 (Z.leb_gt 0 i)) by lia.
  by rewrite !(proj2 (Z.leb_le 0 (Z.of_nat (length l) + i))) by lia.
Qed.

Lemma setitem_negative {A} (l : list A) i a :
  - Z.of_nat (length l) ≤ i < 0 →
  Py.setitem l i a = Py.setitem l (Z.of_nat (length l) + i) a.
Proof.
  intros Hi. unfold Py.setitem. cbv zeta.
  rewrite (proj2 (Z.leb_gt 0 i)) by lia.
  by rewrite !(proj2 (Z.leb_le 0 (Z.of_nat (length l) + i))) by lia.
Qed.

Lemma index_below {A} (l : list A) i :
  i < - Z.of_nat (length l) → Py.index l i = Raise IndexError.
Proof.
  intros Hi. unfold Py.index. cbv zeta.
  rewrite (proj2 (Z.leb_gt 0 i)) by lia.
  by rewrite (proj2 (Z.leb_gt 0 (Z.of_nat (length l) + i))) by lia.
Qed.

Lemma index_beyond {A} (l : list A) i :
  Z.of_nat (length l) ≤ i → Py.index l i = Raise IndexError.
Proof.
  intros Hi. rewrite index_nonneg by lia. rewrite lookup_ge_None_2; [done | lia].
Qed.

Lemma neighbour_check_false b x y :
  rectangular b → ¬ Exists (blank_at b) (neighbours (x, y)) →
  blank b x y =
    (l <- Py.index (lines b) y;;
     ls <- Py.setitem (lines b) y
             (Py.slice_to l x ++ [BLANK] ++ Py.slice_from l (x + 1));;
     init ls).
Proof.
  intros Hr Hn. unfold blank. rewrite blank_check by done. cbn [rbind].
  by rewrite bool_decide_eq_false_2.
Qed.

Lemma neighbour_check_true b x y :
  rectangular b → Exists (blank_at b) (neighbours (x, y)) →
  blank b x y = Raise ValueError.
Proof.
  intros Hr (c & Hc & Hb)%Exists_exists. by apply (blank_raises b x y c).
Qed.

(** X14. A row index outside the board never yields a board: for
    [y >= height] or [y < -height], [blank] raises [ValueError] when a
    checked neighbour is blank and [IndexError] otherwise. *)
Theorem blank_row_out_of_range b x y :
  rectangular b → y < - height b ∨ height b ≤ y →
  blank b x y = Raise ValueError ∨ blank b x y = Raise IndexError.
Proof.
  intros Hr Hy.
  destruct (decide (Exists (blank_at b) (neighbours (x, y)))) as [Hn | Hn].
  { left. by apply neighbour_check_true. }
  right. rewrite neighbour_check_false by done. unfold height in Hy.
  destruct Hy as [Hy | Hy].
  - by rewrite index_below.
  - by rewrite index_beyond.
Qed.


(** The write of [blank], the neighbour check left aside. *)
Lemma blank_write b x y :
  rectangular b → in_range b (x, y) →
  (l <- Py.index (lines b) y;;
   ls <- Py.setitem (lines b) y
           (Py.slice_to l x ++ [BLANK] ++ Py.slice_from l (x + 1));;
   init ls) = Ok (mkHitori (blank_lines b x y)).
Proof.
  intros Hr Hin.
  destruct (blank_lines_spec b x y Hr Hin) as (Hr' & _).
  apply rectangular_constructed in Hr'. unfold constructed in Hr'. simpl in Hr'.
  destruct Hin as [Hx Hy]. simpl in Hx, Hy. unfold blank_lines, height in *.
  destruct (lookup_lt_is_Some_2 (lines b) (Z.to_nat y)) as [l Hl]; [lia|].
  rewrite Hl in *. rewrite (index_Ok _ _ l) by (done || lia). cbn [rbind].
  pose proof (proj1 (Forall_lookup _ _) (proj2 Hr) _ _ Hl) as Hlen. simpl in Hlen.
  rewrite slice_to_nonneg, slice_from_nonneg by lia.
  replace (Z.to_nat (x + 1)) with (S (Z.to_nat x)) by lia. cbn [app].
  rewrite <-insert_take_drop by lia.
  rewrite setitem_nonneg by lia. cbn [rbind]. done.
Qed.

(** X15. A negative row index counts from the last row: for
    [-height <= y < 0], [blank(x, y)] blanks the cell [(x, height + y)].
    The neighbours it checks are those of [(x, y)], none of which is on
    the board except [(x, 0)] for [y = -1]; the neighbours of the cell
    it writes are not looked at. *)
Theorem blank_negative_row b x y :
  rectangular b → 0 ≤ x < width b → - height b ≤ y < 0 →
  ¬ (y = -1 ∧ blank_at b (x, 0)) →
  blank b x y = Ok (mkHitori (blank_lines b x (height b + y))).
Proof.
  intros Hr Hx Hy Hzero.
  rewrite neighbour_check_false; [|done|].
  2:{ intros (c & Hc & Hb)%Exists_exists.
      apply (cell_Some_in_range b c BLANK Hr) in Hb as Hin.
      destruct Hin as [_ Hcy]. unfold neighbours in Hc. simpl in Hc.
      rewrite !elem_of_cons, elem_of_nil in Hc.
      destruct Hc as [-> | [-> | [-> | [-> | []]]]]; simpl in Hcy; try lia.
      apply Hzero. assert (y = -1) as -> by lia. done. }
  pose proof (blank_write b x (height b + y) Hr) as Hw.
  unfold height in *.
  destruct (lookup_lt_is_Some_2 (lines b)
              (Z.to_nat (Z.of_nat (length (lines b)) + y))) as [l Hl]; [lia|].
  rewrite index_negative by lia.
  rewrite (index_Ok _ _ l) in Hw |- * by (done || lia). cbn [rbind] in Hw |- *.
  rewrite setitem_negative by lia. apply Hw.
  split; simpl; [done | unfold height; lia].
Qed.

Lemma init_unequal ls l l' :
  l ∈ ls → l' ∈ ls → length l ≠ length l' → init ls = Raise AssertionError.
Proof.
  intros Hl Hl' Hne. unfold init. destruct ls as [| l0 ls]; [by apply elem_of_nil in Hl|].
  destruct (forallb _ _) eqn:Hall; [|done]. exfalso.
  rewrite forallb_forall in Hall.
  apply list_elem_of_In, Hall, Nat.eqb_eq in Hl.
  apply list_elem_of_In, Hall, Nat.eqb_eq in Hl'. lia.
Qed.

(** X16. A column index beyond the width never yields a board when
    there are two lines or more: the line written is one symbol longer
    than the others, so the constructor's assertion fails, unless the
    neighbour check raised [ValueError] before. *)
Theorem blank_column_beyond_width b x y :
  rectangular b → width b ≤ x → 0 ≤ y < height b → 2 ≤ height b →
  blank b x y = Raise ValueError ∨ blank b x y = Raise AssertionError.
Proof.
  intros Hr Hx Hy Hh.
  destruct (decide (Exists (blank_at b) (neighbours (x, y)))) as [Hn | Hn].
  { left. by apply neighbour_check_true. }
  right. rewrite neighbour_check_false by done. unfold height in *.
  destruct (lookup_lt_is_Some_2 (lines b) (Z.to_nat y)) as [l Hl]; [lia|].
  rewrite (index_Ok _ _ l) by (done || lia). cbn [rbind].
  rewrite setitem_nonneg by lia. cbn [rbind].
  destruct Hr as [Hne Hall]. rewrite Forall_lookup in Hall.
  pose proof (Hall _ _ Hl) as Hlen. simpl in Hlen.
  assert (0 ≤ width b) as Hw0 by (unfold width; lia).
  set (other := if decide (Z.to_nat y = 0%nat) then 1%nat else 0%nat).
  destruct (lookup_lt_is_Some_2 (lines b) other) as [l' Hl'].
  { unfold other. case_decide; lia. }
  pose proof (Hall _ _ Hl') as Hlen'. simpl in Hlen'.
  apply (init_unequal _ (Py.slice_to l x ++ [BLANK] ++ Py.slice_from l (x + 1)) l').
  - apply list_elem_of_lookup. exists (Z.to_nat y).
    apply list_lookup_insert_eq. lia.
  - apply list_elem_of_lookup. exists other.
    rewrite list_lookup_insert_ne; [done|]. unfold other. case_decide; lia.
  - rewrite !length_app, slice_to_nonneg, slice_from_nonneg by lia.
    rewrite length_take, length_drop. simpl. lia.
Qed.

End Board_extras.

(** ** The search: what it passes on and what it finds *)

Section Search_extras.
Import Board.
Implicit Types b s : Hitori.
Implicit Types c : coord.

Lemma two_distinct {A} (l : list A) :
  NoDup l → (1 < length l)%nat → ∃ x y, x ∈ l ∧ y ∈ l ∧ x ≠ y.
Proof.
  destruct l as [| a [| a' l]]; simpl; [lia | lia |].
  intros [Ha _]%NoDup_cons _. exists a, a'. split_and!; [left | right; left |].
  intros ->. apply Ha. left.
Qed.

Lemma line_same_line b sel c c' :
  c ∈ line b sel → c' ∈ line b sel → same_row c c' ∨ same_col c c'.
Proof.
  destruct sel as [n | n]; simpl;
    intros (? & -> & _)%list_elem_of_fmap (? & -> & _)%list_elem_of_fmap;
    [by left | by right].
Qed.

(** What [blank_some] finds in a line: no group of two cells or more
    when the line is clean, else the cells of the first such group. *)
Lemma blank_some_cases b sel :
  rectangular b → valid_selector b sel →
  ∃ counts,
    group b (line b sel) [] = Ok counts ∧
    match List.find (λ vw, (1 <? length vw.2)%nat) counts with
    | Some (v, w) =>
        v ≠ BLANK ∧ w = filter (λ c, cell b c = Some v) (line b sel) ∧
        (1 < length w)%nat ∧ ¬ clean b (line b sel)
    | None => clean b (line b sel)
    end.
Proof.
  intros Hr Hsel. pose proof (line_in_range b sel Hsel) as Hin.
  destruct (group_spec b (line b sel) [] [] Hr Hin) as (counts & Hgr & Hg).
  { split_and!; [apply NoDup_nil_2 | by intros ?? ?%elem_of_nil
                 | by intros ?? ?%elem_of_nil]. }
  simpl in Hg. exists counts. split; [done|].
  destruct Hg as (Hnd & Hent & Hkey).
  destruct (List.find _ counts) as [[v w]|] eqn:Hfind.
  - apply find_some in Hfind as [Hvw%list_elem_of_In Hlen%Nat.ltb_lt].
    simpl in Hlen. destruct (Hent v w Hvw) as (Hv & Hne & Hw).
    split_and!; [done..|]. intros Hclean.
    destruct (two_distinct w) as (c & c' & Hc & Hc' & Hcc'); [|done|].
    { rewrite Hw. apply NoDup_filter, line_NoDup. }
    rewrite Hw in Hc, Hc'.
    apply list_elem_of_filter in Hc as [Hcv Hc], Hc' as [Hcv' Hc'].
    by apply Hv, (Hclean c c' v).
  - intros c c' v Hc Hc' Hne Hcv Hcv'.
    destruct (decide (v = BLANK)) as [| Hvne]; [done|]. exfalso.
    pose proof (Hkey c v Hc Hcv Hvne) as ([v0 w] & Hv0 & Hvw)%list_elem_of_fmap.
    simpl in Hv0. subst v0.
    pose proof (find_none _ _ Hfind (v, w)) as Hlen.
    rewrite <-list_elem_of_In in Hlen. specialize (Hlen Hvw). simpl in Hlen.
    apply Nat.ltb_ge in Hlen.
    destruct (Hent v w Hvw) as (_ & _ & Hw).
    assert (1 < length w)%nat; [|lia].
    apply (two_elements w c c'); [| |done]; rewrite Hw;
      by apply list_elem_of_filter.
Qed.

Lemma blank_some_clean gen0 gen1 sel b a :
  rectangular b → valid_selector b sel → clean b (line b sel) →
  blank_some gen0 gen1 sel b a = gen1 b a.
Proof.
  intros Hr Hsel Hclean. unfold blank_some. rewrite select_ok by done.
  cbn [rbind].
  destruct (blank_some_cases b sel Hr Hsel) as (counts & -> & Hfind).
  cbn [rbind]. destruct (List.find _ counts) as [[v w]|]; [|done].
  by destruct Hfind as (_ & _ & _ & []).
Qed.

(** X17. [blank_some] on a line that holds no symbol twice among its
    non-blank cells hands the board, unchanged, to the next generator
    and does nothing else; on a line that holds a symbol twice it never
    calls the next generator. *)
Theorem blank_some_passes_clean_lines gen0 gen1 sel b a :
  rectangular b → valid_selector b sel →
  (clean b (line b sel) → blank_some gen0 gen1 sel b a = gen1 b a) ∧
  (¬ clean b (line b sel) →
   ∀ gen1', blank_some gen0 gen1' sel b a = blank_some gen0 gen1 sel b a).
Proof.
  intros Hr Hsel. split; [by apply blank_some_clean|].
  intros Hdirty gen1'. unfold blank_some. rewrite select_ok by done.
  cbn [rbind].
  destruct (blank_some_cases b sel Hr Hsel) as (counts & -> & Hfind).
  cbn [rbind]. by destruct (List.find _ counts) as [[v w]|].
Qed.

(** X18. [check_connectedness] passes the board on exactly when its
    non-blank cells are linked by orthogonal steps (a board of blanks
    only counts as linked); otherwise it returns without a call. *)
Theorem check_connectedness_decides (order : gset coord → list coord) gen1 b a :
  iterates order → rectangular b →
  (connected_region b → check_connectedness order gen1 b a = gen1 b a) ∧
  (¬ connected_region b → check_connectedness order gen1 b a = Ok a).
Proof.
  intros Horder Hr.
  destruct (check_connectedness_spec order gen1 b a Horder Hr) as (ok & -> & Hok).
  split; intros Hc.
  - by rewrite (proj2 Hok Hc).
  - destruct ok; [|done]. by destruct Hc; apply Hok.
Qed.

(** *** A board that needs no blanking *)

Lemma call_clean (order : gset coord → list coord) fuel : ∀ sels b a,
  iterates order → rectangular b → Forall (valid_selector b) sels →
  Forall (λ sel, clean b (line b sel)) sels →
  (length sels + 2 ≤ fuel)%nat →
  ∃ ok : bool,
    call order fuel (pipeline sels) b a = Ok (if ok then {[b]} ∪ a else a) ∧
    (ok = true ↔ connected_region b).
Proof.
  induction fuel as [| fuel IH]; intros sels b a Horder Hr Hv Hcl Hfuel; [lia|].
  destruct sels as [| sel sels].
  - simpl.
    destruct (check_connectedness_spec order (call order fuel [CollectCandidate])
                b a Horder Hr) as (ok & -> & Hok).
    exists ok. split; [|done]. destruct ok; [|done].
    destruct fuel as [| fuel]; [simpl in Hfuel; lia|]. done.
  - apply Forall_cons in Hv as [Hsel Hv]. apply Forall_cons in Hcl as [Hc Hcl].
    assert (∃ g rest, pipeline sels = g :: rest) as (g & rest & Hrest).
    { unfold pipeline. destruct sels; simpl; eauto. }
    change (pipeline (sel :: sels)) with (BlankSome sel :: pipeline sels).
    rewrite Hrest. cbn [call]. rewrite blank_some_clean by done.
    rewrite <-Hrest. apply IH; [done..|]. simpl in Hfuel. lia.
Qed.

Lemma no_duplicates_clean b sel : no_duplicates b → clean b (line b sel).
Proof.
  intros Hd c c' v Hc Hc' Hne. apply Hd; [done|]. by eapply line_same_line.
Qed.

(** X19. A board that holds no symbol twice in a row or column is its
    own only answer: [solve] returns the set of that one board when its
    non-blank cells are linked, and the empty set when they are not. No
    cell is blanked. *)
Theorem solve_of_board_without_duplicates (order : gset coord → list coord) b :
  iterates order → rectangular b → no_duplicates b →
  (connected_region b → solve order b = Ok {[b]}) ∧
  (¬ connected_region b → solve order b = Ok ∅).
Proof.
  intros Horder Hr Hd. unfold solve. rewrite size_ok by apply Hr. cbn [rbind].
  rewrite gens_pipeline.
  destruct (call_clean order
              (S (Z.to_nat (width b * height b) +
                  length (pipeline (selectors (width b) (height b)))))
              (selectors (width b) (height b)) b ∅ Horder Hr (selectors_valid b))
    as (ok & -> & Hok).
  - apply Forall_forall. intros sel _. by apply no_duplicates_clean.
  - unfold pipeline. rewrite length_app, length_fmap. simpl. lia.
  - split; intros Hc.
    + rewrite (proj2 Hok Hc). by rewrite union_empty_r_L.
    + destruct ok; [|done]. by destruct Hc; apply Hok.
Qed.

(** X20. [solve] accepts a board that is blanked in part, as long as no
    two blanks are adjacent: it returns a set, and every board of the
    set has the size of the input, keeps the input's blanks, differs
    from the input in blanked cells only, and is solved. *)
Theorem solve_only_blanks (order : gset coord → list coord) b :
  iterates order → rectangular b → no_adjacent_blanks b →
  ∃ S, solve order b = Ok S ∧
    ∀ s, s ∈ S →
      size s = size b ∧
      (∀ c, blank_at b c → blank_at s c) ∧
      (∀ c, ¬ blank_at s c → cell s c = cell b c) ∧
      solved s.
Proof.
  intros Horder Hr Hadj.
  destruct (solve_spec order b Horder (conj Hr Hadj)) as (S & HS & Hall).
  exists S. split; [done|]. intros s Hs.
  destruct (Hall s Hs) as (Hrs & Hbl & Hsolved). split_and!; [| | |done].
  - rewrite !size_ok by (apply Hr || apply Hrs).
    destruct Hbl as (-> & -> & _). done.
  - intros c. by apply blanked_blank_at.
  - intros c Hnb. destruct Hbl as (_ & _ & Hcell).
    by destruct (Hcell c) as [? | [? _]].
Qed.

(** *** The search misses no minimal solution *)

Lemma minimal_blanked b b2 s : minimal b s → blanked b b2 → minimal b2 s.
Proof.
  intros Hm Hbl b' Hr Hb2 Hs Hd.
  apply Hm; [done | by eapply blanked_trans | done..].
Qed.

(** Blanking a cell that the target has blank succeeds and stays
    below the target. *)
Lemma try_blank_towards s b c :
  sound b → in_range b c → blanked b s → no_adjacent_blanks s → blank_at s c →
  ∃ b', try_blank b c = Ok (Some b') ∧ sound b' ∧ blanked b b' ∧
        blanked b' s ∧ blank_at b' c.
Proof.
  intros Hs Hin Hbl Hadj Hsc.
  assert (∀ c', c' ∈ neighbours c → ¬ blank_at b c') as Hfree.
  { intros c' Hc' Hb. apply (Hadj c c' Hsc Hc'). by eapply blanked_blank_at. }
  destruct (try_blank_spec b c Hs Hin) as [Hnone | (b' & Hsome & Hs' & Hbl' & Hb' & Hcell)].
  { unfold try_blank in Hnone. destruct c as [x y]. simpl in Hnone.
    by rewrite (blank_succeeds b x y (proj1 Hs) Hin Hfree) in Hnone. }
  exists b'. split_and!; [done..| |done].
  destruct Hbl as (Hw & Hh & Hc). destruct Hbl' as (Hw' & Hh' & _).
  split_and!; [congruence | congruence |]. intros c'.
  destruct (decide (c' = c)) as [-> | Hne].
  - left. by rewrite Hsc, Hb'.
  - rewrite (Hcell c' Hne). apply Hc.
Qed.

Lemma blank_all_towards s where_ : ∀ b,
  sound b → Forall (in_range b) where_ → blanked b s → no_adjacent_blanks s →
  Forall (blank_at s) where_ →
  ∃ b', blank_all b where_ = Ok (Some b') ∧ sound b' ∧ blanked b b' ∧
        blanked b' s ∧ ∀ c, c ∈ where_ → blank_at b' c.
Proof.
  induction where_ as [| c cs IH]; intros b Hs Hin Hbl Hadj Hall; simpl.
  { exists b. split_and!; [done | done | apply blanked_refl | done |].
    by intros c ?%elem_of_nil. }
  apply Forall_cons in Hin as [Hc Hcs]. apply Forall_cons in Hall as [Hsc Hscs].
  destruct (try_blank_towards s b c Hs Hc Hbl Hadj Hsc)
    as (b1 & -> & Hs1 & Hbl1 & Hbl1s & Hb1). simpl.
  destruct (IH b1 Hs1) as (b' & -> & Hs' & Hbl' & Hbl's & Hb'); [|done..|].
  { eapply Forall_impl; [exact Hcs|]. intros c' ?. by apply (blanked_in_range b b1). }
  exists b'. split_and!; [done | done | by eapply blanked_trans | done |].
  intros c' [-> | Hc']%elem_of_cons; [|by apply Hb'].
  by eapply blanked_blank_at.
Qed.

Lemma blank_others_towards s where_ keep : ∀ b,
  sound b → Forall (in_range b) where_ → blanked b s → no_adjacent_blanks s →
  (∀ c, c ∈ where_ → c ≠ keep → blank_at s c) →
  ∃ b', blank_others b where_ keep = Ok (Some b') ∧ sound b' ∧ blanked b b' ∧
        blanked b' s ∧ ∀ c, c ∈ where_ → c ≠ keep → blank_at b' c.
Proof.
  induction where_ as [| c cs IH]; intros b Hs Hin Hbl Hadj Hall; simpl.
  { exists b. split_and!; [done | done | apply blanked_refl | done |].
    by intros c ?%elem_of_nil. }
  apply Forall_cons in Hin as [Hc Hcs].
  assert (∀ c0, c0 ∈ cs → c0 ≠ keep → blank_at s c0) as Hall'.
  { intros c0 Hc0. apply Hall. by right. }
  destruct (decide (c ≠ keep)) as [Hne | Heq%dec_stable].
  - destruct (try_blank_towards s b c Hs Hc Hbl Hadj)
      as (b1 & -> & Hs1 & Hbl1 & Hbl1s & Hb1); [apply Hall; [left | done]|].
    simpl.
    destruct (IH b1 Hs1) as (b' & -> & Hs' & Hbl' & Hbl's & Hb'); [|done..|].
    { eapply Forall_impl; [exact Hcs|]. intros c' ?. by apply (blanked_in_range b b1). }
    exists b'. split_and!; [done | done | by eapply blanked_trans | done |].
    intros c' [-> | Hc']%elem_of_cons ?; [|by apply Hb'].
    by eapply blanked_blank_at.
  - destruct (IH b Hs Hcs Hbl Hadj Hall') as (b' & -> & Hs' & Hbl' & Hbl's & Hb').
    exists b'. split_and!; [done..|].
    intros c' [-> | Hc']%elem_of_cons ?; [done | by apply Hb'].
Qed.

Section blank_some_finds.
(** The board looked for. *)
Variable s : Hitori.
Hypothesis Hs_adj : no_adjacent_blanks s.
Hypothesis Hs_dup : no_duplicates s.
Variables gen0 gen1 : cont.
Variables (b : Hitori) (sel : selector).
Hypothesis Hsound : sound b.
Hypothesis Hsel : valid_selector b sel.
Hypothesis Hgen0 : ∀ b2 a0,
  sound b2 → blanked b b2 →
  (base.size (filled_cells b2) < base.size (filled_cells b))%nat →
  ∃ a', gen0 b2 a0 = Ok a' ∧ a0 ⊆ a' ∧
        (blanked b2 s → minimal b2 s → s ∈ a').
Hypothesis Hgen1 : ∀ a0,
  clean b (line b sel) →
  ∃ a', gen1 b a0 = Ok a' ∧ a0 ⊆ a' ∧ (blanked b s → minimal b s → s ∈ a').

Lemma keep_each_finds where_ todo : ∀ a0,
  Forall (in_range b) where_ → Forall (filled b) where_ →
  NoDup where_ → (1 < length where_)%nat →
  ∃ a', keep_each gen0 b where_ todo a0 = Ok a' ∧ a0 ⊆ a' ∧
        (blanked b s → minimal b s →
         ∀ keep, keep ∈ todo →
           (∀ c, c ∈ where_ → c ≠ keep → blank_at s c) → s ∈ a').
Proof.
  intros a0 Hin Hf Hnd Hlen. revert a0.
  induction todo as [| c todo IH]; intros a0; simpl.
  { exists a0. split_and!; [done | done |]. by intros _ _ keep ?%elem_of_nil. }
  destruct (other_element where_ c Hnd Hlen) as (c' & Hc' & Hne).
  assert (filled b c') as Hfc' by (by eapply Forall_forall in Hf).
  destruct (blank_others_spec where_ c b Hsound Hin)
    as [Hr | (b2 & Hr & Hs2 & Hbl & Hb)].
  - rewrite Hr. simpl. destruct (IH a0) as (a' & -> & Hsub & Hfound).
    exists a'. split_and!; [done | done |].
    intros Hbs Hmin keep [-> | Hkeep]%elem_of_cons Hrest;
      [|by apply (Hfound Hbs Hmin keep)].
    destruct (blank_others_towards s where_ c b Hsound Hin Hbs Hs_adj Hrest)
      as (b2 & Hr2 & _). congruence.
  - rewrite Hr. simpl.
    destruct (Hgen0 b2 a0) as (a1 & -> & Hsub1 & Hfound1); [done | done | |].
    { eapply filled_cells_decrease; [apply Hsound | apply Hs2 | done | done |].
      by apply Hb. }
    simpl. destruct (IH a1) as (a' & -> & Hsub & Hfound).
    exists a'. split_and!; [done | by etrans |].
    intros Hbs Hmin keep [-> | Hkeep]%elem_of_cons Hrest;
      [|by apply (Hfound Hbs Hmin keep)].
    destruct (blank_others_towards s where_ c b Hsound Hin Hbs Hs_adj Hrest)
      as (b2' & Hr2 & _ & _ & Hb2s & _).
    assert (b2' = b2) as -> by congruence.
    apply Hsub, Hfound1; [done | by eapply minimal_blanked].
Qed.

Lemma blank_some_finds a :
  ∃ a', blank_some gen0 gen1 sel b a = Ok a' ∧ a ⊆ a' ∧
        (blanked b s → minimal b s → s ∈ a').
Proof.
  pose proof Hsound as [Hr _]. unfold blank_some.
  rewrite select_ok by done. cbn [rbind].
  pose proof (line_in_range b sel Hsel) as Hin.
  destruct (blank_some_cases b sel Hr Hsel) as (counts & -> & Hfind).
  cbn [rbind]. destruct (List.find _ counts) as [[v where_]|]; [|by apply Hgen1].
  destruct Hfind as (Hv & Hw & Hlen & _).
  assert (Forall (in_range b) where_) as Hwin.
  { rewrite Hw. apply Forall_forall. intros c [_ Hc]%list_elem_of_filter.
    by eapply Forall_forall in Hin. }
  assert (Forall (filled b) where_) as Hwf.
  { rewrite Hw. apply Forall_forall. intros c [Hc _]%list_elem_of_filter.
    by exists v. }
  assert (NoDup where_) as Hwnd.
  { rewrite Hw. apply NoDup_filter, line_NoDup. }
  destruct (keep_each_finds where_ where_ a Hwin Hwf Hwnd Hlen)
    as (a1 & -> & Hsub1 & Hfound1).
  cbn [rbind].
  assert (∃ c0, c0 ∈ where_) as [c0 Hc0].
  { destruct where_ as [| c0 ?]; [simpl in Hlen; lia|]. exists c0. left. }
  destruct (blank_all_spec where_ b Hsound Hwin)
    as [Hr' | (b2 & Hr' & Hs2 & Hbl & Hb)]; rewrite Hr'; simpl.
  - exists a1. split_and!; [done | done |]. intros Hbs Hmin.
    destruct (decide (Forall (blank_at s) where_)) as [Hall | Hex].
    { destruct (blank_all_towards s where_ b Hsound Hwin Hbs Hs_adj Hall)
        as (b2 & Hr2 & _). congruence. }
    apply not_Forall_Exists, Exists_exists in Hex as (keep & Hkeep & Hnb); [|apply _].
    apply (Hfound1 Hbs Hmin keep Hkeep).
    intros c Hc Hne. rewrite Hw in Hc, Hkeep.
    apply list_elem_of_filter in Hc as [Hcv Hc], Hkeep as [Hkv Hk].
    destruct Hbs as (_ & _ & Hcell).
    destruct (Hcell keep) as [Hsk | [? _]]; [|done].
    destruct (Hcell c) as [Hsc | [? _]]; [|done].
    exfalso. apply Hv. apply (Hs_dup c keep v); [done | | congruence..].
    by eapply line_same_line.
  - destruct (Hgen0 b2 a1) as (a' & -> & Hsub & Hfound); [done | done | |].
    { eapply (filled_cells_decrease b b2 c0); [done | apply Hs2 | done | |].
      - by eapply Forall_forall in Hwf.
      - by apply Hb. }
    exists a'. split_and!; [done | by etrans |]. intros Hbs Hmin.
    destruct (decide (Forall (blank_at s) where_)) as [Hall | Hex].
    { destruct (blank_all_towards s where_ b Hsound Hwin Hbs Hs_adj Hall)
        as (b2' & Hr2 & _ & _ & Hb2s & _).
      assert (b2' = b2) as -> by congruence.
      apply Hfound; [done | by eapply minimal_blanked]. }
    apply not_Forall_Exists, Exists_exists in Hex as (keep & Hkeep & Hnb); [|apply _].
    apply Hsub, (Hfound1 Hbs Hmin keep Hkeep).
    intros c Hc Hne. rewrite Hw in Hc, Hkeep.
    apply list_elem_of_filter in Hc as [Hcv Hc], Hkeep as [Hkv Hk].
    destruct Hbs as (_ & _ & Hcell).
    destruct (Hcell keep) as [Hsk | [? _]]; [|done].
    destruct (Hcell c) as [Hsc | [? _]]; [|done].
    exfalso. apply Hv. apply (Hs_dup c keep v); [done | | congruence..].
    by eapply line_same_line.
Qed.

End blank_some_finds.

Section call_finds.
Variable order : gset coord → list coord.
Hypothesis Horder : iterates order.
Variable s : Hitori.
Hypothesis Hsolved : solved s.

Lemma call_finds fuel : ∀ sels b a,
  sound b → Forall (valid_selector b) sels →
  (∀ sel, sel ∈ selectors (width b) (height b) →
          sel ∈ sels ∨ clean b (line b sel)) →
  (base.size (filled_cells b) + length sels + 2 ≤ fuel)%nat →
  ∃ a', call order fuel (pipeline sels) b a = Ok a' ∧ a ⊆ a' ∧
        (blanked b s → minimal b s → s ∈ a').
Proof.
  destruct Hsolved as (Hs_dup & Hs_adj & Hs_conn).
  induction fuel as [| fuel IH]; intros sels b a Hs Hv Hinv Hfuel; [lia|].
  destruct sels as [| sel sels].
  - simpl.
    destruct (check_connectedness_spec order (call order fuel [CollectCandidate])
                b a Horder (proj1 Hs)) as (ok & -> & Hok).
    assert (blanked b s → minimal b s → b = s) as Heq.
    { intros Hbs Hmin. apply Hmin; [apply Hs | apply blanked_refl | done |].
      apply clean_lines_no_duplicates; [apply Hs|].
      apply Forall_forall. intros sel Hsel.
      by destruct (Hinv sel Hsel) as [?%elem_of_nil | ?]. }
    destruct ok.
    + destruct fuel as [| fuel]; [simpl in Hfuel; lia|]. simpl.
      unfold collect_candidate. eexists. split_and!; [done | |].
      * apply union_subseteq_r.
      * intros Hbs Hmin. rewrite (Heq Hbs Hmin).
        apply elem_of_union. left. by apply elem_of_singleton.
    + exists a. split_and!; [done | done |]. intros Hbs Hmin.
      rewrite <-(Heq Hbs Hmin) in Hs_conn. by apply Hok in Hs_conn.
  - apply Forall_cons in Hv as [Hsel Hv].
    assert (∃ g rest, pipeline sels = g :: rest) as (g & rest & Hrest).
    { unfold pipeline. destruct sels; simpl; eauto. }
    change (pipeline (sel :: sels)) with (BlankSome sel :: pipeline sels).
    rewrite Hrest. cbn [call].
    apply (blank_some_finds s Hs_adj Hs_dup); [done | done | |].
    + intros b2 a0 Hs2 Hbl Hlt. rewrite <-Hrest.
      apply (IH (sel :: sels)); [done | | |].
      * apply Forall_cons. destruct Hbl as (Hw & Hh & _).
        split; [|eapply Forall_impl; [done|]];
          [|intros s']; unfold valid_selector;
          [destruct sel | destruct s']; by rewrite ?Hw, ?Hh.
      * intros sel' Hsel'. pose proof Hbl as (Hw & Hh & _).
        rewrite Hw, Hh in Hsel'.
        destruct (Hinv sel' Hsel') as [? | Hcl]; [by left | right].
        rewrite (blanked_line b b2) by done. by eapply blanked_clean.
      * simpl in *. lia.
    + intros a0 Hcl. rewrite <-Hrest. apply IH; [done | done | |].
      * intros sel' Hsel'.
        destruct (Hinv sel' Hsel') as [[-> | ?]%elem_of_cons | ?];
          [by right | by left | by right].
      * simpl in *. lia.
Qed.

End call_finds.

(** X21. [solve] misses no minimal solution: from a board without
    adjacent blanks, every solved board [s] that is the input with some
    cells blanked, and that blanks no more than it takes to leave no
    symbol twice in a row or column, is in the set [solve] returns. *)
Theorem solve_finds_minimal (order : gset coord → list coord) b s :
  iterates order → rectangular b → no_adjacent_blanks b →
  blanked b s → solved s → minimal b s →
  ∃ S, solve order b = Ok S ∧ s ∈ S.
Proof.
  intros Horder Hr Hadj Hbs Hsolved Hmin. unfold solve.
  rewrite size_ok by apply Hr. cbn [rbind]. rewrite gens_pipeline.
  destruct (call_finds order Horder s Hsolved
              (S (Z.to_nat (width b * height b) +
                  length (pipeline (selectors (width b) (height b)))))
              (selectors (width b) (height b)) b ∅ (conj Hr Hadj)
              (selectors_valid b))
    as (S' & HS & _ & Hfound).
  - intros sel Hsel. by left.
  - pose proof (filled_cells_size b). unfold pipeline.
    rewrite length_app, length_fmap. simpl. lia.
  - exists S'. split; [done | by apply Hfound].
Qed.

(** *** Only duplicates are blanked *)

Lemma blanked_duplicates_refl b : blanked_duplicates b b.
Proof. split; [apply blanked_refl | by left]. Qed.

Lemma blanked_duplicates_trans b1 b2 b3 :
  blanked_duplicates b1 b2 → blanked_duplicates b2 b3 → blanked_duplicates b1 b3.
Proof.
  intros [Hbl12 Hd12] [Hbl23 Hd23]. split; [by eapply blanked_trans|].
  intros c [Hb | (c' & v & Hne & Hline & Hc & Hc' & Hv)]%Hd23; [by apply Hd12|].
  right. exists c', v. destruct Hbl12 as (_ & _ & Hcell).
  split_and!; [done | done | | | done].
  - destruct (Hcell c) as [<- | [Hb _]]; [done|]. unfold blank_at in Hb. congruence.
  - destruct (Hcell c') as [<- | [Hb _]]; [done|]. unfold blank_at in Hb. congruence.
Qed.

Lemma blank_all_only where_ : ∀ b b',
  sound b → Forall (in_range b) where_ → blank_all b where_ = Ok (Some b') →
  ∀ c, c ∉ where_ → cell b' c = cell b c.
Proof.
  induction where_ as [| c0 cs IH]; intros b b' Hs Hin; simpl.
  { by intros [= ->]. }
  apply Forall_cons in Hin as [Hc0 Hcs].
  destruct (try_blank_spec b c0 Hs Hc0)
    as [-> | (b1 & -> & Hs1 & Hbl1 & _ & Hcell)]; simpl; [done|].
  intros Hrun c Hc. rewrite (IH b1 b' Hs1); [| |done|].
  - apply Hcell. intros ->. apply Hc. left.
  - eapply Forall_impl; [exact Hcs|]. intros c' ?. by apply (blanked_in_range b b1).
  - intros ?. apply Hc. by right.
Qed.

Lemma blank_others_only where_ keep : ∀ b b',
  sound b → Forall (in_range b) where_ →
  blank_others b where_ keep = Ok (Some b') →
  ∀ c, c ∉ where_ → cell b' c = cell b c.
Proof.
  induction where_ as [| c0 cs IH]; intros b b' Hs Hin; simpl.
  { by intros [= ->]. }
  apply Forall_cons in Hin as [Hc0 Hcs].
  destruct (decide (c0 ≠ keep)) as [Hne | Heq].
  - destruct (try_blank_spec b c0 Hs Hc0)
      as [-> | (b1 & -> & Hs1 & Hbl1 & _ & Hcell)]; simpl; [done|].
    intros Hrun c Hc. rewrite (IH b1 b' Hs1); [| |done|].
    + apply Hcell. intros ->. apply Hc. left.
    + eapply Forall_impl; [exact Hcs|]. intros c' ?.
      by apply (blanked_in_range b b1).
    + intros ?. apply Hc. by right.
  - intros Hrun c Hc. apply (IH b b' Hs Hcs Hrun). intros ?. apply Hc. by right.
Qed.

(** Blanking cells of a group of equal symbols blanks duplicates. *)
Lemma group_blanked_duplicates b sel v where_ b2 :
  where_ = filter (λ c, cell b c = Some v) (line b sel) → v ≠ BLANK →
  (1 < length where_)%nat →
  blanked b b2 → (∀ c, c ∉ where_ → cell b2 c = cell b c) →
  blanked_duplicates b b2.
Proof.
  intros Hw Hv Hlen Hbl Honly. split; [done|]. intros c Hb.
  destruct (decide (c ∈ where_)) as [Hc | Hc].
  - right. destruct (other_element where_ c) as (c' & Hc' & Hne); [|done|].
    { rewrite Hw. apply NoDup_filter, line_NoDup. }
    rewrite Hw in Hc, Hc'.
    apply list_elem_of_filter in Hc as [Hcv Hc], Hc' as [Hcv' Hc'].
    exists c', v. split_and!; [done | by eapply line_same_line | done..].
  - left. unfold blank_at in *. by rewrite <-Honly.
Qed.

Section blank_some_only.
(** [N]: what the boards the search collects are to satisfy. *)
Variable N : Hitori → Prop.
Variables gen0 gen1 : cont.
Variables (b : Hitori) (sel : selector).
Hypothesis Hsound : sound b.
Hypothesis Hsel : valid_selector b sel.
Hypothesis Hgen0 : ∀ b2 a0,
  sound b2 → blanked_duplicates b b2 →
  (base.size (filled_cells b2) < base.size (filled_cells b))%nat →
  ∃ a', gen0 b2 a0 = Ok a' ∧ ∀ x, x ∈ a' → x ∈ a0 ∨ N x.
Hypothesis Hgen1 : ∀ a0,
  ∃ a', gen1 b a0 = Ok a' ∧ ∀ x, x ∈ a' → x ∈ a0 ∨ N x.

Lemma keep_each_only v where_ todo : ∀ a0,
  where_ = filter (λ c, cell b c = Some v) (line b sel) → v ≠ BLANK →
  (1 < length where_)%nat →
  ∃ a', keep_each gen0 b where_ todo a0 = Ok a' ∧ ∀ x, x ∈ a' → x ∈ a0 ∨ N x.
Proof.
  intros a0 Hw Hv Hlen. revert a0.
  assert (Forall (in_range b) where_) as Hin.
  { rewrite Hw. apply Forall_forall. intros c [_ Hc]%list_elem_of_filter.
    pose proof (line_in_range b sel Hsel) as Hall.
    by eapply Forall_forall in Hall. }
  assert (NoDup where_) as Hnd.
  { rewrite Hw. apply NoDup_filter, line_NoDup. }
  induction todo as [| c todo IH]; intros a0; simpl.
  { exists a0. split; [done|]. by left. }
  destruct (other_element where_ c Hnd Hlen) as (c' & Hc' & Hne).
  assert (filled b c') as Hfc'.
  { rewrite Hw in Hc'. apply list_elem_of_filter in Hc' as [? _]. by exists v. }
  destruct (blank_others_spec where_ c b Hsound Hin)
    as [Hr | (b2 & Hr & Hs2 & Hbl & Hb)]; rewrite Hr; simpl.
  - destruct (IH a0) as (a' & -> & Ha'). by exists a'.
  - destruct (Hgen0 b2 a0) as (a1 & -> & Ha1); [done | | |]; simpl.
    { apply (group_blanked_duplicates b sel v where_); [done..|].
      by apply (blank_others_only where_ c). }
    { eapply filled_cells_decrease; [apply Hsound | apply Hs2 | done | done |].
      by apply Hb. }
    destruct (IH a1) as (a' & -> & Ha'). exists a'. split; [done|].
    intros x [Hx | ?]%Ha'; [by apply Ha1 | by right].
Qed.

Lemma blank_some_only a :
  ∃ a', blank_some gen0 gen1 sel b a = Ok a' ∧ ∀ x, x ∈ a' → x ∈ a ∨ N x.
Proof.
  pose proof Hsound as [Hr _]. unfold blank_some.
  rewrite select_ok by done. cbn [rbind].
  pose proof (line_in_range b sel Hsel) as Hin.
  destruct (blank_some_cases b sel Hr Hsel) as (counts & -> & Hfind).
  cbn [rbind]. destruct (List.find _ counts) as [[v where_]|]; [|by apply Hgen1].
  destruct Hfind as (Hv & Hw & Hlen & _).
  assert (Forall (in_range b) where_) as Hwin.
  { rewrite Hw. apply Forall_forall. intros c [_ Hc]%list_elem_of_filter.
    by eapply Forall_forall in Hin. }
  destruct (keep_each_only v where_ where_ a Hw Hv Hlen) as (a1 & -> & Ha1).
  cbn [rbind].
  assert (∃ c0, c0 ∈ where_) as [c0 Hc0].
  { destruct where_ as [| c0 ?]; [simpl in Hlen; lia|]. exists c0. left. }
  destruct (blank_all_spec where_ b Hsound Hwin)
    as [Hr' | (b2 & Hr' & Hs2 & Hbl & Hb)]; rewrite Hr'; simpl.
  { by exists a1. }
  destruct (Hgen0 b2 a1) as (a' & -> & Ha'); [done | | |].
  - apply (group_blanked_duplicates b sel v where_); [done..|].
    by apply (blank_all_only where_).
  - eapply (filled_cells_decrease b b2 c0); [done | apply Hs2 | done | |].
    + rewrite Hw in Hc0. apply list_elem_of_filter in Hc0 as [? _]. by exists v.
    + by apply Hb.
  - exists a'. split; [done|]. intros x [Hx | ?]%Ha'; [by apply Ha1 | by right].
Qed.

End blank_some_only.

Lemma call_only (order : gset coord → list coord) b0 fuel : ∀ sels b a,
  iterates order → sound b → blanked_duplicates b0 b →
  Forall (valid_selector b) sels →
  (base.size (filled_cells b) + length sels + 2 ≤ fuel)%nat →
  ∃ a', call order fuel (pipeline sels) b a = Ok a' ∧
        ∀ x, x ∈ a' → x ∈ a ∨ blanked_duplicates b0 x.
Proof.
  induction fuel as [| fuel IH]; intros sels b a Horder Hs Hb0 Hv Hfuel; [lia|].
  destruct sels as [| sel sels].
  - simpl.
    destruct (check_connectedness_spec order (call order fuel [CollectCandidate])
                b a Horder (proj1 Hs)) as (ok & -> & Hok).
    destruct ok; [|exists a; split; [done | by left]].
    destruct fuel as [| fuel]; [simpl in Hfuel; lia|]. simpl.
    unfold collect_candidate. eexists. split; [done|].
    by intros x [->%elem_of_singleton | Hx]%elem_of_union; [right | left].
  - apply Forall_cons in Hv as [Hsel Hv].
    assert (∃ g rest, pipeline sels = g :: rest) as (g & rest & Hrest).
    { unfold pipeline. destruct sels; simpl; eauto. }
    change (pipeline (sel :: sels)) with (BlankSome sel :: pipeline sels).
    rewrite Hrest. cbn [call].
    apply (blank_some_only (blanked_duplicates b0)); [done | done | |].
    + intros b2 a0 Hs2 Hbd Hlt. rewrite <-Hrest.
      apply (IH (sel :: sels)); [done | done | by eapply blanked_duplicates_trans | |].
      * apply Forall_cons. destruct Hbd as [(Hw & Hh & _) _].
        split; [|eapply Forall_impl; [exact Hv|]];
          [|intros s']; unfold valid_selector;
          [destruct sel | destruct s']; by rewrite ?Hw, ?Hh.
      * simpl in *. lia.
    + intros a0. rewrite <-Hrest. apply IH; [done..|]. simpl in *. lia.
Qed.

(** X22. [solve] blanks duplicates only: in every board it returns, a
    blank cell was blank in the input already, or its symbol in the
    input is at another cell of the same row or column of the input as
    well. A symbol that is alone in its row and in its column is never
    blanked. *)
Theorem solve_blanks_duplicates_only (order : gset coord → list coord) b :
  iterates order → rectangular b → no_adjacent_blanks b →
  ∃ S, solve order b = Ok S ∧
    ∀ s c, s ∈ S → blank_at s c → blank_at b c ∨ duplicated b c.
Proof.
  intros Horder Hr Hadj. unfold solve.
  rewrite size_ok by apply Hr. cbn [rbind]. rewrite gens_pipeline.
  destruct (call_only order b
              (S (Z.to_nat (width b * height b) +
                  length (pipeline (selectors (width b) (height b)))))
              (selectors (width b) (height b)) b ∅ Horder (conj Hr Hadj)
              (blanked_duplicates_refl b) (selectors_valid b))
    as (S' & HS & Hall).
  - pose proof (filled_cells_size b). unfold pipeline.
    rewrite length_app, length_fmap. simpl. lia.
  - exists S'. split; [done|].
    intros s c [[]%elem_of_empty | [_ Hd]]%Hall. apply Hd.
Qed.

End Search_extras.

(** ** Instances of the further properties *)

Lemma pairs_reached :
  UnionFind.calls None (UnionFind.init [key1; key2; key3; key4]) pair_calls
  = Ok pairs.
Proof. by vm_compute. Qed.

Lemma find_keeps_answers_witness :
  ∃ res d', UnionFind.find None chain key1 = Ok (res, d') ∧
            UnionFind.answer None chain key1 = Ok res ∧
            ∀ x, UnionFind.answer None d' x = UnionFind.answer None chain x.
Proof.
  apply (find_keeps_answers None [key1; key2; key3; key4] chain_calls chain key1).
  exact chain_reached.
Defined.

Lemma union_untracked_keeps_answers_witness :
  ∃ d', UnionFind.union None chain key1 (Some 9%nat) = Ok d' ∧
        ∀ x, UnionFind.answer None d' x = UnionFind.answer None chain x.
Proof.
  apply (union_untracked_keeps_answers None [key1; key2; key3; key4]
           chain_calls chain key1 (Some 9%nat)).
  - exact chain_reached.
  - right. by apply (bool_decide_unpack _).
Defined.

Lemma union_merges_answers_witness :
  ∃ rp np rq nq d',
    UnionFind.answer None pairs key1 = Ok (rp, np) ∧
    UnionFind.answer None pairs key3 = Ok (rq, nq) ∧
    UnionFind.union None pairs key1 key3 = Ok d' ∧
    ∀ x, UnionFind.answer None d' x =
         if decide (rp ≠ rq ∧ (UnionFind.answer None pairs x = Ok (rp, np) ∨
                               UnionFind.answer None pairs x = Ok (rq, nq)))
         then Ok (rq, (np + nq)%nat)
         else UnionFind.answer None pairs x.
Proof.
  apply (union_merges_answers None [key1; key2; key3; key4] pair_calls pairs
           key1 key3).
  - exact pairs_reached.
  - by apply (bool_decide_unpack _).
  - by apply (bool_decide_unpack _).
  - by apply (bool_decide_unpack _).
Defined.

Lemma connected_is_equivalence_witness :
  (∀ a, UnionFind.linked_now None pairs a a = Ok true) ∧
  (∀ a b, UnionFind.linked_now None pairs a b = UnionFind.linked_now None pairs b a) ∧
  (∀ a b c, UnionFind.linked_now None pairs a b = Ok true →
            UnionFind.linked_now None pairs b c = Ok true →
            UnionFind.linked_now None pairs a c = Ok true).
Proof.
  apply (connected_is_equivalence None [key1; key2; key3; key4] pair_calls pairs).
  exact pairs_reached.
Defined.

Lemma keys_never_change_witness :
  (is_Some (pairs !! key1) ↔ key1 ∈ [key1; key2; key3; key4]) ∧
  (key1 ∉ [key1; key2; key3; key4] ↔
   ∃ r, UnionFind.answer None pairs key1 = Ok (r, 0%nat)).
Proof.
  apply (keys_never_change None [key1; key2; key3; key4] pair_calls pairs).
  exact pairs_reached.
Defined.

Lemma find_size_bounds_witness :
  ∃ r n, UnionFind.answer None chain key2 = Ok (r, n) ∧
         r ∈ [key1; key2; key3; key4] ∧
         (1 ≤ n ≤ length [key1; key2; key3; key4])%nat.
Proof.
  apply (find_size_bounds None [key1; key2; key3; key4] chain_calls chain key2).
  - exact chain_reached.
  - by apply (bool_decide_unpack _).
Defined.

Lemma init_singletons_witness :
  UnionFind.find None (UnionFind.init [key1; key2; key1]) key1
  = Ok ((key1, 1%nat), UnionFind.init [key1; key2; key1]) ∧
  (key1 ≠ key2 →
   UnionFind.linked_now None (UnionFind.init [key1; key2; key1]) key1 key2
   = Ok false).
Proof.
  apply (init_singletons None [key1; key2; key1] key1 key2). left.
Defined.

Section Board_instances.
Import Board Examples.
Implicit Types b s : Hitori.
Implicit Types c : coord.

Lemma clean_check b cs :
  Forall (λ c, Forall (λ c', c ≠ c' → cell b c = cell b c' →
                             cell b c = None ∨ cell b c = Some BLANK) cs) cs →
  clean b cs.
Proof.
  intros Hall c c' v Hc Hc' Hne Hv Hv'. rewrite Forall_forall in Hall.
  specialize (Hall c Hc). rewrite Forall_forall in Hall.
  destruct (Hall c' Hc' Hne) as [? | ?]; congruence.
Qed.

Lemma no_duplicates_check b :
  rectangular b →
  Forall (λ sel,
    Forall (λ c, Forall (λ c', c ≠ c' → cell b c = cell b c' →
                               cell b c = None ∨ cell b c = Some BLANK)
                   (line b sel)) (line b sel))
    (selectors (width b) (height b)) →
  no_duplicates b.
Proof.
  intros Hr Hall. apply clean_lines_no_duplicates; [done|].
  eapply Forall_impl; [done|]. intros sel. apply clean_check.
Qed.

(** The check of [check_connectedness], run with a next generator that
    would raise. *)
Lemma connected_region_check b :
  rectangular b →
  check_connectedness elements (λ _ _, Raise IndexError) b ∅ = Raise IndexError →
  connected_region b.
Proof.
  intros Hr Hrun.
  destruct (check_connectedness_spec elements (λ _ _, Raise IndexError) b ∅
              iterates_elements Hr) as (ok & Heq & Hok).
  apply Hok. destruct ok; [done | congruence].
Qed.

(** Blanking one cell of a board that has duplicates is minimal. *)
Lemma one_blank_minimal b c s :
  sound b → in_range b c → try_blank b c = Ok (Some s) → ¬ no_duplicates b →
  blanked b s ∧ minimal b s.
Proof.
  intros Hs Hin Htry Hdup.
  destruct (try_blank_spec b c Hs Hin) as [? | (s' & Hsome & Hss & Hbl & Hb & Hcell)];
    [congruence|].
  assert (s' = s) as -> by congruence. split; [done|].
  intros b' Hr' (Hw1 & Hh1 & Hc1) (Hw2 & Hh2 & Hc2) Hnd.
  assert (∀ c', c' ≠ c → cell b' c' = cell s c') as Hother.
  { intros c' Hne. destruct (Hc2 c') as [-> | [Hsb _]]; [done|].
    unfold blank_at in Hsb. rewrite Hsb. rewrite Hcell in Hsb by done.
    destruct (Hc1 c') as [-> | [Hbb _]]; [done | exact Hbb]. }
  apply cell_ext; [done|]. intros c'.
  destruct (decide (c' = c)) as [-> | Hne]; [|by apply Hother].
  destruct (Hc1 c) as [Hsame | [Hbb _]]; [|by rewrite Hbb, Hb].
  destruct Hdup. assert (b' = b) as <-; [|done].
  apply cell_ext; [done|]. intros c'.
  destruct (decide (c' = c)) as [-> | Hne]; [done|].
  rewrite Hother, Hcell by done. done.
Qed.

Lemma board_12_34_rectangular : rectangular board_12_34.
Proof. by apply rectangular_check. Qed.

Lemma board_12_34_no_duplicates : no_duplicates board_12_34.
Proof.
  apply no_duplicates_check; [exact board_12_34_rectangular|].
  by apply (bool_decide_unpack _).
Qed.

Lemma board_x2_34_rectangular : rectangular board_x2_34.
Proof. by apply rectangular_check. Qed.

Lemma board_x2_34_no_adjacent_blanks : no_adjacent_blanks board_x2_34.
Proof.
  apply no_adjacent_blanks_check; [exact board_x2_34_rectangular|].
  by apply (bool_decide_unpack _).
Qed.

Lemma board_11_21_duplicates : ¬ no_duplicates board_11_21.
Proof.
  intros Hd.
  by specialize (Hd (0, 0) (1, 0) "1"%char ltac:(done) ltac:(by left)
                   eq_refl eq_refl).
Qed.

Lemma board_1x_21_solved : solved board_1x_21.
Proof.
  assert (rectangular board_1x_21) as Hr by (by apply rectangular_check).
  split_and!.
  - apply no_duplicates_check; [done|]. by apply (bool_decide_unpack _).
  - apply no_adjacent_blanks_check; [done|]. by apply (bool_decide_unpack _).
  - apply connected_region_check; [done|]. by vm_compute.
Qed.

Lemma board_1x_21_minimal :
  blanked board_11_21 board_1x_21 ∧ minimal board_11_21 board_1x_21.
Proof.
  apply (one_blank_minimal board_11_21 (1, 0)).
  - apply no_blank_sound; [exact board_11_21_rectangular | exact board_11_21_no_blank].
  - repeat split; by vm_compute.
  - reflexivity.
  - exact board_11_21_duplicates.
Qed.

Lemma is_blank_outside_witness :
  ∃ t, is_blank board_x2_34 (-1) 0 = Ok t ∧
       (¬ in_range board_x2_34 (-1, 0) → t = false).
Proof.
  apply (is_blank_outside board_x2_34 (-1) 0). exact board_x2_34_rectangular.
Defined.

Lemma blank_keeps_invariant_witness :
  rectangular board_x2_3x ∧ no_adjacent_blanks board_x2_3x.
Proof.
  apply (blank_keeps_invariant board_x2_34 1 1 board_x2_3x).
  - reflexivity.
  - exact board_x2_34_no_adjacent_blanks.
  - repeat split; by vm_compute.
  - reflexivity.
Defined.

Lemma blank_commutes_witness :
  ∃ b2, blank board_12_34 1 1 = Ok b2 ∧ blank b2 0 0 = Ok board_x2_3x.
Proof.
  apply (blank_commutes board_12_34 0 0 1 1 board_x2_34 board_x2_3x).
  - exact board_12_34_rectangular.
  - repeat split; by vm_compute.
  - repeat split; by vm_compute.
  - reflexivity.
  - reflexivity.
Defined.

Lemma board_without_lines_witness :
  init (lines (mkHitori [])) = Ok (mkHitori []) ∧
  size (mkHitori []) = Raise IndexError ∧
  (∀ x y, blank (mkHitori []) x y = Raise IndexError) ∧
  (∀ order, solve order (mkHitori []) = Raise IndexError).
Proof. apply (board_without_lines (mkHitori [])). reflexivity. Defined.

Lemma blank_row_out_of_range_witness :
  blank board_12_34 0 2 = Raise ValueError ∨
  blank board_12_34 0 2 = Raise IndexError.
Proof.
  apply (blank_row_out_of_range board_12_34 0 2).
  - exact board_12_34_rectangular.
  - right. by vm_compute.
Defined.

Lemma blank_negative_row_witness :
  blank board_12_34 0 (-1)
  = Ok (mkHitori (blank_lines board_12_34 0 (height board_12_34 + -1))).
Proof.
  apply (blank_negative_row board_12_34 0 (-1)).
  - exact board_12_34_rectangular.
  - by vm_compute.
  - by vm_compute.
  - intros [_ Hb]. discriminate Hb.
Defined.

Lemma str_of_parse_witness :
  str board_12_34 = text_12_34 ∧ lines board_12_34 ≠ [].
Proof. apply (str_of_parse text_12_34 board_12_34). reflexivity. Defined.

Lemma parse_of_str_witness : parse (str board_x2_34) = Ok board_x2_34.
Proof.
  apply (parse_of_str board_x2_34).
  - exact board_x2_34_rectangular.
  - by apply (bool_decide_unpack _).
Defined.

Lemma blank_column_beyond_width_witness :
  blank board_12_34 2 0 = Raise ValueError ∨
  blank board_12_34 2 0 = Raise AssertionError.
Proof.
  apply (blank_column_beyond_width board_12_34 2 0).
  - exact board_12_34_rectangular.
  - by vm_compute.
  - by vm_compute.
  - by vm_compute.
Defined.

Lemma blank_some_passes_clean_lines_witness :
  (clean board_11_21 (line board_11_21 (row_n 0)) →
   blank_some (λ _ a, Ok a) (λ b a, Ok ({[b]} ∪ a)) (row_n 0) board_11_21 ∅
   = Ok ({[board_11_21]} ∪ ∅)) ∧
  (¬ clean board_11_21 (line board_11_21 (row_n 0)) →
   ∀ gen1',
     blank_some (λ _ a, Ok a) gen1' (row_n 0) board_11_21 ∅
     = blank_some (λ _ a, Ok a) (λ b a, Ok ({[b]} ∪ a)) (row_n 0) board_11_21 ∅).
Proof.
  apply (blank_some_passes_clean_lines (λ _ a, Ok a) (λ b a, Ok ({[b]} ∪ a))
           (row_n 0) board_11_21 ∅).
  - exact board_11_21_rectangular.
  - by vm_compute.
Defined.

Lemma check_connectedness_decides_witness :
  (connected_region board_x2_3x →
   check_connectedness elements (λ b a, Ok ({[b]} ∪ a)) board_x2_3x ∅
   = Ok ({[board_x2_3x]} ∪ ∅)) ∧
  (¬ connected_region board_x2_3x →
   check_connectedness elements (λ b a, Ok ({[b]} ∪ a)) board_x2_3x ∅ = Ok ∅).
Proof.
  apply (check_connectedness_decides elements (λ b a, Ok ({[b]} ∪ a))
           board_x2_3x ∅).
  - exact iterates_elements.
  - by apply rectangular_check.
Defined.

Lemma solve_of_board_without_duplicates_witness :
  (connected_region board_12_34 → solve elements board_12_34 = Ok {[board_12_34]}) ∧
  (¬ connected_region board_12_34 → solve elements board_12_34 = Ok ∅).
Proof.
  apply (solve_of_board_without_duplicates elements board_12_34).
  - exact iterates_elements.
  - exact board_12_34_rectangular.
  - exact board_12_34_no_duplicates.
Defined.

Lemma solve_only_blanks_witness :
  ∃ S, solve elements board_x2_34 = Ok S ∧
    ∀ s, s ∈ S →
      size s = size board_x2_34 ∧
      (∀ c, blank_at board_x2_34 c → blank_at s c) ∧
      (∀ c, ¬ blank_at s c → cell s c = cell board_x2_34 c) ∧
      solved s.
Proof.
  apply (solve_only_blanks elements board_x2_34).
  - exact iterates_elements.
  - exact board_x2_34_rectangular.
  - exact board_x2_34_no_adjacent_blanks.
Defined.

Lemma solve_finds_minimal_witness :
  ∃ S, solve elements board_11_21 = Ok S ∧ board_1x_21 ∈ S.
Proof.
  apply (solve_finds_minimal elements board_11_21 board_1x_21).
  - exact iterates_elements.
  - exact board_11_21_rectangular.
  - exact (proj2 (no_blank_sound _ board_11_21_rectangular board_11_21_no_blank)).
  - apply board_1x_21_minimal.
  - exact board_1x_21_solved.
  - apply board_1x_21_minimal.
Defined.

Lemma solve_blanks_duplicates_only_witness :
  ∃ S, solve elements board_11_21 = Ok S ∧
    ∀ s c, s ∈ S → blank_at s c →
           blank_at board_11_21 c ∨ duplicated board_11_21 c.
Proof.
  apply (solve_blanks_duplicates_only elements board_11_21).
  - exact iterates_elements.
  - exact board_11_21_rectangular.
  - exact (proj2 (no_blank_sound _ board_11_21_rectangular board_11_21_no_blank)).
Defined.

End Board_instances.
